(** * Tanmatsu musical keyboard: audio engine and MOD player

    A shallow embedding of the audio code of the repository:
    - the ring buffer between the MOD player task and the audio task
      ([write_to_ring_buffer] in [main/modplayer_esp32.c], the consumer side in
      [audio_task] of [main/main.c]);
    - the voice pool with its ADSR envelope and the loudness normalisation
      ([update_adsr], [start_note], [stop_note], [audio_task] of the keyboard
      application);
    - the MOD loader and sequencer ([load_mod_embedded], [process_row],
      [calculate_tick_samples], [modplayer_task]) with the mixer
      ([process_tick]);
    - the waveform lookup, the output conversion, the volume keys and the
      volume bar of the keyboard application ([get_waveform_sample],
      [render_volume_indicator]);
    - the sound pool and the main loop of the bouncing balls ([audio_task]
      and [app_main] of [main/main.c]).

    Conventions.  C integers are [Z] with the wrap-around of their type written
    out ([u8], [u16], [u32]).  Arrays are lists, indexed with stdpp's lookup
    [l !! i] and updated with [<[i:=x]> l]; C leaves an access outside the array
    undefined, the places where that can happen are said at each definition.
    [float] values are rationals, every float operation being followed by a
    rounding operator [fl]; the properties of the envelope assume of it only
    that it is monotone and exact at 0 and 1, which the identity (exact
    arithmetic) and rounding to nearest both satisfy.  The normalisation gain,
    which needs a square root, is a real number with a rounding operator
    [round] of its own, assumed monotone, exact at 1 and of relative error at
    most 2^-24. *)

From Stdlib Require Import ZArith QArith Qround Reals Psatz Lia List Bool.
From stdpp Require Import base list.

Local Open Scope Z_scope.

(** ** Machine integers *)

Definition u8 (z : Z) : Z := z mod 2 ^ 8.
Definition u16 (z : Z) : Z := z mod 2 ^ 16.
Definition u32 (z : Z) : Z := z mod 2 ^ 32.

(** Conversion of a [float] to an integer type: the fraction is discarded
    (truncation towards zero). *)
Definition truncate (q : Q) : Z := Z.quot (Qnum q) (Zpos (Qden q)).

Lemma u32_small (z : Z) : 0 <= z < 2 ^ 32 -> u32 z = z.
Proof. intros H. unfold u32. now apply Z.mod_small. Qed.

Lemma u32_range (z : Z) : 0 <= u32 z < 2 ^ 32.
Proof. unfold u32. apply Z.mod_pos_bound. lia. Qed.

(** ** The ring buffer (modplayer_esp32.c lines 33-36 and 203-223, main.c
    lines 100-107) *)

Module RingBuffer.

(** [mod_ring_buffer], [mod_write_pos] and [mod_read_pos]: an array of
    [MOD_BUFFER_SIZE] 16-bit samples and two [uint32_t] indices. *)
Record ring : Type := Ring {
  mod_ring_buffer : list Z;
  mod_write_pos : Z;
  mod_read_pos : Z
}.

Section Ring.

(** [MOD_BUFFER_SIZE] comes from [modplayer_esp32.h], which is not part of the
    sources at hand (the project notes give 2048); it is a parameter here. *)
Variable MOD_BUFFER_SIZE : Z.

(** Rounding of an exact result to [float]. *)
Variable fl : Q -> Q.

(** [MOD_VOLUME_SCALE], the float literal [0.7f]. *)
Definition MOD_VOLUME_SCALE : Q := fl (7 # 10).

(** [scaled_sample = (int16_t)(samples[i] * MOD_VOLUME_SCALE)]: the float
    product converted back to an integer. *)
Definition scale (sample : Z) : Z :=
  truncate (fl (inject_Z sample * MOD_VOLUME_SCALE)).

(** The state set up by [modplayer_init]. *)
Definition modplayer_init : ring :=
  Ring (replicate (Z.to_nat MOD_BUFFER_SIZE) 0) 0 0.

(** The body of the inner loop of [write_to_ring_buffer]: one attempt to
    enqueue [s].  [continue] leaves everything as it was.  (A write index
    outside the array cannot arise from [modplayer_init]; C leaves the store
    undefined then, the list is left unchanged here.) *)
Definition try_write (s : Z) (rb : ring) : ring :=
  let next_pos := u32 (mod_write_pos rb + 1) mod MOD_BUFFER_SIZE in
  if next_pos =? mod_read_pos rb then rb
  else Ring (<[Z.to_nat (mod_write_pos rb) := s]> (mod_ring_buffer rb))
            next_pos
            (mod_read_pos rb).

(** [write_to_ring_buffer(samples, count)]: every sample is scaled and
    enqueued twice (22050 Hz to 44100 Hz). *)
Definition write_to_ring_buffer (samples : list Z) (rb : ring) : ring :=
  fold_left (fun rb s => try_write (scale s) (try_write (scale s) rb))
            samples rb.

(** The consumer in [audio_task]: [None] when nothing is queued, otherwise the
    sample under the read index, which then advances.  (0 stands for the
    undefined value of a read outside the array.) *)
Definition try_read (rb : ring) : option Z * ring :=
  if mod_read_pos rb =? mod_write_pos rb then (None, rb)
  else (Some (default 0 (mod_ring_buffer rb !! Z.to_nat (mod_read_pos rb))),
        Ring (mod_ring_buffer rb)
             (mod_write_pos rb)
             (u32 (mod_read_pos rb + 1) mod MOD_BUFFER_SIZE)).

(** The states the two tasks can be in: the array has its declared size and
    both indices lie inside it. *)
Definition ring_wf (rb : ring) : Prop :=
  length (mod_ring_buffer rb) = Z.to_nat MOD_BUFFER_SIZE /\
  0 <= mod_write_pos rb < MOD_BUFFER_SIZE /\
  0 <= mod_read_pos rb < MOD_BUFFER_SIZE.

(** *** Properties *)

Hypothesis size_range : 0 < MOD_BUFFER_SIZE < 2 ^ 32.

Lemma next_index (i : Z) :
  0 <= i < MOD_BUFFER_SIZE ->
  u32 (i + 1) mod MOD_BUFFER_SIZE = (i + 1) mod MOD_BUFFER_SIZE /\
  0 <= (i + 1) mod MOD_BUFFER_SIZE < MOD_BUFFER_SIZE.
Proof.
  intros Hi. split.
  - rewrite u32_small; [reflexivity | lia].
  - apply Z.mod_pos_bound. lia.
Qed.

Lemma modplayer_init_wf : ring_wf modplayer_init.
Proof.
  unfold ring_wf, modplayer_init; simpl.
  rewrite length_replicate. lia.
Qed.

Lemma try_write_wf (s : Z) (rb : ring) : ring_wf rb -> ring_wf (try_write s rb).
Proof.
  intros (Hlen & Hw & Hr). unfold try_write.
  destruct (_ =? _); [now repeat split|].
  unfold ring_wf; simpl. rewrite length_insert.
  destruct (next_index _ Hw) as [-> Hn]. now repeat split.
Qed.

Lemma try_read_wf (rb : ring) : ring_wf rb -> ring_wf (snd (try_read rb)).
Proof.
  intros (Hlen & Hw & Hr). unfold try_read.
  destruct (_ =? _); simpl; [now repeat split|].
  unfold ring_wf; simpl.
  destruct (next_index _ Hr) as [-> Hn]. now repeat split.
Qed.

Lemma write_to_ring_buffer_cons (s : Z) (samples : list Z) (rb : ring) :
  write_to_ring_buffer (s :: samples) rb =
  write_to_ring_buffer samples (try_write (scale s) (try_write (scale s) rb)).
Proof. reflexivity. Qed.

Lemma write_to_ring_buffer_wf (samples : list Z) (rb : ring) :
  ring_wf rb -> ring_wf (write_to_ring_buffer samples rb).
Proof.
  unfold write_to_ring_buffer. revert rb.
  induction samples as [|s samples IH]; intros rb Hwf; simpl; [assumption|].
  apply IH. now do 2 apply try_write_wf.
Qed.

(** C1.  Ring buffer contract.  In every state of the buffer (array of the
    declared size, both indices inside it) a producer write computes the next
    write position modulo the capacity; when that position is the read index the
    sample is dropped and the whole state (contents and both indices) is left as
    it was; otherwise the sample is stored at the write index, every other cell
    keeps its value, the write index becomes the next position and the read
    index is untouched.  A consumer read returns no sample exactly when the two
    indices are equal, and then changes nothing; otherwise it returns the sample
    under the read index and advances the read index modulo the capacity,
    leaving the contents and the write index alone.  Both operations are total
    functions without an error result, and both keep the state well formed. *)
Theorem ring_buffer_contract (s : Z) (rb : ring) :
  ring_wf rb ->
  let next_pos := (mod_write_pos rb + 1) mod MOD_BUFFER_SIZE in
  (next_pos = mod_read_pos rb -> try_write s rb = rb) /\
  (next_pos <> mod_read_pos rb ->
     mod_ring_buffer (try_write s rb) !! Z.to_nat (mod_write_pos rb) = Some s /\
     (forall j : nat, j <> Z.to_nat (mod_write_pos rb) ->
        mod_ring_buffer (try_write s rb) !! j = mod_ring_buffer rb !! j) /\
     mod_write_pos (try_write s rb) = next_pos /\
     mod_read_pos (try_write s rb) = mod_read_pos rb) /\
  (fst (try_read rb) = None <-> mod_read_pos rb = mod_write_pos rb) /\
  (mod_read_pos rb = mod_write_pos rb -> snd (try_read rb) = rb) /\
  (mod_read_pos rb <> mod_write_pos rb ->
     (exists x, mod_ring_buffer rb !! Z.to_nat (mod_read_pos rb) = Some x /\
                fst (try_read rb) = Some x) /\
     snd (try_read rb) =
       Ring (mod_ring_buffer rb) (mod_write_pos rb)
            ((mod_read_pos rb + 1) mod MOD_BUFFER_SIZE)) /\
  ring_wf (try_write s rb) /\
  ring_wf (snd (try_read rb)).
Proof.
  intros Hwf next_pos.
  pose proof (try_write_wf s rb Hwf) as Hww.
  pose proof (try_read_wf rb Hwf) as Hrw.
  destruct Hwf as (Hlen & Hw & Hr).
  destruct (next_index _ Hw) as [Hnw _].
  destruct (next_index _ Hr) as [Hnr _].
  assert (Hin : (Z.to_nat (mod_write_pos rb) < length (mod_ring_buffer rb))%nat)
    by lia.
  assert (Hir : (Z.to_nat (mod_read_pos rb) < length (mod_ring_buffer rb))%nat)
    by lia.
  assert (Hwr : next_pos <> mod_read_pos rb ->
                try_write s rb =
                Ring (<[Z.to_nat (mod_write_pos rb) := s]> (mod_ring_buffer rb))
                     next_pos (mod_read_pos rb)).
  { intros Hne. unfold try_write. rewrite Hnw. fold next_pos.
    now rewrite (proj2 (Z.eqb_neq _ _) Hne). }
  assert (Hrd : mod_read_pos rb <> mod_write_pos rb ->
                try_read rb =
                (Some (default 0 (mod_ring_buffer rb !! Z.to_nat (mod_read_pos rb))),
                 Ring (mod_ring_buffer rb) (mod_write_pos rb)
                      ((mod_read_pos rb + 1) mod MOD_BUFFER_SIZE))).
  { intros Hne. unfold try_read. rewrite Hnr.
    now rewrite (proj2 (Z.eqb_neq _ _) Hne). }
  assert (Hre : mod_read_pos rb = mod_write_pos rb -> try_read rb = (None, rb)).
  { intros Heq. unfold try_read. now rewrite (proj2 (Z.eqb_eq _ _) Heq). }
  split; [|split; [|split; [|split; [|split; [|split]]]]].
  - intros Hfull. unfold try_write. rewrite Hnw. fold next_pos.
    now rewrite (proj2 (Z.eqb_eq _ _) Hfull).
  - intros Hne. rewrite (Hwr Hne). simpl. split; [|split; [|split]]; trivial.
    + now apply list_lookup_insert_eq.
    + intros j Hj. apply list_lookup_insert_ne. congruence.
  - split.
    + intros Hnone. destruct (Z.eq_dec (mod_read_pos rb) (mod_write_pos rb))
        as [Heq | Hne]; [exact Heq|].
      rewrite (Hrd Hne) in Hnone. discriminate.
    + intros Heq. now rewrite (Hre Heq).
  - intros Heq. now rewrite (Hre Heq).
  - intros Hne. rewrite (Hrd Hne). simpl. split; [|reflexivity].
    destruct (lookup_lt_is_Some_2 _ _ Hir) as [x Hx]. exists x.
    now rewrite Hx.
  - exact Hww.
  - exact Hrw.
Qed.

(** *** The buffer as a queue

    [queued rb] is what the consumer has still to read, oldest sample first:
    the cells from the read index up to, but not including, the write index,
    going round the end of the array.  It is a reading of the state, not a
    function of the program. *)

Definition queued_count (rb : ring) : Z :=
  (mod_write_pos rb - mod_read_pos rb) mod MOD_BUFFER_SIZE.

Fixpoint cells (buffer : list Z) (from : Z) (n : nat) : list Z :=
  match n with
  | O => []
  | S n =>
      default 0 (buffer !! Z.to_nat from)
      :: cells buffer ((from + 1) mod MOD_BUFFER_SIZE) n
  end.

Definition queued (rb : ring) : list Z :=
  cells (mod_ring_buffer rb) (mod_read_pos rb) (Z.to_nat (queued_count rb)).

(** [n] consecutive reads of the consumer, one per output frame of
    [audio_task]: what each frame got from the buffer, and the buffer after
    the last one. *)
Fixpoint read_frames (n : nat) (rb : ring) : list (option Z) * ring :=
  match n with
  | O => ([], rb)
  | S n =>
      let r := try_read rb in
      let r' := read_frames n (snd r) in
      (fst r :: fst r', snd r')
  end.

(** Every sample twice, as the inner loop of [write_to_ring_buffer] offers
    them to the buffer. *)
Definition upsampled (samples : list Z) : list Z :=
  flat_map (fun s => [scale s; scale s]) samples.

Lemma wrap_succ (i : Z) :
  0 <= i < MOD_BUFFER_SIZE ->
  (i + 1) mod MOD_BUFFER_SIZE = if i + 1 =? MOD_BUFFER_SIZE then 0 else i + 1.
Proof.
  intros Hi. destruct (Z.eqb_spec (i + 1) MOD_BUFFER_SIZE) as [-> | Hne].
  - apply Z.mod_same. lia.
  - apply Z.mod_small. lia.
Qed.

Lemma wrap_add (r i : Z) :
  0 <= r < MOD_BUFFER_SIZE -> 0 <= i < MOD_BUFFER_SIZE ->
  (r + i) mod MOD_BUFFER_SIZE =
  if r + i <? MOD_BUFFER_SIZE then r + i else r + i - MOD_BUFFER_SIZE.
Proof.
  intros Hr Hi. destruct (Z.ltb_spec (r + i) MOD_BUFFER_SIZE) as [Hlt | Hge].
  - apply Z.mod_small. lia.
  - replace (r + i) with (r + i - MOD_BUFFER_SIZE + 1 * MOD_BUFFER_SIZE)
      at 1 by lia.
    rewrite Z.mod_add by lia. apply Z.mod_small. lia.
Qed.

Lemma wrap_diff (w r : Z) :
  0 <= w < MOD_BUFFER_SIZE -> 0 <= r < MOD_BUFFER_SIZE ->
  (w - r) mod MOD_BUFFER_SIZE =
  if r <=? w then w - r else w - r + MOD_BUFFER_SIZE.
Proof.
  intros Hw Hr. destruct (Z.leb_spec r w) as [Hle | Hgt].
  - apply Z.mod_small. lia.
  - replace (w - r) with (w - r + MOD_BUFFER_SIZE + (-1) * MOD_BUFFER_SIZE)
      at 1 by lia.
    rewrite Z.mod_add by lia. apply Z.mod_small. lia.
Qed.

Lemma cells_length (buffer : list Z) (n : nat) :
  forall from : Z, length (cells buffer from n) = n.
Proof.
  induction n as [|n IH]; intros from; simpl; [reflexivity|].
  now rewrite IH.
Qed.

Lemma cells_lookup (buffer : list Z) (n : nat) :
  forall (from : Z) (i : nat),
  0 <= from < MOD_BUFFER_SIZE -> (i < n)%nat ->
  cells buffer from n !! i =
  Some (default 0
          (buffer !! Z.to_nat ((from + Z.of_nat i) mod MOD_BUFFER_SIZE))).
Proof.
  induction n as [|n IH]; intros from i Hfrom Hi; [lia|].
  destruct i as [|i]; simpl.
  - rewrite Z.add_0_r, Z.mod_small by lia. reflexivity.
  - rewrite IH; [|apply Z.mod_pos_bound; lia | lia].
    rewrite Z.add_mod_idemp_l by lia.
    replace (from + Z.of_nat (S i)) with (from + 1 + Z.of_nat i) by lia.
    reflexivity.
Qed.

Lemma queued_count_range (rb : ring) :
  0 <= queued_count rb < MOD_BUFFER_SIZE.
Proof. unfold queued_count. apply Z.mod_pos_bound. lia. Qed.

Lemma queued_length (rb : ring) :
  Z.of_nat (length (queued rb)) = queued_count rb.
Proof.
  unfold queued. rewrite cells_length.
  pose proof (queued_count_range rb). lia.
Qed.

Lemma queued_lookup (rb : ring) (i : nat) :
  ring_wf rb -> Z.of_nat i < queued_count rb ->
  queued rb !! i =
  Some (default 0
          (mod_ring_buffer rb
             !! Z.to_nat ((mod_read_pos rb + Z.of_nat i) mod MOD_BUFFER_SIZE))).
Proof.
  intros (_ & _ & Hr) Hi. unfold queued. apply cells_lookup; [exact Hr | lia].
Qed.

(** The buffer is full exactly when [MOD_BUFFER_SIZE - 1] samples wait. *)
Lemma full_count (rb : ring) :
  ring_wf rb ->
  ((mod_write_pos rb + 1) mod MOD_BUFFER_SIZE = mod_read_pos rb <->
   queued_count rb = MOD_BUFFER_SIZE - 1).
Proof.
  intros (_ & Hw & Hr). unfold queued_count.
  rewrite wrap_succ, wrap_diff by assumption.
  destruct (Z.eqb_spec (mod_write_pos rb + 1) MOD_BUFFER_SIZE);
    destruct (Z.leb_spec (mod_read_pos rb) (mod_write_pos rb)); lia.
Qed.

Lemma try_write_full (s : Z) (rb : ring) :
  ring_wf rb -> queued_count rb = MOD_BUFFER_SIZE - 1 -> try_write s rb = rb.
Proof.
  intros Hwf Hc. pose proof Hwf as (_ & Hw & _).
  unfold try_write. destruct (next_index _ Hw) as [-> _].
  now rewrite (proj2 (Z.eqb_eq _ _) (proj2 (full_count rb Hwf) Hc)).
Qed.

Lemma try_write_queued (s : Z) (rb : ring) :
  ring_wf rb -> queued_count rb < MOD_BUFFER_SIZE - 1 ->
  queued (try_write s rb) = queued rb ++ [s].
Proof.
  intros Hwf Hc. pose proof Hwf as (Hlen & Hw & Hr).
  pose proof (queued_count_range rb) as Hq.
  assert (Hne : (mod_write_pos rb + 1) mod MOD_BUFFER_SIZE <> mod_read_pos rb).
  { intros Hfull. apply (full_count rb Hwf) in Hfull. lia. }
  assert (Hwr : try_write s rb =
                Ring (<[Z.to_nat (mod_write_pos rb) := s]> (mod_ring_buffer rb))
                     ((mod_write_pos rb + 1) mod MOD_BUFFER_SIZE)
                     (mod_read_pos rb)).
  { unfold try_write. destruct (next_index _ Hw) as [-> _].
    now rewrite (proj2 (Z.eqb_neq _ _) Hne). }
  assert (Hwf' : ring_wf (try_write s rb)) by now apply try_write_wf.
  assert (Hc' : queued_count (try_write s rb) = queued_count rb + 1).
  { rewrite Hwr. unfold queued_count in *. simpl.
    rewrite wrap_succ by assumption.
    rewrite wrap_diff in Hc by assumption.
    destruct (Z.eqb_spec (mod_write_pos rb + 1) MOD_BUFFER_SIZE) as [He | He];
      rewrite !wrap_diff by lia;
      destruct (Z.leb_spec (mod_read_pos rb) (mod_write_pos rb));
      repeat match goal with
             | |- context [?a <=? ?b] => destruct (Z.leb_spec a b)
             end; lia. }
  assert (Hat : forall i : nat,
            Z.of_nat i <= queued_count rb ->
            ((mod_read_pos rb + Z.of_nat i) mod MOD_BUFFER_SIZE
               = mod_write_pos rb <-> Z.of_nat i = queued_count rb)).
  { intros i Hi. unfold queued_count in *.
    rewrite wrap_diff in * by assumption.
    rewrite wrap_add by lia.
    destruct (Z.leb_spec (mod_read_pos rb) (mod_write_pos rb));
      destruct (Z.ltb_spec (mod_read_pos rb + Z.of_nat i) MOD_BUFFER_SIZE);
      lia. }
  apply list_eq. intros i.
  destruct (Z_lt_le_dec (Z.of_nat i) (queued_count rb)) as [Hlt | Hge].
  - rewrite lookup_app_l by (pose proof (queued_length rb); lia).
    rewrite !queued_lookup by (assumption || lia).
    rewrite Hwr. simpl. rewrite list_lookup_insert_ne; [reflexivity|].
    intros Heq. apply Z2Nat.inj in Heq;
      [|lia | apply Z.mod_pos_bound; lia].
    symmetry in Heq. apply (Hat i) in Heq; lia.
  - destruct (Z.eq_dec (Z.of_nat i) (queued_count rb)) as [Heq | Hne'].
    + rewrite queued_lookup by (assumption || lia).
      rewrite lookup_app_r by (pose proof (queued_length rb); lia).
      replace (i - length (queued rb))%nat with 0%nat
        by (pose proof (queued_length rb); lia).
      rewrite Hwr. simpl mod_ring_buffer. simpl mod_read_pos.
      rewrite (proj2 (Hat i ltac:(lia)) Heq).
      rewrite list_lookup_insert_eq by lia. reflexivity.
    + rewrite !lookup_ge_None_2; [reflexivity | |].
      * rewrite length_app. simpl. pose proof (queued_length rb). lia.
      * pose proof (queued_length (try_write s rb)). lia.
Qed.

Lemma try_read_empty (rb : ring) :
  ring_wf rb -> queued_count rb = 0 -> try_read rb = (None, rb).
Proof.
  intros (_ & Hw & Hr) Hc. unfold queued_count in Hc.
  rewrite wrap_diff in Hc by assumption.
  unfold try_read.
  destruct (Z.leb_spec (mod_read_pos rb) (mod_write_pos rb));
    [|lia].
  now rewrite (proj2 (Z.eqb_eq _ _)) by lia.
Qed.

Lemma try_read_queued (rb : ring) :
  ring_wf rb -> 0 < queued_count rb ->
  exists x : Z,
    queued rb = x :: queued (snd (try_read rb)) /\ fst (try_read rb) = Some x.
Proof.
  intros Hwf Hc. pose proof Hwf as (Hlen & Hw & Hr).
  pose proof (queued_count_range rb) as Hq.
  assert (Hne : mod_read_pos rb <> mod_write_pos rb).
  { intros Heq. unfold queued_count in Hc. rewrite Heq, Z.sub_diag in Hc.
    rewrite Z.mod_0_l in Hc by lia. lia. }
  assert (Hrd : try_read rb =
                (Some (default 0
                         (mod_ring_buffer rb !! Z.to_nat (mod_read_pos rb))),
                 Ring (mod_ring_buffer rb) (mod_write_pos rb)
                      ((mod_read_pos rb + 1) mod MOD_BUFFER_SIZE))).
  { unfold try_read. destruct (next_index _ Hr) as [-> _].
    now rewrite (proj2 (Z.eqb_neq _ _) Hne). }
  assert (Hc' : queued_count (snd (try_read rb)) = queued_count rb - 1).
  { rewrite Hrd. unfold queued_count in *. simpl.
    rewrite wrap_succ by assumption.
    rewrite wrap_diff in Hc by assumption.
    destruct (Z.eqb_spec (mod_read_pos rb + 1) MOD_BUFFER_SIZE) as [He | He];
      rewrite !wrap_diff by lia;
      repeat match goal with
             | |- context [?a <=? ?b] => destruct (Z.leb_spec a b)
             | H : context [?a <=? ?b] |- _ => destruct (Z.leb_spec a b)
             end; lia. }
  exists (default 0 (mod_ring_buffer rb !! Z.to_nat (mod_read_pos rb))).
  split; [|now rewrite Hrd].
  unfold queued at 1.
  replace (Z.to_nat (queued_count rb))
    with (S (Z.to_nat (queued_count (snd (try_read rb))))) by lia.
  simpl cells. f_equal. rewrite Hrd. reflexivity.
Qed.

Lemma write_all_queued (es : list Z) :
  forall rb : ring,
  ring_wf rb ->
  let rb' := fold_left (fun rb s => try_write s rb) es rb in
  ring_wf rb' /\
  queued rb' = take (Z.to_nat (MOD_BUFFER_SIZE - 1)) (queued rb ++ es).
Proof.
  induction es as [|s es IH]; intros rb Hwf; simpl.
  - split; [exact Hwf|]. rewrite app_nil_r, take_ge; [reflexivity|].
    pose proof (queued_length rb). pose proof (queued_count_range rb). lia.
  - destruct (IH (try_write s rb) (try_write_wf s rb Hwf)) as [Hwf' Hq].
    split; [exact Hwf'|]. rewrite Hq.
    pose proof (queued_length rb) as Hl.
    pose proof (queued_count_range rb) as Hr.
    destruct (Z_lt_le_dec (queued_count rb) (MOD_BUFFER_SIZE - 1))
      as [Hlt | Hge].
    + rewrite try_write_queued by assumption.
      now rewrite <- app_assoc.
    + rewrite try_write_full by (assumption || lia).
      rewrite !take_app_le by lia. reflexivity.
Qed.

Lemma write_to_ring_buffer_fold (samples : list Z) (rb : ring) :
  write_to_ring_buffer samples rb =
  fold_left (fun rb s => try_write s rb) (upsampled samples) rb.
Proof.
  unfold write_to_ring_buffer, upsampled. revert rb.
  induction samples as [|s samples IH]; intros rb; simpl; [reflexivity|].
  now rewrite IH.
Qed.

Lemma read_frames_queued (n : nat) :
  forall rb : ring,
  ring_wf rb ->
  fst (read_frames n rb) =
    (Some <$> take n (queued rb))
    ++ replicate (n - length (queued rb)) None /\
  queued (snd (read_frames n rb)) = drop n (queued rb) /\
  ring_wf (snd (read_frames n rb)).
Proof.
  induction n as [|n IH]; intros rb Hwf.
  - cbn [read_frames fst snd]. rewrite take_0, drop_0.
    split; [reflexivity|]. split; [reflexivity | exact Hwf].
  - cbn [read_frames fst snd].
    pose proof (queued_length rb) as Hl.
    pose proof (queued_count_range rb) as Hr.
    destruct (IH (snd (try_read rb)) (try_read_wf rb Hwf))
      as (Hout & Hrest & Hwf').
    destruct (Z.eq_dec (queued_count rb) 0) as [He | Hne].
    + rewrite (try_read_empty rb Hwf He) in *. simpl fst in *. simpl snd in *.
      assert (Hnil : queued rb = []).
      { destruct (queued rb); [reflexivity | simpl in Hl; lia]. }
      rewrite Hout, Hrest, Hnil. simpl.
      rewrite take_nil, drop_nil. simpl. rewrite Nat.sub_0_r.
      split; [reflexivity|]. split; [reflexivity | exact Hwf'].
    + destruct (try_read_queued rb Hwf ltac:(lia)) as (x & Hq & Hx).
      rewrite Hout, Hrest, Hx, Hq. simpl.
      split; [reflexivity|]. split; [reflexivity | exact Hwf'].
Qed.

Lemma write_to_ring_buffer_queued (samples : list Z) (rb : ring) :
  ring_wf rb ->
  queued (write_to_ring_buffer samples rb) =
    take (Z.to_nat (MOD_BUFFER_SIZE - 1)) (queued rb ++ upsampled samples).
Proof.
  intros Hwf. rewrite write_to_ring_buffer_fold.
  exact (proj2 (write_all_queued (upsampled samples) rb Hwf)).
Qed.

Lemma try_write_read_pos (s : Z) (rb : ring) :
  mod_read_pos (try_write s rb) = mod_read_pos rb.
Proof. unfold try_write. destruct (_ =? _); reflexivity. Qed.

Lemma write_to_ring_buffer_read_pos (samples : list Z) (rb : ring) :
  mod_read_pos (write_to_ring_buffer samples rb) = mod_read_pos rb.
Proof.
  unfold write_to_ring_buffer. revert rb.
  induction samples as [|x samples IH]; intros rb; simpl; [reflexivity|].
  now rewrite IH, !try_write_read_pos.
Qed.

Lemma queued_init : queued modplayer_init = [].
Proof. reflexivity. Qed.

Lemma take_take_app (k : nat) (a b : list Z) :
  take k (take k a ++ b) = take k (a ++ b).
Proof.
  destruct (Nat.le_gt_cases k (length a)) as [Hle | Hgt].
  - rewrite !take_app_le by (rewrite ?length_take; lia).
    apply take_idemp.
  - now rewrite (take_ge a) by lia.
Qed.

(** The ring buffer is a first-in first-out queue of at most
    [MOD_BUFFER_SIZE - 1] samples.  In every well-formed state: the number of
    waiting samples is below the capacity of the array; a producer write
    appends its sample to the queue when fewer than [MOD_BUFFER_SIZE - 1] wait
    and changes nothing otherwise; a consumer read hands out the oldest
    waiting sample and leaves the others in order, or hands out nothing, and
    changes nothing, when none waits. *)
Theorem ring_buffer_fifo (s : Z) (rb : ring) :
  ring_wf rb ->
  Z.of_nat (length (queued rb)) <= MOD_BUFFER_SIZE - 1 /\
  queued (try_write s rb) =
    (if Z.of_nat (length (queued rb)) <? MOD_BUFFER_SIZE - 1
     then queued rb ++ [s] else queued rb) /\
  fst (try_read rb) = head (queued rb) /\
  queued (snd (try_read rb)) = tail (queued rb) /\
  (queued rb = [] -> snd (try_read rb) = rb).
Proof.
  intros Hwf. pose proof (queued_length rb) as Hl.
  pose proof (queued_count_range rb) as Hr.
  split; [lia|]. split; [|].
  - rewrite Hl.
    destruct (Z.ltb_spec (queued_count rb) (MOD_BUFFER_SIZE - 1)).
    + now apply try_write_queued.
    + rewrite try_write_full by (assumption || lia). reflexivity.
  - destruct (Z.eq_dec (queued_count rb) 0) as [He | Hne].
    + assert (Hnil : queued rb = []).
      { destruct (queued rb); [reflexivity | simpl in Hl; lia]. }
      rewrite (try_read_empty rb Hwf He), Hnil. now repeat split.
    + destruct (try_read_queued rb Hwf ltac:(lia)) as (x & Hq & Hx).
      rewrite Hx, Hq. repeat split. discriminate.
Qed.

(** [write_to_ring_buffer] offers every scaled sample twice, in order; the
    buffer keeps, behind what was already waiting, as many of them as fit and
    drops all the rest, so that an odd free space splits a pair.  Nothing that
    was waiting is lost or reordered, and the read index is not moved. *)
Theorem write_to_ring_buffer_queue (samples : list Z) (rb : ring) :
  ring_wf rb ->
  queued (write_to_ring_buffer samples rb) =
    take (Z.to_nat (MOD_BUFFER_SIZE - 1)) (queued rb ++ upsampled samples) /\
  mod_read_pos (write_to_ring_buffer samples rb) = mod_read_pos rb.
Proof.
  intros Hwf. split.
  - now apply write_to_ring_buffer_queued.
  - apply write_to_ring_buffer_read_pos.
Qed.

(** What the consumer gets back from the producer.  After
    [write_to_ring_buffer] on the buffer [modplayer_init] sets up, [n] frames
    of the audio task read the scaled samples, each twice, in the order they
    were written, as far as they fitted into [MOD_BUFFER_SIZE - 1] cells; the
    frames after the last waiting sample get nothing. *)
Theorem ring_buffer_round_trip (samples : list Z) (n : nat) :
  let sent := take (Z.to_nat (MOD_BUFFER_SIZE - 1)) (upsampled samples) in
  fst (read_frames n (write_to_ring_buffer samples modplayer_init)) =
    (Some <$> take n sent) ++ replicate (n - length sent) None.
Proof.
  intros sent.
  pose proof modplayer_init_wf as Hwf0.
  pose proof (write_to_ring_buffer_wf samples _ Hwf0) as Hwf.
  destruct (read_frames_queued n _ Hwf) as (Hout & _).
  rewrite Hout. rewrite write_to_ring_buffer_fold.
  rewrite (proj2 (write_all_queued (upsampled samples) _ Hwf0)).
  rewrite queued_init. reflexivity.
Qed.

(** *** The volume scaling *)

Section Scale.

(** Of the rounding: it is monotone and every 16-bit integer is a [float]. *)
Hypothesis fl_mono : forall x y : Q, (x <= y)%Q -> (fl x <= fl y)%Q.
Hypothesis fl_int16 :
  forall z : Z, -32768 <= z <= 32767 -> (fl (inject_Z z) == inject_Z z)%Q.

Lemma truncate_range (q : Q) (lo hi : Z) :
  (inject_Z lo <= q)%Q -> (q <= inject_Z hi)%Q -> lo <= truncate q <= hi.
Proof.
  destruct q as [a b]. unfold Qle, truncate. simpl. intros Hlo Hhi. split.
  - apply Z.quot_le_lower_bound; lia.
  - apply Z.quot_le_upper_bound; lia.
Qed.

Lemma volume_scale_unit : (0 <= MOD_VOLUME_SCALE <= 1)%Q.
Proof.
  unfold MOD_VOLUME_SCALE.
  pose proof (fl_mono 0 (7 # 10) ltac:(unfold Qle; simpl; lia)) as H0.
  pose proof (fl_mono (7 # 10) 1 ltac:(unfold Qle; simpl; lia)) as H1.
  pose proof (fl_int16 0 ltac:(lia)) as E0.
  pose proof (fl_int16 1 ltac:(lia)) as E1.
  change (inject_Z 0) with 0%Q in E0. change (inject_Z 1) with 1%Q in E1.
  lra.
Qed.

(** The scaled sample has the sign of the sample and is no larger in
    magnitude, whatever the rounding: the conversion back to [int16_t] never
    overflows and the music is never made louder.  In exact arithmetic the
    scaled sample is [7 * sample / 10], the fraction discarded. *)
Theorem scale_range (sample : Z) :
  -32768 <= sample <= 32767 ->
  (0 <= sample -> 0 <= scale sample <= sample) /\
  (sample <= 0 -> sample <= scale sample <= 0) /\
  ((forall q : Q, fl q = q) -> scale sample = Z.quot (sample * 7) 10).
Proof.
  intros Hs. pose proof volume_scale_unit as Hc.
  pose proof (fl_int16 sample Hs) as Es.
  pose proof (fl_int16 0 ltac:(lia)) as E0.
  change (inject_Z 0) with 0%Q in E0.
  split; [|split].
  - intros Hpos. unfold scale.
    assert (H0 : (0 <= inject_Z sample)%Q)
      by (change 0%Q with (inject_Z 0); rewrite <- Zle_Qle; lia).
    pose proof (fl_mono 0 (inject_Z sample * MOD_VOLUME_SCALE) ltac:(nra)).
    pose proof (fl_mono (inject_Z sample * MOD_VOLUME_SCALE) (inject_Z sample)
                  ltac:(nra)).
    apply truncate_range; [change (inject_Z 0) with 0%Q|]; lra.
  - intros Hneg. unfold scale.
    assert (H0 : (inject_Z sample <= 0)%Q)
      by (change 0%Q with (inject_Z 0); rewrite <- Zle_Qle; lia).
    pose proof (fl_mono (inject_Z sample * MOD_VOLUME_SCALE) 0 ltac:(nra)).
    pose proof (fl_mono (inject_Z sample) (inject_Z sample * MOD_VOLUME_SCALE)
                  ltac:(nra)).
    apply truncate_range; [|change (inject_Z 0) with 0%Q]; lra.
  - intros Hexact. unfold scale, MOD_VOLUME_SCALE. rewrite !Hexact.
    unfold truncate. simpl. reflexivity.
Qed.

End Scale.

End Ring.

(** The contract at a buffer of four cells holding [7; 8; 9; 0] with the
    write index on the last cell and the read index on the first: the buffer is
    full. *)
Lemma ring_buffer_contract_witness :
  ring_wf 4 (Ring [7; 8; 9; 0] 3 0) /\
  try_write 4 5 (Ring [7; 8; 9; 0] 3 0) = Ring [7; 8; 9; 0] 3 0 /\
  try_read 4 (Ring [7; 8; 9; 0] 3 0) = (Some 7, Ring [7; 8; 9; 0] 3 1).
Proof.
  assert (Hsz : 0 < 4 < 2 ^ 32) by lia.
  assert (Hwf : ring_wf 4 (Ring [7; 8; 9; 0] 3 0))
    by (unfold ring_wf; simpl; lia).
  pose proof (ring_buffer_contract 4 Hsz 5 _ Hwf) as H.
  split; [exact Hwf|]. split.
  - apply (proj1 H). reflexivity.
  - reflexivity.
Defined.

(** The queue at a buffer of four cells with the read index on the last cell
    and the write index on the second: two samples wait, 0 and 7. *)
Lemma ring_buffer_fifo_witness :
  ring_wf 4 (Ring [7; 8; 9; 0] 1 3) /\
  queued 4 (Ring [7; 8; 9; 0] 1 3) = [0; 7] /\
  queued 4 (try_write 4 5 (Ring [7; 8; 9; 0] 1 3)) = [0; 7; 5] /\
  fst (try_read 4 (Ring [7; 8; 9; 0] 1 3)) = Some 0.
Proof.
  assert (Hsz : 0 < 4 < 2 ^ 32) by lia.
  assert (Hwf : ring_wf 4 (Ring [7; 8; 9; 0] 1 3))
    by (unfold ring_wf; simpl; lia).
  destruct (ring_buffer_fifo 4 Hsz 5 _ Hwf) as (_ & Hw & Hr & _).
  split; [exact Hwf|]. split; [reflexivity|]. split.
  - rewrite Hw. reflexivity.
  - rewrite Hr. reflexivity.
Defined.

(** Two samples written in exact arithmetic to an empty buffer of four cells:
    three of the four scaled values fit. *)
Lemma write_to_ring_buffer_queue_witness :
  ring_wf 4 (modplayer_init 4) /\
  queued 4 (write_to_ring_buffer 4 (fun q => q) [10; 20] (modplayer_init 4))
    = [7; 7; 14].
Proof.
  assert (Hsz : 0 < 4 < 2 ^ 32) by lia.
  pose proof (modplayer_init_wf 4 Hsz) as Hwf.
  split; [exact Hwf|].
  rewrite (proj1 (write_to_ring_buffer_queue 4 (fun q => q) Hsz [10; 20]
                    _ Hwf)).
  reflexivity.
Defined.

Lemma ring_buffer_round_trip_witness :
  0 < 4 < 2 ^ 32 /\
  fst (read_frames 4 5
         (write_to_ring_buffer 4 (fun q => q) [10; 20] (modplayer_init 4)))
    = [Some 7; Some 7; Some 14; None; None].
Proof.
  assert (Hsz : 0 < 4 < 2 ^ 32) by lia.
  split; [exact Hsz|].
  rewrite (ring_buffer_round_trip 4 (fun q => q) Hsz [10; 20] 5).
  reflexivity.
Defined.

Lemma scale_range_witness :
  -32768 <= -15 <= 32767 /\
  scale (fun q => q) (-15) = -10 /\ -15 <= scale (fun q => q) (-15) <= 0.
Proof.
  assert (Hs : -32768 <= -15 <= 32767) by lia.
  destruct (scale_range (fun q => q) (fun x y H => H)
              (fun z _ => Qeq_refl (inject_Z z)) (-15) Hs) as (_ & Hneg & He).
  split; [exact Hs|]. split.
  - rewrite (He (fun q => eq_refl)). reflexivity.
  - apply Hneg. lia.
Defined.

End RingBuffer.

(** ** The voice pool of the keyboard (application [main.c] with [update_adsr],
    [audio_task], [start_note], [stop_note]) *)

Module Keyboard.

Definition MAX_ACTIVE_NOTES : Z := 13.
Definition FRAMES_PER_WRITE : Z := 64.
Definition SAMPLE_RATE : Z := 44100.

(** [adsr_state_t] *)
Inductive adsr_state_t : Type :=
| ADSR_IDLE
| ADSR_ATTACK
| ADSR_DECAY
| ADSR_SUSTAIN
| ADSR_RELEASE.

(** [active_note_t]: [note_index] is -1 for a free slot, [adsr_timer] is a
    [uint32_t], the three [float] fields are rationals. *)
Record active_note_t : Type := ActiveNote {
  note_index : Z;
  playback_position : Q;
  playback_speed : Q;
  adsr_state : adsr_state_t;
  adsr_timer : Z;
  adsr_level : Q;
  key_held : bool
}.

Definition is_idle (note : active_note_t) : bool :=
  match adsr_state note with ADSR_IDLE => true | _ => false end.

(** Assignment to the three envelope fields of a slot. *)
Definition set_envelope (note : active_note_t)
    (st : adsr_state_t) (timer : Z) (level : Q) : active_note_t :=
  ActiveNote (note_index note) (playback_position note) (playback_speed note)
             st timer level (key_held note).

Definition set_position (note : active_note_t) (pos : Q) : active_note_t :=
  ActiveNote (note_index note) pos (playback_speed note)
             (adsr_state note) (adsr_timer note) (adsr_level note)
             (key_held note).

Definition set_key_held (note : active_note_t) (b : bool) : active_note_t :=
  ActiveNote (note_index note) (playback_position note) (playback_speed note)
             (adsr_state note) (adsr_timer note) (adsr_level note) b.

(** What [app_main] leaves in every slot: [memset] to zero, then
    [note_index = -1] and [adsr_state = ADSR_IDLE]. *)
Definition free_slot : active_note_t :=
  ActiveNote (-1) 0 0 ADSR_IDLE 0 0 false.

Definition initial_notes : list active_note_t :=
  replicate (Z.to_nat MAX_ACTIVE_NOTES) free_slot.

(** The events that change the pool: a key press, a key release, the body of
    the mixing loop for one slot, and the mixing loop over all slots for one
    output sample. *)
Inductive event : Type :=
| NoteOn (note : Z)
| NoteOff (note : Z)
| MixSlot (i : nat)
| MixSample.

(** The unit round-off of single precision, 2^-24. *)
Definition float_eps : R := (/ 16777216)%R.

(** The update of the gain as the specification words it: a target of
    [1 / sqrt(active_count)] with voices active and of 1 without, and in both
    cases one smoothing step towards the target with coefficient 0.01. *)
Definition spec_target_gain (active_count : Z) : R :=
  if 0 <? active_count then (1 / sqrt (IZR active_count))%R else 1%R.

Definition spec_gain_update (active_count : Z) (current_gain : R) : R :=
  (current_gain + 1 / 100 * (spec_target_gain active_count - current_gain))%R.

Section Voices.

(** [keyboard_notes.h] and [keyboard_waveform.h] are not part of the sources at
    hand; their constants are parameters.  The project notes give 13 notes,
    220, 4410 and 2205 samples for attack, decay and release, a sustain level
    of 0.7, a cycle of 169 samples and a base frequency of 261.63 Hz. *)
Variable NUM_NOTES : Z.
Variable ADSR_ATTACK_SAMPLES : Z.
Variable ADSR_DECAY_SAMPLES : Z.
Variable ADSR_RELEASE_SAMPLES : Z.
Variable ADSR_SUSTAIN_LEVEL : Q.
Variable WAVEFORM_CYCLE_LENGTH : Z.
Variable WAVEFORM_BASE_FREQ : Q.

(** [note_defs[i].frequency] *)
Variable note_frequency : Z -> Q.

(** Rounding of an exact result to [float]. *)
Variable fl : Q -> Q.

(** The same rounding on the reals, for the normalisation factor. *)
Variable round : R -> R.

(** [(float)note->adsr_timer / SAMPLES] *)
Definition progress (timer samples : Z) : Q :=
  fl (fl (inject_Z timer) / fl (inject_Z samples)).

(** [update_adsr] *)
Definition update_adsr (note : active_note_t) : active_note_t :=
  match adsr_state note with
  | ADSR_IDLE =>
      set_envelope note ADSR_IDLE (adsr_timer note) 0
  | ADSR_ATTACK =>
      let timer := u32 (adsr_timer note + 1) in
      if ADSR_ATTACK_SAMPLES <=? timer
      then set_envelope note ADSR_DECAY 0 1
      else set_envelope note ADSR_ATTACK timer
             (progress timer ADSR_ATTACK_SAMPLES)
  | ADSR_DECAY =>
      let timer := u32 (adsr_timer note + 1) in
      let decay_progress := progress timer ADSR_DECAY_SAMPLES in
      if ADSR_DECAY_SAMPLES <=? timer
      then set_envelope note ADSR_SUSTAIN timer ADSR_SUSTAIN_LEVEL
      else set_envelope note ADSR_DECAY timer
             (fl (1 - fl (fl (1 - ADSR_SUSTAIN_LEVEL) * decay_progress)))
  | ADSR_SUSTAIN =>
      if key_held note
      then set_envelope note ADSR_SUSTAIN (adsr_timer note) ADSR_SUSTAIN_LEVEL
      else set_envelope note ADSR_RELEASE 0 ADSR_SUSTAIN_LEVEL
  | ADSR_RELEASE =>
      let timer := u32 (adsr_timer note + 1) in
      let release_progress := progress timer ADSR_RELEASE_SAMPLES in
      if ADSR_RELEASE_SAMPLES <=? timer
      then ActiveNote (-1) (playback_position note) (playback_speed note)
             ADSR_IDLE timer 0 (key_held note)
      else set_envelope note ADSR_RELEASE timer
             (fl (ADSR_SUSTAIN_LEVEL * fl (1 - release_progress)))
  end.

(** The body of the mixing loop of [audio_task] for one slot: an idle slot is
    skipped, any other gets its envelope updated and its position advanced,
    the position being brought back below [WAVEFORM_CYCLE_LENGTH * 1000]. *)
Definition mix_slot (note : active_note_t) : active_note_t :=
  if is_idle note then note
  else
    let note1 := update_adsr note in
    let pos := fl (playback_position note1 + playback_speed note1) in
    let bound := fl (inject_Z (WAVEFORM_CYCLE_LENGTH * 1000)) in
    set_position note1 (if Qle_bool bound pos then fl (pos - bound) else pos).

(** [active_count] at the end of that loop. *)
Definition active_count (notes : list active_note_t) : Z :=
  fold_left (fun n note => if is_idle note then n else n + 1) notes 0.

(** The search loop of [start_note]; [slot] is -1 until a slot is chosen and
    the loop stops at the first slot that already plays [n]. *)
Fixpoint find_slot (n : Z) (notes : list active_note_t) (i slot : Z) : Z :=
  match notes with
  | [] => slot
  | note :: rest =>
      if note_index note =? n then i
      else find_slot n rest (i + 1)
             (if (slot =? -1) && is_idle note then i else slot)
  end.

(** [start_note] *)
Definition start_note (n : Z) (notes : list active_note_t)
  : list active_note_t :=
  if (n <? 0) || (NUM_NOTES <=? n) then notes
  else
    let slot := find_slot n notes 0 (-1) in
    if 0 <=? slot
    then <[Z.to_nat slot :=
             ActiveNote n 0 (fl (note_frequency n / WAVEFORM_BASE_FREQ))
                        ADSR_ATTACK 0 0 true]> notes
    else notes.

(** [stop_note] *)
Definition stop_note (n : Z) (notes : list active_note_t)
  : list active_note_t :=
  if (n <? 0) || (NUM_NOTES <=? n) then notes
  else map (fun note => if note_index note =? n
                        then set_key_held note false else note) notes.

(** The loudness normalisation at the end of one output sample of
    [audio_task]: with voices active the smoothed factor moves by [alpha]
    times its distance to [1.0f / sqrtf((float)active_count)], [alpha] being
    the float [0.01f]; without any voice it is reset to 1. *)
Definition normalization_alpha : R := round (1 / 100)%R.

Definition normalize (active_count : Z) (current_normalization : R) : R :=
  if 0 <? active_count
  then
    let target_normalization :=
      round (1 / round (sqrt (round (IZR active_count))))%R in
    round (current_normalization +
           round (normalization_alpha *
                  round (target_normalization - current_normalization)))%R
  else 1%R.

(** [current_normalization] after a history of active counts, one per output
    sample, starting from its initial value 1. *)
Definition normalization_after (counts : list Z) : R :=
  fold_left (fun g k => normalize k g) counts 1%R.

(** One output sample of [audio_task] on the pool and the normalisation
    factor (the mixed sample value itself is not modelled). *)
Definition audio_sample (st : list active_note_t * R)
  : list active_note_t * R :=
  (map mix_slot (fst st), normalize (active_count (fst st)) (snd st)).

Definition step (e : event) (notes : list active_note_t)
  : list active_note_t :=
  match e with
  | NoteOn n => start_note n notes
  | NoteOff n => stop_note n notes
  | MixSlot i =>
      match notes !! i with
      | Some note => <[i := mix_slot note]> notes
      | None => notes
      end
  | MixSample => map mix_slot notes
  end.

(** The pool after a sequence of events, starting from [app_main]'s pool. *)
Definition run (events : list event) : list active_note_t :=
  fold_left (fun notes e => step e notes) events initial_notes.

(** What the envelope invariant says of one slot. *)
Definition level_ok (note : active_note_t) : Prop :=
  (0 <= adsr_level note)%Q /\ (adsr_level note <= 1)%Q /\
  (adsr_state note = ADSR_IDLE -> adsr_level note = 0%Q).

(** A free slot is marked free, and a releasing slot is not held. *)
Definition slot_ok (note : active_note_t) : Prop :=
  (adsr_state note = ADSR_IDLE -> note_index note = -1) /\
  (adsr_state note = ADSR_RELEASE -> key_held note = false).

(** *** Properties of the envelope *)

Hypothesis fl_mono : forall x y : Q, (x <= y)%Q -> (fl x <= fl y)%Q.
Hypothesis fl_0 : (fl 0 == 0)%Q.
Hypothesis fl_1 : (fl 1 == 1)%Q.
Hypothesis sustain_range : (0 <= ADSR_SUSTAIN_LEVEL <= 1)%Q.
Hypothesis attack_pos : 0 < ADSR_ATTACK_SAMPLES.
Hypothesis decay_pos : 0 < ADSR_DECAY_SAMPLES.
Hypothesis release_range : 0 < ADSR_RELEASE_SAMPLES < 2 ^ 32.

Lemma fl_unit (x : Q) : (0 <= x <= 1)%Q -> (0 <= fl x <= 1)%Q.
Proof.
  intros [H0 H1]. pose proof (fl_mono _ _ H0). pose proof (fl_mono _ _ H1).
  lra.
Qed.

Lemma inject_Z_le (a b : Z) : a <= b -> (inject_Z a <= inject_Z b)%Q.
Proof. intros H. now rewrite <- Zle_Qle. Qed.

Lemma progress_unit (timer samples : Z) :
  0 <= timer <= samples -> 0 < samples ->
  (0 <= progress timer samples <= 1)%Q.
Proof.
  intros Ht Hs. unfold progress. apply fl_unit.
  assert (H0 : (0 <= fl (inject_Z timer))%Q).
  { pose proof (fl_mono _ _ (inject_Z_le 0 timer (proj1 Ht))) as H.
    change (inject_Z 0) with 0%Q in H. lra. }
  assert (H1 : (fl (inject_Z timer) <= fl (inject_Z samples))%Q)
    by (apply fl_mono, inject_Z_le; lia).
  assert (H2 : (0 < fl (inject_Z samples))%Q).
  { assert (H : 1 <= samples) by lia.
    pose proof (fl_mono _ _ (inject_Z_le 1 samples H)) as H'.
    change (inject_Z 1) with 1%Q in H'. lra. }
  split.
  - apply Qle_shift_div_l; [exact H2 | lra].
  - apply Qle_shift_div_r; [exact H2 | lra].
Qed.

Lemma update_adsr_level_ok (note : active_note_t) :
  level_ok (update_adsr note).
Proof.
  unfold update_adsr, level_ok.
  pose proof (u32_range (adsr_timer note + 1)) as Hu.
  destruct (adsr_state note) eqn:Hst; simpl.
  - repeat split; [lra | lra].
  - destruct (Z.leb_spec ADSR_ATTACK_SAMPLES (u32 (adsr_timer note + 1)));
      simpl.
    + repeat split; [lra | lra | discriminate].
    + pose proof (progress_unit (u32 (adsr_timer note + 1))
                    ADSR_ATTACK_SAMPLES ltac:(lia) attack_pos).
      repeat split; [lra | lra | discriminate].
  - destruct (Z.leb_spec ADSR_DECAY_SAMPLES (u32 (adsr_timer note + 1)));
      simpl.
    + repeat split; [lra | lra | discriminate].
    + pose proof (progress_unit (u32 (adsr_timer note + 1))
                    ADSR_DECAY_SAMPLES ltac:(lia) decay_pos) as Hp.
      assert (Hs : (0 <= fl (1 - ADSR_SUSTAIN_LEVEL) <= 1)%Q)
        by (apply fl_unit; lra).
      assert (Hm : (0 <= fl (fl (1 - ADSR_SUSTAIN_LEVEL) *
                             progress (u32 (adsr_timer note + 1))
                                      ADSR_DECAY_SAMPLES) <= 1)%Q)
        by (apply fl_unit; nra).
      assert (Hl : (0 <= fl (1 - fl (fl (1 - ADSR_SUSTAIN_LEVEL) *
                             progress (u32 (adsr_timer note + 1))
                                      ADSR_DECAY_SAMPLES)) <= 1)%Q)
        by (apply fl_unit; lra).
      repeat split; [lra | lra | discriminate].
  - destruct (key_held note); simpl;
      (repeat split; [lra | lra | discriminate]).
  - destruct (Z.leb_spec ADSR_RELEASE_SAMPLES (u32 (adsr_timer note + 1)));
      simpl.
    + repeat split; [lra | lra].
    + pose proof (progress_unit (u32 (adsr_timer note + 1))
                    ADSR_RELEASE_SAMPLES ltac:(lia) ltac:(lia)) as Hp.
      assert (Hs : (0 <= fl (1 - progress (u32 (adsr_timer note + 1))
                                          ADSR_RELEASE_SAMPLES) <= 1)%Q)
        by (apply fl_unit; lra).
      assert (Hl : (0 <= fl (ADSR_SUSTAIN_LEVEL *
                             fl (1 - progress (u32 (adsr_timer note + 1))
                                              ADSR_RELEASE_SAMPLES)) <= 1)%Q)
        by (apply fl_unit; nra).
      repeat split; [lra | lra | discriminate].
Qed.

Lemma mix_slot_level_ok (note : active_note_t) :
  level_ok note -> level_ok (mix_slot note).
Proof.
  intros H. unfold mix_slot. destruct (is_idle note); [exact H|].
  exact (update_adsr_level_ok note).
Qed.

Lemma update_adsr_slot_ok (note : active_note_t) :
  slot_ok note -> slot_ok (update_adsr note).
Proof.
  unfold slot_ok, update_adsr. intros [Hi Hr].
  destruct (adsr_state note) eqn:Hst; simpl.
  - split; [intros _; now apply Hi | discriminate].
  - destruct (_ <=? _); simpl; split; discriminate.
  - destruct (_ <=? _); simpl; split; discriminate.
  - destruct (key_held note) eqn:Hk; simpl; split;
      discriminate || (intros _; assumption).
  - destruct (_ <=? _); simpl; split; try discriminate; try reflexivity.
    intros _. now apply Hr.
Qed.

Lemma mix_slot_slot_ok (note : active_note_t) :
  slot_ok note -> slot_ok (mix_slot note).
Proof.
  intros H. unfold mix_slot. destruct (is_idle note); [exact H|].
  exact (update_adsr_slot_ok note H).
Qed.

(** *** Invariants of the pool *)

Section PoolInvariant.

Variable P : active_note_t -> Prop.
Hypothesis P_free : P free_slot.
Hypothesis P_start :
  forall n speed, P (ActiveNote n 0 speed ADSR_ATTACK 0 0 true).
Hypothesis P_release : forall note, P note -> P (set_key_held note false).
Hypothesis P_mix : forall note, P note -> P (mix_slot note).

Lemma start_note_Forall (n : Z) (notes : list active_note_t) :
  Forall P notes -> Forall P (start_note n notes).
Proof.
  intros H. unfold start_note.
  destruct (_ || _); [exact H|].
  destruct (0 <=? _); [|exact H].
  apply Forall_insert; [exact H | apply P_start].
Qed.

Lemma stop_note_Forall (n : Z) (notes : list active_note_t) :
  Forall P notes -> Forall P (stop_note n notes).
Proof.
  intros H. unfold stop_note.
  destruct (_ || _); [exact H|].
  induction H as [|note notes Hn _ IH]; simpl; constructor; [|exact IH].
  destruct (_ =? _); [now apply P_release | exact Hn].
Qed.

Lemma step_Forall (e : event) (notes : list active_note_t) :
  Forall P notes -> Forall P (step e notes).
Proof.
  intros H. destruct e as [n | n | i |]; simpl.
  - now apply start_note_Forall.
  - now apply stop_note_Forall.
  - destruct (notes !! i) as [note|] eqn:Hi; [|exact H].
    apply Forall_insert; [exact H|].
    apply P_mix. exact (proj1 (Forall_lookup P notes) H i note Hi).
  - induction H as [|note notes Hn _ IH]; simpl; constructor;
      [now apply P_mix | exact IH].
Qed.

Lemma run_Forall (events : list event) : Forall P (run events).
Proof.
  unfold run.
  assert (H0 : Forall P initial_notes) by (apply Forall_replicate, P_free).
  revert H0. generalize initial_notes.
  induction events as [|e events IH]; intros notes H; simpl; [exact H|].
  apply IH. now apply step_Forall.
Qed.

End PoolInvariant.

(** C4.  Envelope invariant.  In the pool reached from [app_main]'s all-idle
    pool by any sequence of key presses, key releases and envelope updates
    (slot by slot or a whole output sample at a time), every slot has an
    envelope level that is not negative and not above 1, and a slot in the idle
    state has level exactly 0. *)
Theorem envelope_invariant (events : list event) (i : nat) (note : active_note_t) :
  run events !! i = Some note ->
  (0 <= adsr_level note)%Q /\ (adsr_level note <= 1)%Q /\
  (adsr_state note = ADSR_IDLE -> adsr_level note = 0%Q).
Proof.
  intros Hi.
  assert (H : Forall level_ok (run events)).
  { apply run_Forall.
    - unfold level_ok, free_slot; simpl. repeat split; lra.
    - intros n speed. unfold level_ok; simpl. repeat split; lra.
    - intros [? ? ? ? ? ? ?] Hn. exact Hn.
    - exact mix_slot_level_ok. }
  exact (proj1 (Forall_lookup level_ok (run events)) H i note Hi).
Qed.

Lemma run_slot_ok (events : list event) : Forall slot_ok (run events).
Proof.
  apply run_Forall.
  - unfold slot_ok, free_slot; simpl. split; [reflexivity | discriminate].
  - intros n speed. unfold slot_ok; simpl. split; discriminate.
  - intros [? ? ? ? ? ? ?] Hn. unfold slot_ok in *; simpl in *.
    split; [apply Hn | reflexivity].
  - exact mix_slot_slot_ok.
Qed.

Lemma run_length (events : list event) :
  length (run events) = Z.to_nat MAX_ACTIVE_NOTES.
Proof.
  unfold run.
  assert (H : forall notes : list active_note_t,
            length (fold_left (fun notes e => step e notes) events notes)
            = length notes).
  { induction events as [|e events IH]; intros notes; simpl; [reflexivity|].
    rewrite IH. destruct e as [n | n | i |]; simpl.
    - unfold start_note. destruct (_ || _); [reflexivity|].
      destruct (0 <=? _); [apply length_insert | reflexivity].
    - unfold stop_note. destruct (_ || _); [reflexivity | apply length_map].
    - destruct (notes !! i); [apply length_insert | reflexivity].
    - apply length_map. }
  rewrite H. apply length_replicate.
Qed.

Lemma active_count_range (notes : list active_note_t) :
  0 <= active_count notes <= Z.of_nat (length notes).
Proof.
  unfold active_count.
  assert (H : forall n : Z,
            n <= fold_left (fun n note => if is_idle note then n else n + 1)
                           notes n
              <= n + Z.of_nat (length notes)).
  { induction notes as [|note notes IH]; intros n; simpl length; simpl fold_left;
      [lia|].
    destruct (is_idle note).
    - specialize (IH n). lia.
    - specialize (IH (n + 1)). lia. }
  specialize (H 0). lia.
Qed.

(** The number of active voices of a reachable pool never exceeds
    [MAX_ACTIVE_NOTES]. *)
Lemma run_active_count (events : list event) :
  0 <= active_count (run events) <= MAX_ACTIVE_NOTES.
Proof.
  pose proof (active_count_range (run events)) as H.
  rewrite run_length in H. unfold MAX_ACTIVE_NOTES in *. lia.
Qed.

(** *** Release *)

Lemma release_iter (note : active_note_t) (j : nat) :
  adsr_state note = ADSR_RELEASE -> adsr_timer note = 0 ->
  Z.of_nat j < ADSR_RELEASE_SAMPLES ->
  let v := Nat.iter j update_adsr note in
  adsr_state v = ADSR_RELEASE /\ adsr_timer v = Z.of_nat j /\
  note_index v = note_index note /\
  ((0 < j)%nat ->
   adsr_level v =
   fl (ADSR_SUSTAIN_LEVEL *
       fl (1 - progress (Z.of_nat j) ADSR_RELEASE_SAMPLES))).
Proof.
  intros Hst Ht. induction j as [|j IH]; intros Hj; simpl.
  - repeat split; try assumption. lia.
  - destruct IH as (Hs & Htj & Hn & _); [lia|].
    set (v := Nat.iter j update_adsr note) in *.
    unfold update_adsr. rewrite Hs, Htj.
    rewrite u32_small by lia.
    replace (Z.of_nat j + 1) with (Z.of_nat (S j)) by lia.
    rewrite (proj2 (Z.leb_gt _ _) Hj). simpl.
    repeat split; try assumption; reflexivity.
Qed.

Lemma stop_note_released (n : Z) (notes : list active_note_t)
    (i : nat) (note : active_note_t) :
  slot_ok note -> notes !! i = Some note ->
  adsr_state note = ADSR_IDLE \/ adsr_state note = ADSR_RELEASE ->
  stop_note n notes !! i = Some note.
Proof.
  intros [Hidle Hrel] Hi Hst. unfold stop_note.
  destruct (n <? 0) eqn:Hneg; simpl; [exact Hi|].
  destruct (NUM_NOTES <=? n); [exact Hi|].
  change (map ?f notes) with (f <$> notes).
  rewrite list_lookup_fmap, Hi. simpl.
  destruct (Z.eqb_spec (note_index note) n) as [Heq | Hne]; [|reflexivity].
  destruct Hst as [Hst | Hst].
  - apply Hidle in Hst. apply Z.ltb_ge in Hneg. lia.
  - apply Hrel in Hst. destruct note; simpl in *. now subst.
Qed.

Lemma stop_note_settled (n : Z) (notes : list active_note_t) :
  Forall slot_ok notes ->
  (forall (i : nat) (v : active_note_t),
     notes !! i = Some v -> note_index v = n ->
     adsr_state v = ADSR_IDLE \/ adsr_state v = ADSR_RELEASE) ->
  stop_note n notes = notes.
Proof.
  intros Hok Hn. apply list_eq. intros i.
  destruct (notes !! i) as [v|] eqn:Hi.
  - destruct (Z.eq_dec (note_index v) n) as [Heq | Hne].
    + apply stop_note_released; try assumption.
      * exact (proj1 (Forall_lookup slot_ok notes) Hok i v Hi).
      * now apply (Hn i v).
    + unfold stop_note. destruct (_ || _); [exact Hi|].
      change (map ?f notes) with (f <$> notes).
      rewrite list_lookup_fmap, Hi. simpl.
      now rewrite (proj2 (Z.eqb_neq _ _) Hne).
  - unfold stop_note. destruct (_ || _); [exact Hi|].
    change (map ?f notes) with (f <$> notes).
    now rewrite list_lookup_fmap, Hi.
Qed.

Lemma stop_note_idempotent (n : Z) (notes : list active_note_t) :
  stop_note n (stop_note n notes) = stop_note n notes.
Proof.
  unfold stop_note. destruct (_ || _); [reflexivity|].
  induction notes as [|note notes IH]; simpl; [reflexivity|].
  rewrite IH. f_equal.
  destruct (Z.eqb_spec (note_index note) n) as [Heq | Hne]; simpl.
  - now rewrite (proj2 (Z.eqb_eq _ _) Heq).
  - now rewrite (proj2 (Z.eqb_neq _ _) Hne).
Qed.

(** C3.  Release completion.  A slot in the sustain state whose key is no
    longer held enters the release state at its next envelope update, with
    timer 0 and the sustain level.  After [j] further updates, for
    [0 < j < ADSR_RELEASE_SAMPLES], it is still releasing, its timer is [j] and
    its level is the float value of [sustain * (1 - j / release_samples)],
    which in exact arithmetic is that linear ramp from the sustain level down
    to 0.  The update at which the timer reaches [ADSR_RELEASE_SAMPLES] makes
    the slot idle, its level 0 and its [note_index] -1, the mark of a free slot.
    In every pool reachable from the initial one, [stop_note] (for any note)
    leaves a slot that is idle or releasing exactly as it was; when every slot
    assigned to the note is idle or releasing (in particular when none is
    assigned to it) the whole pool is left as it was; and calling [stop_note]
    twice is the same as calling it once, on any pool. *)
Theorem release_completion (note : active_note_t) :
  adsr_state note = ADSR_SUSTAIN -> key_held note = false ->
  let entered := update_adsr note in
  (adsr_state entered = ADSR_RELEASE /\ adsr_timer entered = 0 /\
   adsr_level entered = ADSR_SUSTAIN_LEVEL) /\
  (forall j : nat, (0 < j)%nat -> Z.of_nat j < ADSR_RELEASE_SAMPLES ->
     let v := Nat.iter j update_adsr entered in
     adsr_state v = ADSR_RELEASE /\ adsr_timer v = Z.of_nat j /\
     note_index v = note_index note /\
     adsr_level v =
       fl (ADSR_SUSTAIN_LEVEL *
           fl (1 - progress (Z.of_nat j) ADSR_RELEASE_SAMPLES)) /\
     ((forall q, fl q = q) ->
      (adsr_level v ==
       ADSR_SUSTAIN_LEVEL *
       (1 - inject_Z (Z.of_nat j) / inject_Z ADSR_RELEASE_SAMPLES))%Q)) /\
  (let v := Nat.iter (Z.to_nat ADSR_RELEASE_SAMPLES) update_adsr entered in
   adsr_state v = ADSR_IDLE /\ adsr_level v = 0%Q /\ note_index v = -1) /\
  (forall (events : list event) (n : Z) (i : nat) (v : active_note_t),
     run events !! i = Some v ->
     adsr_state v = ADSR_IDLE \/ adsr_state v = ADSR_RELEASE ->
     stop_note n (run events) !! i = Some v) /\
  (forall (events : list event) (n : Z),
     (forall (i : nat) (v : active_note_t),
        run events !! i = Some v -> note_index v = n ->
        adsr_state v = ADSR_IDLE \/ adsr_state v = ADSR_RELEASE) ->
     stop_note n (run events) = run events) /\
  (forall (n : Z) (notes : list active_note_t),
     stop_note n (stop_note n notes) = stop_note n notes).
Proof.
  intros Hst Hk entered.
  assert (He : adsr_state entered = ADSR_RELEASE /\ adsr_timer entered = 0 /\
               adsr_level entered = ADSR_SUSTAIN_LEVEL /\
               note_index entered = note_index note).
  { unfold entered, update_adsr. rewrite Hst, Hk. simpl. now repeat split. }
  destruct He as (He1 & He2 & He3 & He4).
  split; [now repeat split|]. split; [|split; [|split; [|split]]].
  - intros j Hj0 Hj v.
    destruct (release_iter entered j He1 He2 Hj) as (Hs & Ht & Hn & Hl).
    fold v in Hs, Ht, Hn, Hl. specialize (Hl Hj0).
    repeat split; try assumption.
    + now rewrite Hn.
    + intros Hfl. rewrite Hl. unfold progress. rewrite !Hfl. reflexivity.
  - set (k := Z.to_nat ADSR_RELEASE_SAMPLES).
    assert (Hk1 : k = S (Nat.pred k)) by lia.
    rewrite Hk1. simpl.
    destruct (release_iter entered (Nat.pred k) He1 He2 ltac:(lia))
      as (Hs & Ht & _ & _).
    unfold update_adsr at 1 3 5. rewrite Hs, Ht.
    rewrite u32_small by lia.
    replace (Z.of_nat (Nat.pred k) + 1) with ADSR_RELEASE_SAMPLES by lia.
    rewrite Z.leb_refl. simpl. now repeat split.
  - intros events n i v Hi Hv.
    apply stop_note_released; try assumption.
    exact (proj1 (Forall_lookup slot_ok (run events))
                 (run_slot_ok events) i v Hi).
  - intros events n Hn.
    exact (stop_note_settled n (run events) (run_slot_ok events) Hn).
  - exact stop_note_idempotent.
Qed.

(** *** Starting and stopping notes *)

Lemma find_slot_match (n : Z) (notes : list active_note_t) :
  forall (i slot : Z) (k : nat) (v : active_note_t),
  notes !! k = Some v -> note_index v = n ->
  (forall (j : nat) (w : active_note_t),
     (j < k)%nat -> notes !! j = Some w -> note_index w <> n) ->
  find_slot n notes i slot = i + Z.of_nat k.
Proof.
  induction notes as [|note notes IH]; intros i slot k v Hk Hv Hfirst.
  - discriminate.
  - destruct k as [|k]; simpl in *.
    + injection Hk as ->. rewrite (proj2 (Z.eqb_eq _ _) Hv). lia.
    + assert (Hne : note_index note <> n)
        by (apply (Hfirst 0%nat note); [lia | reflexivity]).
      rewrite (proj2 (Z.eqb_neq _ _) Hne).
      rewrite (IH (i + 1) _ k v Hk Hv); [lia|].
      intros j w Hj Hw. apply (Hfirst (S j) w); [lia | exact Hw].
Qed.

Lemma find_slot_chosen (n : Z) (notes : list active_note_t) :
  forall (i slot : Z),
  (forall (j : nat) (w : active_note_t),
     notes !! j = Some w -> note_index w <> n) ->
  slot <> -1 -> find_slot n notes i slot = slot.
Proof.
  induction notes as [|note notes IH]; intros i slot Hno Hslot; simpl.
  - reflexivity.
  - assert (Hne : note_index note <> n) by (apply (Hno 0%nat note); reflexivity).
    rewrite (proj2 (Z.eqb_neq _ _) Hne).
    rewrite (proj2 (Z.eqb_neq _ _) Hslot). simpl.
    apply IH; [|exact Hslot].
    intros j w Hw. apply (Hno (S j) w). exact Hw.
Qed.

Lemma is_idle_true (note : active_note_t) :
  is_idle note = true <-> adsr_state note = ADSR_IDLE.
Proof. unfold is_idle. destruct (adsr_state note); split; congruence. Qed.

Lemma find_slot_idle (n : Z) (notes : list active_note_t) :
  forall (i : Z) (k : nat) (v : active_note_t),
  0 <= i ->
  (forall (j : nat) (w : active_note_t),
     notes !! j = Some w -> note_index w <> n) ->
  notes !! k = Some v -> adsr_state v = ADSR_IDLE ->
  (forall (j : nat) (w : active_note_t),
     (j < k)%nat -> notes !! j = Some w -> adsr_state w <> ADSR_IDLE) ->
  find_slot n notes i (-1) = i + Z.of_nat k.
Proof.
  induction notes as [|note notes IH]; intros i k v Hi Hno Hk Hv Hfirst.
  - discriminate.
  - assert (Hne : note_index note <> n) by (apply (Hno 0%nat note); reflexivity).
    assert (Hno' : forall (j : nat) (w : active_note_t),
               notes !! j = Some w -> note_index w <> n)
      by (intros j w Hw; apply (Hno (S j) w); exact Hw).
    simpl. rewrite (proj2 (Z.eqb_neq _ _) Hne). simpl.
    destruct k as [|k]; simpl in *.
    + injection Hk as ->. rewrite (proj2 (is_idle_true v) Hv).
      rewrite find_slot_chosen; [lia | exact Hno' | lia].
    + assert (Hbusy : is_idle note = false).
      { destruct (is_idle note) eqn:Hidle; [|reflexivity].
        apply is_idle_true in Hidle.
        exfalso. apply (Hfirst 0%nat note); [lia | reflexivity | exact Hidle]. }
      rewrite Hbusy.
      rewrite (IH (i + 1) k v); try assumption; try lia.
      intros j w Hj Hw. apply (Hfirst (S j) w); [lia | exact Hw].
Qed.

Lemma find_slot_full (n : Z) (notes : list active_note_t) :
  forall (i : Z),
  (forall (j : nat) (w : active_note_t),
     notes !! j = Some w -> note_index w <> n) ->
  (forall (j : nat) (w : active_note_t),
     notes !! j = Some w -> adsr_state w <> ADSR_IDLE) ->
  find_slot n notes i (-1) = -1.
Proof.
  induction notes as [|note notes IH]; intros i Hno Hbusy; simpl.
  - reflexivity.
  - assert (Hne : note_index note <> n) by (apply (Hno 0%nat note); reflexivity).
    rewrite (proj2 (Z.eqb_neq _ _) Hne). simpl.
    assert (Hb : is_idle note = false).
    { destruct (is_idle note) eqn:Hidle; [|reflexivity].
      apply is_idle_true in Hidle.
      exfalso. apply (Hbusy 0%nat note); [reflexivity | exact Hidle]. }
    rewrite Hb. apply IH.
    + intros j w Hw. apply (Hno (S j) w). exact Hw.
    + intros j w Hw. apply (Hbusy (S j) w). exact Hw.
Qed.

Lemma valid_note (n : Z) :
  0 <= n < NUM_NOTES -> (n <? 0) || (NUM_NOTES <=? n) = false.
Proof.
  intros [H0 H1]. rewrite (proj2 (Z.ltb_ge _ _) H0).
  now rewrite (proj2 (Z.leb_gt _ _) H1).
Qed.

Lemma start_note_at (n : Z) (notes : list active_note_t) (k : nat) :
  0 <= n < NUM_NOTES -> (k < length notes)%nat ->
  find_slot n notes 0 (-1) = Z.of_nat k ->
  start_note n notes !! k =
    Some (ActiveNote n 0 (fl (note_frequency n / WAVEFORM_BASE_FREQ))
                     ADSR_ATTACK 0 0 true) /\
  (forall j : nat, j <> k -> start_note n notes !! j = notes !! j).
Proof.
  intros Hn Hk Hslot. unfold start_note.
  rewrite (valid_note n Hn), Hslot.
  rewrite (proj2 (Z.leb_le _ _) (Nat2Z.is_nonneg k)), Nat2Z.id.
  split.
  - now apply list_lookup_insert_eq.
  - intros j Hj. apply list_lookup_insert_ne. congruence.
Qed.

(** C5.  Voice start contract.  For a valid note number, [start_note] selects
    the first slot already assigned to that note if there is one (even when an
    idle slot comes earlier); otherwise the first idle slot in pool order; and
    when there is neither, the pool is returned unchanged.  The selected slot
    gets the note number, position 0, speed equal to the note's frequency
    divided by the base frequency of the waveform, the attack state, timer 0,
    level 0 and [key_held] true; every other slot keeps its contents. *)
Theorem start_note_contract (n : Z) (notes : list active_note_t) :
  0 <= n < NUM_NOTES ->
  let started :=
    ActiveNote n 0 (fl (note_frequency n / WAVEFORM_BASE_FREQ))
               ADSR_ATTACK 0 0 true in
  (forall (k : nat) (v : active_note_t),
     notes !! k = Some v -> note_index v = n ->
     (forall (j : nat) (w : active_note_t),
        (j < k)%nat -> notes !! j = Some w -> note_index w <> n) ->
     start_note n notes !! k = Some started /\
     (forall j : nat, j <> k -> start_note n notes !! j = notes !! j)) /\
  ((forall (j : nat) (w : active_note_t),
      notes !! j = Some w -> note_index w <> n) ->
   (forall (k : nat) (v : active_note_t),
      notes !! k = Some v -> adsr_state v = ADSR_IDLE ->
      (forall (j : nat) (w : active_note_t),
         (j < k)%nat -> notes !! j = Some w -> adsr_state w <> ADSR_IDLE) ->
      start_note n notes !! k = Some started /\
      (forall j : nat, j <> k -> start_note n notes !! j = notes !! j)) /\
   ((forall (j : nat) (w : active_note_t),
       notes !! j = Some w -> adsr_state w <> ADSR_IDLE) ->
    start_note n notes = notes)).
Proof.
  intros Hn started. split; [|intros Hno; split].
  - intros k v Hk Hv Hfirst.
    apply start_note_at; [exact Hn | exact (lookup_lt_Some _ _ _ Hk) |].
    now rewrite (find_slot_match n notes 0 (-1) k v Hk Hv Hfirst).
  - intros k v Hk Hv Hfirst.
    apply start_note_at; [exact Hn | exact (lookup_lt_Some _ _ _ Hk) |].
    now rewrite (find_slot_idle n notes 0 k v ltac:(lia) Hno Hk Hv Hfirst).
  - intros Hbusy. unfold start_note.
    rewrite (valid_note n Hn), (find_slot_full n notes 0 Hno Hbusy).
    reflexivity.
Qed.

(** C10.  A note number outside the valid range, below 0 or at least
    [NUM_NOTES], makes both [start_note] and [stop_note] return the pool as it
    was: no field of any slot changes. *)
Theorem invalid_note_noop (n : Z) (notes : list active_note_t) :
  n < 0 \/ NUM_NOTES <= n ->
  start_note n notes = notes /\ stop_note n notes = notes.
Proof.
  intros Hn. unfold start_note, stop_note.
  assert (H : (n <? 0) || (NUM_NOTES <=? n) = true).
  { destruct Hn as [Hn | Hn].
    - now rewrite (proj2 (Z.ltb_lt _ _) Hn).
    - rewrite (proj2 (Z.leb_le _ _) Hn). apply orb_true_r. }
  rewrite H. split; reflexivity.
Qed.

(** *** Loudness normalisation *)

Section Normalization.

Local Open Scope R_scope.

Hypothesis round_error :
  forall x : R, Rabs (round x - x) <= float_eps * Rabs x.
Hypothesis round_mono : forall x y : R, x <= y -> round x <= round y.
Hypothesis round_1 : round 1 = 1.

Lemma float_eps_range : 0 < float_eps <= 1 / 1000000.
Proof. unfold float_eps. lra. Qed.

Lemma round_0 : round 0 = 0.
Proof.
  pose proof (round_error 0) as H. rewrite Rabs_R0, Rmult_0_r in H.
  pose proof (Rabs_pos (round 0 - 0)) as H'.
  assert (H0 : Rabs (round 0 - 0) = 0) by lra.
  destruct (Req_dec (round 0 - 0) 0) as [He | Hne]; [lra|].
  apply Rabs_no_R0 in Hne. contradiction.
Qed.

Lemma Rabs_bounds (a b : R) : Rabs a <= b -> - b <= a <= b.
Proof.
  intros H. pose proof (Rle_abs a) as H1. pose proof (Rle_abs (- a)) as H2.
  rewrite Rabs_Ropp in H2. lra.
Qed.

Lemma round_pos (x : R) :
  0 <= x -> x * (1 - float_eps) <= round x <= x * (1 + float_eps).
Proof.
  intros Hx. pose proof (round_error x) as H.
  rewrite (Rabs_pos_eq x Hx) in H.
  apply Rabs_bounds in H. lra.
Qed.

Lemma round_within (x b : R) :
  Rabs x <= b -> Rabs (round x - x) <= float_eps * b.
Proof.
  intros Hx. pose proof (round_error x) as H.
  pose proof float_eps_range. nra.
Qed.

Lemma round_abs (x b : R) :
  Rabs x <= b -> Rabs (round x) <= (1 + float_eps) * b.
Proof.
  intros Hx. pose proof (round_within x b Hx) as H.
  replace (round x) with ((round x - x) + x) by ring.
  eapply Rle_trans; [apply Rabs_triang|]. lra.
Qed.

Lemma sqrt_between (x a b : R) :
  0 <= a -> 0 <= b -> a * a <= x <= b * b -> a <= sqrt x <= b.
Proof.
  intros Ha Hb [H1 H2]. split.
  - rewrite <- (sqrt_square a Ha). apply sqrt_le_1_alt. exact H1.
  - rewrite <- (sqrt_square b Hb). apply sqrt_le_1_alt. exact H2.
Qed.

(** The float target lies between 0 and 1 and within five units of
    round-off of [1 / sqrt k]. *)
Lemma target_float (k : Z) :
  (1 <= k)%Z ->
  let t := 1 / sqrt (IZR k) in
  let T := round (1 / round (sqrt (round (IZR k)))) in
  0 < t <= 1 /\ 0 <= T <= 1 /\ Rabs (T - t) <= 5 * float_eps * t.
Proof.
  intros Hk t T. pose proof float_eps_range as He.
  pose proof round_pos as round_pos'. revert He round_pos'.
  generalize float_eps. intros e He round_pos'.
  assert (Hk1 : 1 <= IZR k) by (now apply IZR_le).
  set (s := sqrt (IZR k)) in *.
  assert (Hs1 : 1 <= s).
  { unfold s. rewrite <- sqrt_1. now apply sqrt_le_1_alt. }
  assert (Hss : s * s = IZR k) by (apply sqrt_sqrt; lra).
  assert (Ht : 0 < t <= 1).
  { unfold t. split.
    - apply Rdiv_lt_0_compat; lra.
    - apply (Rmult_le_reg_r s); [lra|].
      unfold Rdiv. rewrite Rmult_assoc, Rinv_l by lra. lra. }
  assert (Hts : t * s = 1).
  { unfold t, Rdiv. rewrite Rmult_assoc, Rinv_l by lra. lra. }
  (* round k *)
  pose proof (round_pos' (IZR k) ltac:(lra)) as Hx1.
  pose proof (round_mono 1 (IZR k) Hk1) as Hx1'. rewrite round_1 in Hx1'.
  set (x1 := round (IZR k)) in *.
  (* sqrt *)
  assert (Hy : s * (1 - e) <= sqrt x1 <= s * (1 + e)).
  { apply sqrt_between.
    - apply Rmult_le_pos; lra.
    - apply Rmult_le_pos; lra.
    - replace (s * (1 - e) * (s * (1 - e))) with (IZR k * ((1 - e) * (1 - e)))
        by (rewrite <- Hss; ring).
      replace (s * (1 + e) * (s * (1 + e))) with (IZR k * ((1 + e) * (1 + e)))
        by (rewrite <- Hss; ring).
      assert (H1 : (1 - e) * (1 - e) <= 1 - e) by nra.
      assert (H2 : 1 + e <= (1 + e) * (1 + e)) by nra.
      split.
      + apply Rle_trans with (IZR k * (1 - e)); [|lra].
        apply Rmult_le_compat_l; lra.
      + apply Rle_trans with (IZR k * (1 + e)); [lra|].
        apply Rmult_le_compat_l; lra. }
  assert (Hy1 : 1 <= sqrt x1).
  { rewrite <- sqrt_1. now apply sqrt_le_1_alt. }
  set (y := sqrt x1) in *.
  pose proof (round_pos' y ltac:(lra)) as Hx2.
  pose proof (round_mono 1 y Hy1) as Hx2'. rewrite round_1 in Hx2'.
  set (x2 := round y) in *.
  (* reciprocal *)
  assert (Hz : 0 < 1 / x2 <= 1).
  { split.
    - apply Rdiv_lt_0_compat; lra.
    - apply (Rmult_le_reg_r x2); [lra|].
      unfold Rdiv. rewrite Rmult_assoc, Rinv_l by lra. lra. }
  assert (Hzx : (1 / x2) * x2 = 1).
  { unfold Rdiv. rewrite Rmult_assoc, Rinv_l by lra. lra. }
  set (z := 1 / x2) in *.
  pose proof (round_pos' z ltac:(lra)) as HT.
  pose proof (round_mono z 1 (proj2 Hz)) as HT'. rewrite round_1 in HT'.
  fold T in HT, HT'.
  assert (Hee : 0 <= e * e) by (apply Rmult_le_pos; lra).
  split; [exact Ht|]. split; [split; [|exact HT']|].
  { apply Rle_trans with (z * (1 - e)); [apply Rmult_le_pos; lra | lra]. }
  clear round_pos'.
  assert (Hx2l : s * ((1 - e) * (1 - e)) <= x2).
  { apply Rle_trans with (y * (1 - e)); [|lra].
    rewrite <- Rmult_assoc. apply Rmult_le_compat_r; lra. }
  assert (Hx2u : x2 <= s * ((1 + e) * (1 + e))).
  { apply Rle_trans with (y * (1 + e)); [lra|].
    rewrite <- Rmult_assoc. apply Rmult_le_compat_r; lra. }
  assert (Hzl : t * (1 - 3 * e) <= z).
  { apply (Rmult_le_reg_r x2); [lra|]. rewrite Hzx.
    assert (A : t * (1 - 3 * e) * x2
                <= t * (1 - 3 * e) * (s * ((1 + e) * (1 + e)))).
    { apply Rmult_le_compat_l; [apply Rmult_le_pos; lra | exact Hx2u]. }
    assert (B : t * (1 - 3 * e) * (s * ((1 + e) * (1 + e)))
                = (1 - 3 * e) * ((1 + e) * (1 + e))).
    { replace (t * (1 - 3 * e) * (s * ((1 + e) * (1 + e))))
        with ((t * s) * ((1 - 3 * e) * ((1 + e) * (1 + e)))) by ring.
      rewrite Hts. ring. }
    assert (C : (1 - 3 * e) * ((1 + e) * (1 + e)) <= 1).
    { replace ((1 - 3 * e) * ((1 + e) * (1 + e)))
        with (1 - e * (1 + 5 * e + 3 * (e * e))) by ring.
      assert (0 <= e * (1 + 5 * e + 3 * (e * e)))
        by (apply Rmult_le_pos; lra).
      lra. }
    lra. }
  assert (Hzu : z <= t * (1 + 3 * e)).
  { apply (Rmult_le_reg_r x2); [lra|]. rewrite Hzx.
    assert (A : t * (1 + 3 * e) * (s * ((1 - e) * (1 - e)))
                <= t * (1 + 3 * e) * x2).
    { apply Rmult_le_compat_l; [apply Rmult_le_pos; lra | exact Hx2l]. }
    assert (B : t * (1 + 3 * e) * (s * ((1 - e) * (1 - e)))
                = (1 + 3 * e) * ((1 - e) * (1 - e))).
    { replace (t * (1 + 3 * e) * (s * ((1 - e) * (1 - e))))
        with ((t * s) * ((1 + 3 * e) * ((1 - e) * (1 - e)))) by ring.
      rewrite Hts. ring. }
    assert (C : 1 <= (1 + 3 * e) * ((1 - e) * (1 - e))).
    { replace ((1 + 3 * e) * ((1 - e) * (1 - e)))
        with (1 + e * (1 - 5 * e + 3 * (e * e))) by ring.
      assert (0 <= e * (1 - 5 * e + 3 * (e * e)))
        by (apply Rmult_le_pos; lra).
      lra. }
    lra. }
  apply Rabs_le.
  assert (D1 : t * (1 - 3 * e) * (1 - e) <= z * (1 - e))
    by (apply Rmult_le_compat_r; lra).
  assert (D2 : z * (1 + e) <= t * (1 + 3 * e) * (1 + e))
    by (apply Rmult_le_compat_r; lra).
  assert (D3 : t * (1 - 5 * e) <= t * (1 - 3 * e) * (1 - e)).
  { rewrite Rmult_assoc. apply Rmult_le_compat_l; [lra|].
    replace ((1 - 3 * e) * (1 - e)) with (1 - 4 * e + 3 * (e * e)) by ring.
    lra. }
  assert (D4 : t * (1 + 3 * e) * (1 + e) <= t * (1 + 5 * e)).
  { rewrite Rmult_assoc. apply Rmult_le_compat_l; [lra|].
    replace ((1 + 3 * e) * (1 + e)) with (1 + 4 * e + 3 * (e * e)) by ring.
    assert (e * e <= e * (1 / 3)) by (apply Rmult_le_compat_l; lra).
    lra. }
  lra.
Qed.

Lemma Rabs_mult_le (a b x y : R) :
  Rabs a <= x -> Rabs b <= y -> Rabs (a * b) <= x * y.
Proof.
  intros Ha Hb. rewrite Rabs_mult.
  apply Rmult_le_compat; try apply Rabs_pos; assumption.
Qed.

(** The increment [round (alpha * round d)] is within five hundredths of a
    unit of round-off of [d / 100]. *)
Lemma increment_error (d : R) :
  Rabs (round (normalization_alpha * round d) - d / 100)
    <= 5 / 100 * (float_eps * Rabs d).
Proof.
  pose proof float_eps_range as He.
  pose proof (Rabs_pos d) as HE.
  assert (HeE : 0 <= float_eps * Rabs d <= Rabs d / 1000000).
  { split; [apply Rmult_le_pos; lra|].
    apply Rle_trans with (1 / 1000000 * Rabs d); [|lra].
    apply Rmult_le_compat_r; lra. }
  pose proof (round_error d) as H1.
  assert (H1' : Rabs (round d) <= 2 * Rabs d).
  { replace (round d) with ((round d - d) + d) by ring.
    eapply Rle_trans; [apply Rabs_triang|]. lra. }
  assert (Ha : Rabs (normalization_alpha - 1 / 100) <= float_eps * (1 / 100)).
  { unfold normalization_alpha.
    pose proof (round_error (1 / 100)) as H.
    rewrite (Rabs_pos_eq (1 / 100)) in H by lra. exact H. }
  set (a := normalization_alpha) in *. set (r1 := round d) in *.
  assert (Hp : Rabs (a * r1 - d / 100) <= 3 / 100 * (float_eps * Rabs d)).
  { replace (a * r1 - d / 100)
      with ((a - 1 / 100) * r1 + (r1 - d) * (1 / 100)) by field.
    eapply Rle_trans; [apply Rabs_triang|].
    pose proof (Rabs_mult_le _ _ _ _ Ha H1') as A.
    pose proof (Rabs_mult_le (r1 - d) (1 / 100) _ (1 / 100) H1) as B.
    rewrite (Rabs_pos_eq (1 / 100)) in B by lra.
    specialize (B ltac:(lra)). lra. }
  assert (Hp' : Rabs (a * r1) <= 2 / 100 * Rabs d).
  { replace (a * r1) with ((a * r1 - d / 100) + d * (1 / 100)) by field.
    eapply Rle_trans; [apply Rabs_triang|].
    rewrite (Rabs_mult d), (Rabs_pos_eq (1 / 100)) by lra. lra. }
  pose proof (round_error (a * r1)) as H2.
  assert (H2' : float_eps * Rabs (a * r1) <= 2 / 100 * (float_eps * Rabs d)).
  { rewrite <- Rmult_assoc, (Rmult_comm (2 / 100)), Rmult_assoc.
    apply Rmult_le_compat_l; lra. }
  replace (round (a * r1) - d / 100)
    with ((round (a * r1) - a * r1) + (a * r1 - d / 100)) by ring.
  eapply Rle_trans; [apply Rabs_triang|]. lra.
Qed.

Lemma normalize_active (k : Z) (g : R) :
  (1 <= k)%Z ->
  normalize k g =
  round (g + round (normalization_alpha *
                    round (round (1 / round (sqrt (round (IZR k)))) - g))).
Proof.
  intros Hk. unfold normalize.
  now rewrite (proj2 (Z.ltb_lt 0 k)) by lia.
Qed.

Lemma normalize_silent (k : Z) (g : R) : (k <= 0)%Z -> normalize k g = 1.
Proof.
  intros Hk. unfold normalize.
  now rewrite (proj2 (Z.ltb_ge 0 k)) by lia.
Qed.

(** One smoothing step contracts the distance to the float target. *)
Lemma normalize_contracts (k : Z) (g : R) :
  (1 <= k)%Z ->
  let T := round (1 / round (sqrt (round (IZR k)))) in
  Rabs (normalize k g - T) <= 9901 / 10000 * Rabs (g - T) + float_eps.
Proof.
  intros Hk T. rewrite normalize_active by exact Hk. fold T.
  destruct (target_float k Hk) as (_ & HT & _). fold T in HT.
  pose proof float_eps_range as He.
  pose proof (increment_error (T - g)) as Hinc.
  rewrite (Rabs_minus_sym T g) in Hinc.
  pose proof (Rabs_pos (g - T)) as HE.
  assert (HeE : 0 <= float_eps * Rabs (g - T) <= Rabs (g - T) / 1000000).
  { split; [apply Rmult_le_pos; lra|].
    apply Rle_trans with (1 / 1000000 * Rabs (g - T)); [|lra].
    apply Rmult_le_compat_r; lra. }
  set (r2 := round (normalization_alpha * round (T - g))) in *.
  assert (Hs : Rabs (g + r2 - T)
               <= 99 / 100 * Rabs (g - T)
                  + 5 / 100 * (float_eps * Rabs (g - T))).
  { replace (g + r2 - T)
      with ((g - T) * (99 / 100) + (r2 - (T - g) / 100)) by field.
    eapply Rle_trans; [apply Rabs_triang|].
    rewrite (Rabs_mult (g - T)), (Rabs_pos_eq (99 / 100)) by lra. lra. }
  assert (Hs' : Rabs (g + r2) <= 1 + Rabs (g - T)).
  { replace (g + r2) with ((g + r2 - T) + T) by ring.
    eapply Rle_trans; [apply Rabs_triang|].
    rewrite (Rabs_pos_eq T) by lra. lra. }
  pose proof (round_error (g + r2)) as Hr.
  assert (Hr' : float_eps * Rabs (g + r2)
                <= float_eps + float_eps * Rabs (g - T)).
  { replace (float_eps + float_eps * Rabs (g - T))
      with (float_eps * (1 + Rabs (g - T))) by ring.
    apply Rmult_le_compat_l; lra. }
  replace (round (g + r2) - T)
    with ((round (g + r2) - (g + r2)) + (g + r2 - T)) by ring.
  eapply Rle_trans; [apply Rabs_triang|]. lra.
Qed.

(** The factor stays between 0 and 1. *)
Lemma normalize_range (k : Z) (g : R) :
  0 <= g <= 1 -> 0 <= normalize k g <= 1.
Proof.
  intros Hg. destruct (Z_lt_le_dec 0 k) as [Hk | Hk];
    [|rewrite normalize_silent by exact Hk; lra].
  rewrite normalize_active by lia.
  destruct (target_float k ltac:(lia)) as (_ & HT & _).
  set (T := round (1 / round (sqrt (round (IZR k))))) in *.
  pose proof float_eps_range as He.
  pose proof (increment_error (T - g)) as Hinc.
  set (r2 := round (normalization_alpha * round (T - g))) in *.
  apply Rabs_bounds in Hinc.
  assert (Hs : 0 <= g + r2 <= 1).
  { destruct (Rle_dec 0 (T - g)) as [Hd | Hd].
    - rewrite (Rabs_pos_eq _ Hd) in Hinc.
      assert (0 <= float_eps * (T - g) <= 1 / 1000000 * (T - g)).
      { split; [apply Rmult_le_pos; lra|].
        apply Rmult_le_compat_r; lra. }
      lra.
    - rewrite (Rabs_left1 (T - g)) in Hinc by lra.
      assert (0 <= float_eps * - (T - g) <= 1 / 1000000 * - (T - g)).
      { split; [apply Rmult_le_pos; lra|].
        apply Rmult_le_compat_r; lra. }
      lra. }
  pose proof (round_mono _ _ (proj1 Hs)) as H0.
  pose proof (round_mono _ _ (proj2 Hs)) as H1.
  rewrite round_0 in H0. rewrite round_1 in H1. lra.
Qed.

Lemma normalization_after_range (counts : list Z) :
  0 <= normalization_after counts <= 1.
Proof.
  unfold normalization_after.
  assert (H : forall g, 0 <= g <= 1 ->
              0 <= fold_left (fun g k => normalize k g) counts g <= 1).
  { induction counts as [|k counts IH]; intros g Hg; simpl; [exact Hg|].
    apply IH. now apply normalize_range. }
  apply H. lra.
Qed.

Lemma normalize_iter_error (k : Z) (g : R) (n : nat) :
  (1 <= k)%Z ->
  let T := round (1 / round (sqrt (round (IZR k)))) in
  Rabs (Nat.iter n (normalize k) g - T)
    <= (9901 / 10000) ^ n * Rabs (g - T) + 10000 / 99 * float_eps.
Proof.
  intros Hk T. pose proof float_eps_range as He.
  induction n as [|n IH]; simpl.
  - lra.
  - pose proof (normalize_contracts k (Nat.iter n (normalize k) g) Hk) as Hc.
    cbv zeta in Hc. fold T in Hc.
    set (x := Rabs (Nat.iter n (normalize k) g - T)) in *.
    set (y := (9901 / 10000) ^ n * Rabs (g - T)) in *.
    replace (9901 / 10000 * (9901 / 10000) ^ n * Rabs (g - T))
      with (9901 / 10000 * y) by (unfold y; ring).
    lra.
Qed.

Lemma pow_10_le (a b : R) : 0 <= a <= b -> a ^ 10 <= b ^ 10.
Proof. intros H. now apply pow_incr. Qed.

Lemma smoothing_1000 : (9901 / 10000) ^ 1000 <= 1 / 800.
Proof.
  assert (H10 : 0 <= (9901 / 10000) ^ 10 <= 9054 / 10000).
  { split; [apply pow_le; lra | lra]. }
  assert (H100 : 0 <= (9901 / 10000) ^ 100 <= 371 / 1000).
  { split; [apply pow_le; lra|].
    change 100%nat with (10 * 10)%nat. rewrite pow_mult.
    apply Rle_trans with ((9054 / 10000) ^ 10); [now apply pow_10_le | lra]. }
  change 1000%nat with (100 * 10)%nat. rewrite pow_mult.
  apply Rle_trans with ((371 / 1000) ^ 10); [now apply pow_10_le | lra].
Qed.

Lemma smoothing_decreases (n m : nat) :
  (m <= n)%nat -> (9901 / 10000) ^ n <= (9901 / 10000) ^ m.
Proof.
  intros H. replace n with (m + (n - m))%nat by lia.
  rewrite pow_add.
  assert (H0 : 0 <= (9901 / 10000) ^ m) by (apply pow_le; lra).
  assert (H1 : (9901 / 10000) ^ (n - m) <= 1).
  { generalize (n - m)%nat. intros j. induction j as [|j IH]; simpl; [lra|].
    assert (0 <= (9901 / 10000) ^ j) by (apply pow_le; lra). nra. }
  nra.
Qed.

Lemma smoothing_late (n : nat) :
  (1000 <= n)%nat -> 0 <= (9901 / 10000) ^ n <= 1 / 800.
Proof.
  intros Hn. split; [apply pow_le; lra|].
  exact (Rle_trans _ _ _ (smoothing_decreases n 1000 Hn) smoothing_1000).
Qed.

Lemma normalization_after_replicate (n : nat) (k : Z) :
  normalization_after (replicate n k) = Nat.iter n (normalize k) 1.
Proof.
  unfold normalization_after.
  assert (H : forall g : R,
            fold_left (fun g k => normalize k g) (replicate n k) g
            = Nat.iter n (normalize k) g).
  { induction n as [|n IH]; intros g; [reflexivity|].
    simpl fold_left. rewrite IH. symmetry. apply Nat.iter_succ_r. }
  apply H.
Qed.

(** C2 (as the code has it).  With [k] voices active, [1 <= k <= 13], one
    output sample replaces the normalisation factor [g] by the float value of
    [g + alpha * (target - g)], where [alpha] is the float 0.01 and [target]
    the float value of [1 / sqrt k]; in exact arithmetic this is
    [g + 0.01 * (1 / sqrt k - g)].  With no voice active the factor is not
    smoothed but reset to 1 at once.  Starting from the factor left by any
    history of active counts, [n >= 1000] consecutive samples with the same
    [k] bring the factor within 1% of [1 / sqrt k]; this holds for every
    rounding that is monotone, exact at 1 and of relative error at most
    2^-24, exact arithmetic included. *)
Theorem normalization_smoothing (history : list Z) (k : Z) (n : nat) :
  (1 <= k <= MAX_ACTIVE_NOTES)%Z -> (1000 <= n)%nat ->
  let target := 1 / sqrt (IZR k) in
  (forall g : R,
     normalize k g =
     round (g + round (normalization_alpha *
                       round (round (1 / round (sqrt (round (IZR k)))) - g))))
  /\
  ((forall x : R, round x = x) ->
   forall g : R, normalize k g = g + 1 / 100 * (target - g)) /\
  (forall g : R, normalize 0 g = 1) /\
  Rabs (Nat.iter n (normalize k) (normalization_after history) - target)
    <= target / 100.
Proof.
  intros Hk Hn target. split; [|split; [|split]].
  { intros g. apply normalize_active. lia. }
  { intros Hexact g. rewrite normalize_active by lia.
    unfold normalization_alpha, target. rewrite !Hexact. reflexivity. }
  { intros g. apply normalize_silent. lia. }
  unfold target. clear target.
  destruct (target_float k ltac:(lia)) as (Ht & HT & HTt).
  pose proof (normalize_iter_error k (normalization_after history) n
                ltac:(lia)) as Hit.
  cbv zeta in Hit.
  set (T := round (1 / round (sqrt (round (IZR k))))) in *.
  set (t := 1 / sqrt (IZR k)) in *.
  assert (Hl : 1 / 4 <= t).
  { unfold t.
    assert (H1 : 1 <= sqrt (IZR k)).
    { rewrite <- sqrt_1. apply sqrt_le_1_alt. apply IZR_le. lia. }
    assert (H4 : sqrt (IZR k) <= 4).
    { replace 4 with (sqrt (4 * 4)) by (apply sqrt_square; lra).
      apply sqrt_le_1_alt.
      apply Rle_trans with (IZR MAX_ACTIVE_NOTES); [apply IZR_le; lia|].
      unfold MAX_ACTIVE_NOTES. lra. }
    apply (Rmult_le_reg_r (sqrt (IZR k))); [lra|].
    unfold Rdiv at 2. rewrite Rmult_assoc, Rinv_l by lra. lra. }
  pose proof (normalization_after_range history) as Hg.
  pose proof float_eps_range as He.
  pose proof (smoothing_late n Hn) as Hp.
  revert Hit Hp. generalize ((9901 / 10000) ^ n). intros p Hit Hp.
  assert (Ha : Rabs (normalization_after history - T) <= 1)
    by (apply Rabs_le; lra).
  pose proof (Rabs_pos (normalization_after history - T)) as Hpos.
  assert (Hprod : p * Rabs (normalization_after history - T) <= 1 / 800).
  { apply Rle_trans with (p * 1); [apply Rmult_le_compat_l; lra | lra]. }
  assert (HeT : float_eps * t <= float_eps).
  { rewrite <- (Rmult_1_r float_eps) at 2. apply Rmult_le_compat_l; lra. }
  replace (Nat.iter n (normalize k) (normalization_after history) - t)
    with ((Nat.iter n (normalize k) (normalization_after history) - T)
          + (T - t)) by ring.
  eapply Rle_trans; [apply Rabs_triang|]. lra.
Qed.

End Normalization.

(** *** One slot per note *)

(** A free slot carries no note; a busy slot carries a valid one. *)
Definition slot_valid (note : active_note_t) : Prop :=
  (adsr_state note = ADSR_IDLE -> note_index note = -1) /\
  (adsr_state note <> ADSR_IDLE -> 0 <= note_index note < NUM_NOTES).

(** No two slots carry the same note. *)
Definition distinct_notes (notes : list active_note_t) : Prop :=
  forall (i j : nat) (vi vj : active_note_t),
    notes !! i = Some vi -> notes !! j = Some vj ->
    note_index vi = note_index vj -> 0 <= note_index vi -> i = j.

(** What the search loop of [start_note] returns. *)
Lemma find_slot_spec (n : Z) (notes : list active_note_t) :
  forall (i slot : Z),
  0 <= i ->
  (exists (k : nat) (v : active_note_t),
     notes !! k = Some v /\ note_index v = n /\
     find_slot n notes i slot = i + Z.of_nat k) \/
  ((forall (j : nat) (w : active_note_t),
      notes !! j = Some w -> note_index w <> n) /\
   ((find_slot n notes i slot = slot /\
     (slot = -1 ->
      forall (j : nat) (w : active_note_t),
        notes !! j = Some w -> adsr_state w <> ADSR_IDLE)) \/
    (slot = -1 /\
     exists (k : nat) (v : active_note_t),
       notes !! k = Some v /\ adsr_state v = ADSR_IDLE /\
       find_slot n notes i slot = i + Z.of_nat k))).
Proof.
  induction notes as [|note rest IH]; intros i slot Hi; simpl.
  - right. split; [intros j w Hj; discriminate|].
    left. split; [reflexivity|]. intros _ j w Hj. discriminate.
  - destruct (Z.eqb_spec (note_index note) n) as [Heq | Hne].
    + left. exists 0%nat, note. split; [reflexivity|].
      split; [exact Heq | lia].
    + set (slot' := if (slot =? -1) && is_idle note then i else slot).
      destruct (IH (i + 1) slot' ltac:(lia))
        as [(k & v & Hk & Hv & Hr) | (Hno & Hrest)].
      * left. exists (S k), v. split; [exact Hk|]. split; [exact Hv | lia].
      * right. split.
        { intros [|j] w Hj; simpl in Hj;
            [injection Hj as <-; exact Hne | exact (Hno j w Hj)]. }
        destruct (Z.eqb_spec slot (-1)) as [Hslot | Hslot];
          destruct (is_idle note) eqn:Hidle; simpl in slot'; subst slot'.
        -- right. split; [exact Hslot|].
           apply is_idle_true in Hidle.
           destruct Hrest as [[Hr _] | [Hi' _]]; [|lia].
           exists 0%nat, note. split; [reflexivity|].
           split; [exact Hidle | lia].
        -- destruct Hrest as [[Hr Hbusy] | [_ (k & v & Hk & Hv & Hr)]].
           ++ left. split; [exact Hr|]. intros _ [|j] w Hj; simpl in Hj.
              ** injection Hj as <-. intros Hst.
                 apply is_idle_true in Hst. congruence.
              ** exact (Hbusy Hslot j w Hj).
           ++ right. split; [exact Hslot|].
              exists (S k), v. split; [exact Hk|]. split; [exact Hv | lia].
        -- destruct Hrest as [[Hr _] | [Hs _]]; [|contradiction].
           left. split; [exact Hr|]. intros Hs. contradiction.
        -- destruct Hrest as [[Hr _] | [Hs _]]; [|contradiction].
           left. split; [exact Hr|]. intros Hs. contradiction.
Qed.

Lemma update_adsr_index (note : active_note_t) :
  (note_index (update_adsr note) = note_index note /\
   (adsr_state note <> ADSR_IDLE -> adsr_state (update_adsr note) <> ADSR_IDLE))
  \/ (note_index (update_adsr note) = -1 /\
      adsr_state (update_adsr note) = ADSR_IDLE).
Proof.
  unfold update_adsr. destruct (adsr_state note) eqn:Hst; simpl.
  - left. split; [reflexivity|]. intros H. contradiction.
  - left. destruct (_ <=? _); simpl; split; try reflexivity; discriminate.
  - left. destruct (_ <=? _); simpl; split; try reflexivity; discriminate.
  - left. destruct (key_held note); simpl; split;
      try reflexivity; discriminate.
  - destruct (_ <=? _); simpl; [right | left]; split;
      try reflexivity; discriminate.
Qed.

Lemma mix_slot_index (note : active_note_t) :
  (note_index (mix_slot note) = note_index note /\
   (adsr_state note <> ADSR_IDLE -> adsr_state (mix_slot note) <> ADSR_IDLE)
   /\ (adsr_state note = ADSR_IDLE -> adsr_state (mix_slot note) = ADSR_IDLE))
  \/ (note_index (mix_slot note) = -1 /\
      adsr_state (mix_slot note) = ADSR_IDLE).
Proof.
  unfold mix_slot. destruct (is_idle note) eqn:Hidle.
  - left. split; [reflexivity|]. split; intros H; exact H.
  - assert (Hbusy : adsr_state note <> ADSR_IDLE).
    { intros H. apply is_idle_true in H. congruence. }
    destruct (update_adsr_index note) as [[Hi Hs] | [Hi Hs]]; [left | right].
    + split; [exact Hi|]. split; [exact Hs|]. intros H. contradiction.
    + split; assumption.
Qed.

Lemma mix_slot_valid (note : active_note_t) :
  slot_valid note -> slot_valid (mix_slot note).
Proof.
  intros [Hidle Hbusy]. unfold slot_valid.
  destruct (mix_slot_index note) as [(Hi & Hs & Hs') | [Hi Hs]].
  - rewrite Hi. split.
    + intros Hst. apply Hidle.
      destruct (adsr_state note) eqn:E; try reflexivity;
        exfalso; apply Hs; try discriminate; exact Hst.
    + intros Hst. apply Hbusy. intros E. apply Hst, Hs'. exact E.
  - rewrite Hi, Hs. split; [reflexivity|]. intros H. contradiction.
Qed.

(** A change that leaves every slot's note as it was or frees the slot keeps
    the notes distinct. *)
Lemma distinct_notes_shrink (notes notes' : list active_note_t) :
  (forall (i : nat) (v' : active_note_t),
     notes' !! i = Some v' ->
     exists v : active_note_t,
       notes !! i = Some v /\
       (note_index v' = note_index v \/ note_index v' = -1)) ->
  distinct_notes notes -> distinct_notes notes'.
Proof.
  intros Hsame Hd i j vi vj Hi Hj Heq Hpos.
  destruct (Hsame i vi Hi) as (wi & Hwi & Ei).
  destruct (Hsame j vj Hj) as (wj & Hwj & Ej).
  apply (Hd i j wi wj Hwi Hwj); lia.
Qed.

Lemma start_note_pool (n : Z) (notes : list active_note_t) :
  Forall slot_valid notes -> distinct_notes notes ->
  Forall slot_valid (start_note n notes) /\
  distinct_notes (start_note n notes).
Proof.
  intros Hv Hd. unfold start_note.
  destruct ((n <? 0) || (NUM_NOTES <=? n)) eqn:Hguard; [now split|].
  apply orb_false_iff in Hguard. destruct Hguard as [H0 H1].
  apply Z.ltb_ge in H0. apply Z.leb_gt in H1.
  destruct (Z.leb_spec 0 (find_slot n notes 0 (-1))) as [Hslot | Hslot];
    [|now split].
  set (started := ActiveNote n 0 (fl (note_frequency n / WAVEFORM_BASE_FREQ))
                             ADSR_ATTACK 0 0 true).
  split.
  - apply Forall_insert; [exact Hv|].
    unfold slot_valid, started. simpl. split; [discriminate|].
    intros _. lia.
  - assert (Hother : forall (j : nat) (w : active_note_t),
              notes !! j = Some w -> note_index w = n ->
              j = Z.to_nat (find_slot n notes 0 (-1))).
    { intros j w Hj Hw.
      destruct (find_slot_spec n notes 0 (-1) ltac:(lia))
        as [(k & v & Hk & Hv' & Hr) | (Hno & _)].
      - rewrite Hr. replace (Z.to_nat (0 + Z.of_nat k)) with k by lia.
        apply (Hd j k w v Hj Hk); lia.
      - exfalso. exact (Hno j w Hj Hw). }
    intros i j vi vj Hi Hj Heq Hpos.
    apply list_lookup_insert_Some in Hi, Hj.
    destruct Hi as [(Ei & Evi & _) | (Ei & Hi)];
      destruct Hj as [(Ej & Evj & _) | (Ej & Hj)].
    + congruence.
    + subst vi. simpl in Heq. rewrite (Hother j vj Hj); [lia | congruence].
    + subst vj. simpl in Heq. rewrite (Hother i vi Hi); [lia | congruence].
    + exact (Hd i j vi vj Hi Hj Heq Hpos).
Qed.

Lemma stop_note_pool (n : Z) (notes : list active_note_t) :
  Forall slot_valid notes -> distinct_notes notes ->
  Forall slot_valid (stop_note n notes) /\ distinct_notes (stop_note n notes).
Proof.
  intros Hv Hd. unfold stop_note.
  destruct (_ || _); [now split|]. split.
  - clear Hd. induction Hv as [|note notes Hn _ IH]; simpl; constructor;
      [|exact IH].
    destruct (_ =? _); [|exact Hn]. destruct note; exact Hn.
  - apply (distinct_notes_shrink notes); [|exact Hd].
    intros i v' Hi. change (map ?f notes) with (f <$> notes) in Hi.
    rewrite list_lookup_fmap in Hi.
    destruct (notes !! i) as [v|]; [|discriminate].
    injection Hi as <-. exists v. split; [reflexivity|]. left.
    destruct (_ =? _); [destruct v|]; reflexivity.
Qed.

Lemma step_pool (e : event) (notes : list active_note_t) :
  Forall slot_valid notes -> distinct_notes notes ->
  Forall slot_valid (step e notes) /\ distinct_notes (step e notes).
Proof.
  intros Hv Hd. destruct e as [n | n | i |]; simpl.
  - now apply start_note_pool.
  - now apply stop_note_pool.
  - destruct (notes !! i) as [note|] eqn:Hi; [|now split]. split.
    + apply Forall_insert; [exact Hv|]. apply mix_slot_valid.
      exact (Forall_lookup_1 _ _ _ _ Hv Hi).
    + apply (distinct_notes_shrink notes); [|exact Hd].
      intros j v' Hj. apply list_lookup_insert_Some in Hj.
      destruct Hj as [(<- & <- & _) | (_ & Hj)].
      * exists note. split; [exact Hi|].
        destruct (mix_slot_index note) as [(E & _) | (E & _)];
          [left | right]; exact E.
      * exists v'. split; [exact Hj | now left].
  - split.
    + clear Hd. induction Hv as [|note notes Hn _ IH]; simpl; constructor;
        [now apply mix_slot_valid | exact IH].
    + apply (distinct_notes_shrink notes); [|exact Hd].
      intros j v' Hj. change (map ?f notes) with (f <$> notes) in Hj.
      rewrite list_lookup_fmap in Hj.
      destruct (notes !! j) as [v|]; [|discriminate].
      injection Hj as <-. exists v. split; [reflexivity|].
      destruct (mix_slot_index v) as [(E & _) | (E & _)];
        [left | right]; exact E.
Qed.

Lemma run_pool (events : list event) :
  Forall slot_valid (run events) /\ distinct_notes (run events).
Proof.
  unfold run.
  assert (H0 : Forall slot_valid initial_notes /\ distinct_notes initial_notes).
  { split.
    - apply Forall_replicate. unfold slot_valid, free_slot. simpl.
      split; [reflexivity|]. intros H. contradiction.
    - intros i j vi vj Hi Hj _ Hpos. unfold initial_notes in Hi.
      apply lookup_replicate in Hi. destruct Hi as [-> _].
      simpl in Hpos. lia. }
  revert H0. generalize initial_notes.
  induction events as [|e events IH]; intros notes H; simpl; [exact H|].
  apply IH. destruct H as [Hv Hd]. now apply step_pool.
Qed.

(** One slot per note.  In every pool reached from [app_main]'s all-idle
    pool by key presses, key releases and envelope updates, a slot is idle
    exactly when its [note_index] is -1, a busy slot carries a valid note
    number, and no two slots carry the same note: pressing a key whose note
    still sounds takes over its slot and never starts a second voice. *)
Theorem one_slot_per_note (events : list event) :
  (forall (i : nat) (v : active_note_t),
     run events !! i = Some v ->
     (adsr_state v = ADSR_IDLE <-> note_index v = -1) /\
     (adsr_state v <> ADSR_IDLE -> 0 <= note_index v < NUM_NOTES)) /\
  (forall (i j : nat) (vi vj : active_note_t),
     run events !! i = Some vi -> run events !! j = Some vj ->
     note_index vi = note_index vj -> note_index vi <> -1 -> i = j).
Proof.
  destruct (run_pool events) as [Hv Hd]. split.
  - intros i v Hi.
    destruct (Forall_lookup_1 _ _ _ _ Hv Hi) as [Hidle Hbusy].
    split; [|exact Hbusy]. split; [exact Hidle|].
    intros Hfree. destruct (adsr_state v) eqn:E; try reflexivity;
      assert (0 <= note_index v < NUM_NOTES) by (apply Hbusy; discriminate);
      lia.
  - intros i j vi vj Hi Hj Heq Hne.
    destruct (Forall_lookup_1 _ _ _ _ Hv Hi) as [Hidle Hbusy].
    apply (Hd i j vi vj Hi Hj Heq).
    assert (Hst : adsr_state vi <> ADSR_IDLE)
      by (intros E; apply Hne, Hidle, E).
    specialize (Hbusy Hst). lia.
Qed.

(** No key press is dropped.  When there are no more notes than slots
    ([NUM_NOTES <= MAX_ACTIVE_NOTES]; both are 13), [start_note] with a valid
    note finds a slot in every reachable pool: the pool is never full of
    other notes, so the case in which [start_note] gives up does not occur.
    The slot gets the started note and every other slot is left alone. *)
Theorem key_press_never_dropped (events : list event) (n : Z) :
  NUM_NOTES <= MAX_ACTIVE_NOTES -> 0 <= n < NUM_NOTES ->
  exists k : nat,
    (k < Z.to_nat MAX_ACTIVE_NOTES)%nat /\
    find_slot n (run events) 0 (-1) = Z.of_nat k /\
    start_note n (run events) !! k =
      Some (ActiveNote n 0 (fl (note_frequency n / WAVEFORM_BASE_FREQ))
                       ADSR_ATTACK 0 0 true) /\
    (forall j : nat, j <> k ->
       start_note n (run events) !! j = run events !! j).
Proof.
  intros Hnum Hn. destruct (run_pool events) as [Hv Hd].
  pose proof (run_length events) as Hlen.
  assert (Hfound : exists k : nat,
            (k < length (run events))%nat /\
            find_slot n (run events) 0 (-1) = Z.of_nat k).
  { destruct (find_slot_spec n (run events) 0 (-1) ltac:(lia))
      as [(k & v & Hk & _ & Hr) | (Hno & [[Hr Hbusy] | (_ & k & v & Hk & _ & Hr)])].
    - exists k. split; [exact (lookup_lt_Some _ _ _ Hk) | lia].
    - exfalso. specialize (Hbusy eq_refl).
      set (l := note_index <$> run events).
      assert (Hin : forall x : Z, x ∈ n :: l -> x ∈ seqZ 0 NUM_NOTES).
      { intros x Hx. apply elem_of_seqZ. apply elem_of_cons in Hx.
        destruct Hx as [-> | Hx]; [lia|].
        apply list_elem_of_fmap in Hx. destruct Hx as (w & -> & Hw).
        apply list_elem_of_lookup in Hw. destruct Hw as [j Hj].
        destruct (Forall_lookup_1 _ _ _ _ Hv Hj) as [_ Hvalid].
        specialize (Hvalid (Hbusy j w Hj)). lia. }
      assert (Hnodup : NoDup (n :: l)).
      { apply NoDup_cons. split.
        - intros Hx. apply list_elem_of_fmap in Hx.
          destruct Hx as (w & Hw & Hw').
          apply list_elem_of_lookup in Hw'. destruct Hw' as [j Hj].
          exact (Hno j w Hj (eq_sym Hw)).
        - apply NoDup_alt. intros i j x Hi Hj. unfold l in Hi, Hj.
          rewrite list_lookup_fmap in Hi, Hj.
          destruct (run events !! i) as [vi|] eqn:Hvi; [|discriminate].
          destruct (run events !! j) as [vj|] eqn:Hvj; [|discriminate].
          simpl in Hi, Hj. injection Hi as Hi. injection Hj as Hj.
          apply (Hd i j vi vj Hvi Hvj); [congruence|].
          destruct (Forall_lookup_1 _ _ _ _ Hv Hvi) as [_ Hvalid].
          specialize (Hvalid (Hbusy i vi Hvi)). lia. }
      pose proof (submseteq_length _ _ (NoDup_submseteq _ _ Hnodup Hin))
        as Hcount.
      rewrite length_seqZ in Hcount. simpl in Hcount.
      unfold l in Hcount. rewrite length_fmap, Hlen in Hcount.
      unfold MAX_ACTIVE_NOTES in *. lia.
    - exists k. split; [exact (lookup_lt_Some _ _ _ Hk) | lia]. }
  destruct Hfound as (k & Hk & Hslot).
  exists k. split; [lia|]. split; [exact Hslot|].
  exact (start_note_at n (run events) k Hn Hk Hslot).
Qed.

(** *** The course of the envelope *)

Section Course.

Hypothesis attack_range : ADSR_ATTACK_SAMPLES < 2 ^ 32.
Hypothesis decay_range : ADSR_DECAY_SAMPLES < 2 ^ 32.

(** A phase that counts its timer up to [N]: [j] updates after its start it
    is at timer [j], and the update at which the timer reaches [N] leaves
    it. *)
Lemma ramp_iter (mk : Z -> Q -> active_note_t) (lev : Z -> Q) (N : Z) :
  (forall (t : Z) (l : Q), 0 <= t -> t + 1 < N ->
     update_adsr (mk t l) = mk (t + 1) (lev (t + 1))) ->
  forall (j : nat) (l : Q), 0 < Z.of_nat j < N ->
  Nat.iter j update_adsr (mk 0 l) = mk (Z.of_nat j) (lev (Z.of_nat j)).
Proof.
  intros Hstep j l. induction j as [|j IH]; intros Hj; [lia|].
  simpl Nat.iter. destruct j as [|j].
  - simpl Nat.iter. rewrite Hstep by lia. reflexivity.
  - rewrite IH by lia. rewrite Hstep by lia.
    replace (Z.of_nat (S j) + 1) with (Z.of_nat (S (S j))) by lia.
    reflexivity.
Qed.

Lemma ramp_done (mk : Z -> Q -> active_note_t) (lev : Z -> Q) (N : Z)
    (done : active_note_t) :
  (forall (t : Z) (l : Q), 0 <= t -> t + 1 < N ->
     update_adsr (mk t l) = mk (t + 1) (lev (t + 1))) ->
  (forall (t : Z) (l : Q), 0 <= t -> t + 1 = N ->
     update_adsr (mk t l) = done) ->
  0 < N ->
  forall l : Q, Nat.iter (Z.to_nat N) update_adsr (mk 0 l) = done.
Proof.
  intros Hstep Hdone HN l.
  replace (Z.to_nat N) with (S (Z.to_nat (N - 1))) by lia.
  simpl Nat.iter. destruct (Z.eq_dec N 1) as [-> | Hne].
  - simpl Nat.iter. now apply Hdone.
  - rewrite (ramp_iter mk lev N Hstep) by lia. apply Hdone; lia.
Qed.

Lemma attack_step (i : Z) (p s : Q) (h : bool) (t : Z) (l : Q) :
  0 <= t -> t + 1 < ADSR_ATTACK_SAMPLES ->
  update_adsr (ActiveNote i p s ADSR_ATTACK t l h) =
  ActiveNote i p s ADSR_ATTACK (t + 1) (progress (t + 1) ADSR_ATTACK_SAMPLES) h.
Proof.
  intros Ht Hlt. unfold update_adsr. simpl.
  rewrite u32_small by lia. now rewrite (proj2 (Z.leb_gt _ _) Hlt).
Qed.

Lemma attack_done (i : Z) (p s : Q) (h : bool) (t : Z) (l : Q) :
  0 <= t -> t + 1 = ADSR_ATTACK_SAMPLES ->
  update_adsr (ActiveNote i p s ADSR_ATTACK t l h) =
  ActiveNote i p s ADSR_DECAY 0 1 h.
Proof.
  intros Ht Heq. unfold update_adsr. simpl.
  rewrite u32_small by lia. now rewrite (proj2 (Z.leb_le _ _)) by lia.
Qed.

(** The level the decay phase computes at timer [t]. *)
Definition decay_level (t : Z) : Q :=
  fl (1 - fl (fl (1 - ADSR_SUSTAIN_LEVEL) * progress t ADSR_DECAY_SAMPLES)).


Lemma decay_step (i : Z) (p s : Q) (h : bool) (t : Z) (l : Q) :
  0 <= t -> t + 1 < ADSR_DECAY_SAMPLES ->
  update_adsr (ActiveNote i p s ADSR_DECAY t l h) =
  ActiveNote i p s ADSR_DECAY (t + 1) (decay_level (t + 1)) h.
Proof.
  intros Ht Hlt. unfold update_adsr. simpl.
  rewrite u32_small by lia. now rewrite (proj2 (Z.leb_gt _ _) Hlt).
Qed.

Lemma decay_done (i : Z) (p s : Q) (h : bool) (t : Z) (l : Q) :
  0 <= t -> t + 1 = ADSR_DECAY_SAMPLES ->
  update_adsr (ActiveNote i p s ADSR_DECAY t l h) =
  ActiveNote i p s ADSR_SUSTAIN ADSR_DECAY_SAMPLES ADSR_SUSTAIN_LEVEL h.
Proof.
  intros Ht Heq. unfold update_adsr. simpl.
  rewrite u32_small by lia. rewrite (proj2 (Z.leb_le _ _)) by lia.
  unfold set_envelope. simpl. f_equal. exact Heq.
Qed.



Lemma attack_course (i : Z) (p s : Q) (h : bool) :
  (forall j : nat, 0 < Z.of_nat j < ADSR_ATTACK_SAMPLES ->
     Nat.iter j update_adsr (ActiveNote i p s ADSR_ATTACK 0 0 h) =
     ActiveNote i p s ADSR_ATTACK (Z.of_nat j)
                (progress (Z.of_nat j) ADSR_ATTACK_SAMPLES) h) /\
  Nat.iter (Z.to_nat ADSR_ATTACK_SAMPLES) update_adsr
           (ActiveNote i p s ADSR_ATTACK 0 0 h) =
  ActiveNote i p s ADSR_DECAY 0 1 h.
Proof.
  split.
  - intros j Hj.
    exact (ramp_iter (fun t l => ActiveNote i p s ADSR_ATTACK t l h)
             (fun t => progress t ADSR_ATTACK_SAMPLES) ADSR_ATTACK_SAMPLES
             (attack_step i p s h) j 0 Hj).
  - exact (ramp_done (fun t l => ActiveNote i p s ADSR_ATTACK t l h)
             (fun t => progress t ADSR_ATTACK_SAMPLES) ADSR_ATTACK_SAMPLES _
             (attack_step i p s h) (attack_done i p s h) attack_pos 0).
Qed.

Lemma decay_course (i : Z) (p s : Q) (h : bool) :
  (forall j : nat, 0 < Z.of_nat j < ADSR_DECAY_SAMPLES ->
     Nat.iter j update_adsr (ActiveNote i p s ADSR_DECAY 0 1 h) =
     ActiveNote i p s ADSR_DECAY (Z.of_nat j) (decay_level (Z.of_nat j)) h) /\
  Nat.iter (Z.to_nat ADSR_DECAY_SAMPLES) update_adsr
           (ActiveNote i p s ADSR_DECAY 0 1 h) =
  ActiveNote i p s ADSR_SUSTAIN ADSR_DECAY_SAMPLES ADSR_SUSTAIN_LEVEL h.
Proof.
  split.
  - intros j Hj.
    exact (ramp_iter (fun t l => ActiveNote i p s ADSR_DECAY t l h)
             decay_level ADSR_DECAY_SAMPLES (decay_step i p s h) j 1 Hj).
  - exact (ramp_done (fun t l => ActiveNote i p s ADSR_DECAY t l h)
             decay_level ADSR_DECAY_SAMPLES _
             (decay_step i p s h) (decay_done i p s h) decay_pos 1).
Qed.



Lemma attack_decay_phases (i : Z) (p s : Q) (h : bool) :
  let note := ActiveNote i p s ADSR_ATTACK 0 0 h in
  let A := Z.to_nat ADSR_ATTACK_SAMPLES in
  let D := Z.to_nat ADSR_DECAY_SAMPLES in
  (forall j : nat, (0 < j < A)%nat ->
     Nat.iter j update_adsr note =
     ActiveNote i p s ADSR_ATTACK (Z.of_nat j)
                (progress (Z.of_nat j) ADSR_ATTACK_SAMPLES) h) /\
  Nat.iter A update_adsr note = ActiveNote i p s ADSR_DECAY 0 1 h /\
  (forall j : nat, (0 < j < D)%nat ->
     Nat.iter (j + A) update_adsr note =
     ActiveNote i p s ADSR_DECAY (Z.of_nat j) (decay_level (Z.of_nat j)) h) /\
  Nat.iter (D + A) update_adsr note =
    ActiveNote i p s ADSR_SUSTAIN ADSR_DECAY_SAMPLES ADSR_SUSTAIN_LEVEL h.
Proof.
  intros note A D.
  destruct (attack_course i p s h) as [Ha Ha'].
  destruct (decay_course i p s h) as [Hd Hd'].
  split; [intros j Hj; apply Ha; lia|].
  split; [exact Ha'|]. split.
  - intros j Hj. rewrite Nat.iter_add. unfold A, note. rewrite Ha'.
    apply Hd. lia.
  - rewrite Nat.iter_add. unfold A, note. rewrite Ha'. exact Hd'.
Qed.

(** The course of the envelope of a started note.  From the slot that
    [start_note] sets up, the level climbs during the attack, [j] updates
    after the start being the float value of [j / ADSR_ATTACK_SAMPLES]; the
    update number [ADSR_ATTACK_SAMPLES] puts the slot into decay at level 1
    and timer 0; [j] updates later the level is the float value of
    [1 - (1 - sustain) * j / ADSR_DECAY_SAMPLES]; and the update number
    [ADSR_ATTACK_SAMPLES + ADSR_DECAY_SAMPLES] puts it into sustain at the
    sustain level.  Whether the key is still held plays no part up to
    there.  In exact arithmetic the two ramps are the straight lines
    named. *)
Theorem envelope_course (i : Z) (p s : Q) (h : bool) :
  let note := ActiveNote i p s ADSR_ATTACK 0 0 h in
  let A := Z.to_nat ADSR_ATTACK_SAMPLES in
  let D := Z.to_nat ADSR_DECAY_SAMPLES in
  (forall j : nat, (0 < j < A)%nat ->
     Nat.iter j update_adsr note =
     ActiveNote i p s ADSR_ATTACK (Z.of_nat j)
                (progress (Z.of_nat j) ADSR_ATTACK_SAMPLES) h) /\
  Nat.iter A update_adsr note = ActiveNote i p s ADSR_DECAY 0 1 h /\
  (forall j : nat, (0 < j < D)%nat ->
     Nat.iter (j + A) update_adsr note =
     ActiveNote i p s ADSR_DECAY (Z.of_nat j) (decay_level (Z.of_nat j)) h) /\
  Nat.iter (D + A) update_adsr note =
    ActiveNote i p s ADSR_SUSTAIN ADSR_DECAY_SAMPLES ADSR_SUSTAIN_LEVEL h /\
  ((forall q : Q, fl q = q) ->
   forall j : nat,
     (progress (Z.of_nat j) ADSR_ATTACK_SAMPLES ==
      inject_Z (Z.of_nat j) / inject_Z ADSR_ATTACK_SAMPLES)%Q /\
     (decay_level (Z.of_nat j) ==
      1 - (1 - ADSR_SUSTAIN_LEVEL)
          * (inject_Z (Z.of_nat j) / inject_Z ADSR_DECAY_SAMPLES))%Q).
Proof.
  intros note A D.
  destruct (attack_decay_phases i p s h) as (H1 & H2 & H3 & H4).
  split; [exact H1|]. split; [exact H2|]. split; [exact H3|].
  split; [exact H4|].
  intros Hexact j. unfold decay_level, progress. rewrite !Hexact.
  split; reflexivity.
Qed.


End Course.

(** *** The waveform lookup and the output sample *)

Section Waveform.

(** [waveform_data], of [keyboard_waveform.h]: one cycle of 16-bit
    samples. *)
Variable waveform_data : list Z.

(** [get_waveform_sample].  Of a negative position the remainder is
    negative and the table is indexed before its start, which C leaves
    undefined; 0 stands for what is read outside the table. *)
Definition get_waveform_sample (position : Q) : Q :=
  let pos_int := truncate position in
  let pos_frac := fl (position - fl (inject_Z pos_int)) in
  let pos_int := Z.rem pos_int WAVEFORM_CYCLE_LENGTH in
  let next_pos := Z.rem (pos_int + 1) WAVEFORM_CYCLE_LENGTH in
  let sample1 :=
    fl (fl (inject_Z (default 0 (waveform_data !! Z.to_nat pos_int)))
        / 32768) in
  let sample2 :=
    fl (fl (inject_Z (default 0 (waveform_data !! Z.to_nat next_pos)))
        / 32768) in
  fl (sample1 + fl (fl (sample2 - sample1) * pos_frac)).

(** [fmaxf] and [fminf] *)
Definition fmaxf (a b : Q) : Q := if Qle_bool a b then b else a.
Definition fminf (a b : Q) : Q := if Qle_bool a b then a else b.

(** The end of a frame of [audio_task]: the soft clip and the conversion to
    [int16_t]. *)
Definition soft_clip (mix : Q) : Q := fminf 1 (fmaxf (-1) mix).

Definition output_sample (mix : Q) : Z :=
  truncate (fl (soft_clip mix * 32767)).

(** The position and speed of a slot stay between 0 and 1000 cycles. *)
Definition position_ok (note : active_note_t) : Prop :=
  (0 <= playback_position note <= inject_Z (WAVEFORM_CYCLE_LENGTH * 1000))%Q /\
  (0 <= playback_speed note <= inject_Z (WAVEFORM_CYCLE_LENGTH * 1000))%Q.

(** Of the rounding: integers up to 2^24 and multiples of 2^-15 up to 2 are
    [float]s. *)
Hypothesis fl_int :
  forall z : Z, -16777216 <= z <= 16777216 ->
  (fl (inject_Z z) == inject_Z z)%Q.
Hypothesis fl_grid :
  forall z : Z, -65536 <= z <= 65536 ->
  (fl (inject_Z z / 32768) == inject_Z z / 32768)%Q.

Hypothesis cycle_range :
  0 < WAVEFORM_CYCLE_LENGTH /\ WAVEFORM_CYCLE_LENGTH * 2000 <= 16777216.
Hypothesis waveform_range :
  Forall (fun w => -32768 <= w <= 32767) waveform_data.
Hypothesis speed_range :
  forall n : Z, 0 <= n < NUM_NOTES ->
  (0 <= note_frequency n / WAVEFORM_BASE_FREQ
     <= inject_Z (WAVEFORM_CYCLE_LENGTH * 1000))%Q.

Lemma fl_compat (x y : Q) : (x == y)%Q -> (fl x == fl y)%Q.
Proof.
  intros H. apply Qle_antisym; apply fl_mono; rewrite H; apply Qle_refl.
Qed.

Lemma truncate_floor (q : Q) :
  (0 <= q)%Q ->
  0 <= truncate q /\
  (inject_Z (truncate q) <= q)%Q /\ (q < inject_Z (truncate q + 1))%Q.
Proof.
  destruct q as [a b]. unfold Qle, Qlt, truncate. simpl. intros Ha.
  rewrite Z.quot_div_nonneg by lia.
  pose proof (Z.div_mod a (Zpos b) ltac:(lia)) as E.
  pose proof (Z.mod_pos_bound a (Zpos b) ltac:(lia)) as B.
  assert (H0 : 0 <= a / Zpos b) by (apply Z.div_pos; lia).
  split; [exact H0|]. split; nia.
Qed.

Lemma sample_exact (w : Z) :
  -32768 <= w <= 32767 ->
  (fl (fl (inject_Z w) / 32768) == inject_Z w / 32768)%Q.
Proof.
  intros Hw. rewrite <- (fl_grid w) by lia. apply fl_compat.
  rewrite (fl_int w) by lia. reflexivity.
Qed.

Lemma table_range (i : nat) :
  -32768 <= default 0 (waveform_data !! i) <= 32767.
Proof.
  destruct (waveform_data !! i) as [w|] eqn:Hi; simpl; [|lia].
  exact (Forall_lookup_1 _ _ _ _ waveform_range Hi).
Qed.

(** Linear interpolation never overshoots.  For a position between 0 and
    2^24, [get_waveform_sample] returns a value between the two table
    entries it interpolates, each divided by 32768, whatever the rounding
    does in between; so the value lies between -1 and 1.  At a whole-number
    position it is exactly the table entry under the position (taken modulo
    the cycle length) divided by 32768. *)
Theorem waveform_interpolation (position : Q) :
  (0 <= position <= inject_Z 16777216)%Q ->
  let i := Z.rem (truncate position) WAVEFORM_CYCLE_LENGTH in
  let j := Z.rem (i + 1) WAVEFORM_CYCLE_LENGTH in
  let s1 := (inject_Z (default 0%Z (waveform_data !! Z.to_nat i)) / 32768)%Q in
  let s2 := (inject_Z (default 0%Z (waveform_data !! Z.to_nat j)) / 32768)%Q in
  (0 <= i < WAVEFORM_CYCLE_LENGTH /\ 0 <= j < WAVEFORM_CYCLE_LENGTH) /\
  ((s1 <= s2)%Q ->
   (s1 <= get_waveform_sample position <= s2)%Q) /\
  ((s2 <= s1)%Q ->
   (s2 <= get_waveform_sample position <= s1)%Q) /\
  (-1 <= get_waveform_sample position <= 1)%Q /\
  ((position == inject_Z (truncate position))%Q ->
   (get_waveform_sample position == s1)%Q).
Proof.
  clear fl_0 fl_1 sustain_range.
  intros [Hp0 Hp1] i j s1 s2.
  destruct (truncate_floor position Hp0) as (Hk0 & Hk1 & Hk2).
  set (k := truncate position) in *.
  assert (Hk : k <= 16777216).
  { rewrite Zle_Qle. apply Qle_trans with position; assumption. }
  pose proof (fl_int k ltac:(lia)) as Ek.
  pose proof (fl_int 0 ltac:(lia)) as E0.
  pose proof (fl_int 1 ltac:(lia)) as E1.
  change (inject_Z 0) with 0%Q in E0. change (inject_Z 1) with 1%Q in E1.
  destruct cycle_range as [Hlen _].
  assert (Hi : 0 <= i < WAVEFORM_CYCLE_LENGTH)
    by (apply Z.rem_bound_pos; lia).
  assert (Hj : 0 <= j < WAVEFORM_CYCLE_LENGTH)
    by (apply Z.rem_bound_pos; lia).
  split; [split; assumption|].
  set (w1 := default 0 (waveform_data !! Z.to_nat i)) in *.
  set (w2 := default 0 (waveform_data !! Z.to_nat j)) in *.
  pose proof (table_range (Z.to_nat i)) as Hw1. fold w1 in Hw1.
  pose proof (table_range (Z.to_nat j)) as Hw2. fold w2 in Hw2.
  pose proof (sample_exact w1 Hw1) as Es1. fold s1 in Es1.
  pose proof (sample_exact w2 Hw2) as Es2. fold s2 in Es2.
  (* the fractional part *)
  set (frac := fl (position - fl (inject_Z k))).
  assert (Hk2' : (position < inject_Z k + 1)%Q).
  { rewrite inject_Z_plus in Hk2. exact Hk2. }
  assert (Hfrac : (0 <= frac <= 1)%Q).
  { unfold frac.
    pose proof (fl_mono 0 (position - fl (inject_Z k)) ltac:(lra)).
    pose proof (fl_mono (position - fl (inject_Z k)) 1 ltac:(lra)).
    lra. }
  (* the difference of the two samples is exact *)
  assert (Hdiff : (inject_Z w2 / 32768 - inject_Z w1 / 32768
                   == inject_Z (w2 - w1) / 32768)%Q).
  { unfold Zminus. rewrite inject_Z_plus, inject_Z_opp. field. }
  assert (Ed : (fl (fl (fl (inject_Z w2) / 32768)
                    - fl (fl (inject_Z w1) / 32768)) == s2 - s1)%Q).
  { rewrite (fl_compat _ (inject_Z (w2 - w1) / 32768)).
    - rewrite fl_grid by lia. unfold s1, s2. rewrite Hdiff. reflexivity.
    - rewrite Es1, Es2. unfold s1, s2. exact Hdiff. }
  assert (Es1' : (fl s1 == s1)%Q).
  { unfold s1. apply fl_grid. lia. }
  assert (Es2' : (fl s2 == s2)%Q).
  { unfold s2. apply fl_grid. lia. }
  assert (Hunit1 : (-1 <= s1 <= 1)%Q).
  { unfold s1. split.
    - apply Qle_shift_div_l; [reflexivity|].
      change (-1 * 32768)%Q with (inject_Z (-32768)).
      rewrite <- Zle_Qle. lia.
    - apply Qle_shift_div_r; [reflexivity|].
      change (1 * 32768)%Q with (inject_Z 32768).
      rewrite <- Zle_Qle. lia. }
  assert (Hunit2 : (-1 <= s2 <= 1)%Q).
  { unfold s2. split.
    - apply Qle_shift_div_l; [reflexivity|].
      change (-1 * 32768)%Q with (inject_Z (-32768)).
      rewrite <- Zle_Qle. lia.
    - apply Qle_shift_div_r; [reflexivity|].
      change (1 * 32768)%Q with (inject_Z 32768).
      rewrite <- Zle_Qle. lia. }
  unfold get_waveform_sample. fold k. fold i. fold j. fold w1 w2. fold frac.
  set (S1 := fl (fl (inject_Z w1) / 32768)) in *.
  set (S2 := fl (fl (inject_Z w2) / 32768)) in *.
  set (d := fl (S2 - S1)) in *.
  assert (Ed' : (fl d == d)%Q).
  { assert (Eg : (d == inject_Z (w2 - w1) / 32768)%Q).
    { apply Qeq_trans with (s2 - s1)%Q; [exact Ed | exact Hdiff]. }
    apply Qeq_trans with (fl (inject_Z (w2 - w1) / 32768));
      [apply fl_compat; exact Eg|].
    apply Qeq_trans with (inject_Z (w2 - w1) / 32768)%Q;
      [apply fl_grid; lia | symmetry; exact Eg]. }
  assert (Hup : (s1 <= s2)%Q -> (s1 <= fl (S1 + fl (d * frac)) <= s2)%Q).
  { intros Hle.
    assert (Hd : (0 <= d)%Q) by lra.
    pose proof (fl_mono 0 (d * frac) ltac:(nra)) as P0.
    pose proof (fl_mono (d * frac) d ltac:(nra)) as P1.
    pose proof (fl_mono s1 (S1 + fl (d * frac)) ltac:(lra)) as Q0.
    pose proof (fl_mono (S1 + fl (d * frac)) s2 ltac:(lra)) as Q1.
    lra. }
  assert (Hdown : (s2 <= s1)%Q -> (s2 <= fl (S1 + fl (d * frac)) <= s1)%Q).
  { intros Hle.
    assert (Hd : (d <= 0)%Q) by lra.
    pose proof (fl_mono (d * frac) 0 ltac:(nra)) as P0.
    pose proof (fl_mono d (d * frac) ltac:(nra)) as P1.
    pose proof (fl_mono (S1 + fl (d * frac)) s1 ltac:(lra)) as Q0.
    pose proof (fl_mono s2 (S1 + fl (d * frac)) ltac:(lra)) as Q1.
    lra. }
  split; [exact Hup|]. split; [exact Hdown|]. split.
  - destruct (Qlt_le_dec s2 s1) as [Hlt | Hle].
    + specialize (Hdown ltac:(lra)). lra.
    + specialize (Hup Hle). lra.
  - intros Hwhole.
    assert (Hf0 : (frac == 0)%Q).
    { unfold frac. rewrite <- E0. apply fl_compat. lra. }
    rewrite (fl_compat (S1 + fl (d * frac)) s1); [exact Es1'|].
    rewrite (fl_compat (d * frac) 0); [lra|].
    rewrite Hf0. ring.
Qed.

(** *** Positions in reachable pools *)

Section PoolInvariantValid.

Variable P : active_note_t -> Prop.
Hypothesis P_free : P free_slot.
Hypothesis P_start :
  forall n : Z, 0 <= n < NUM_NOTES ->
  P (ActiveNote n 0 (fl (note_frequency n / WAVEFORM_BASE_FREQ))
                ADSR_ATTACK 0 0 true).
Hypothesis P_release : forall note, P note -> P (set_key_held note false).
Hypothesis P_mix : forall note, P note -> P (mix_slot note).

Lemma run_Forall_valid (events : list event) : Forall P (run events).
Proof.
  unfold run.
  assert (H0 : Forall P initial_notes) by (apply Forall_replicate, P_free).
  revert H0. generalize initial_notes.
  induction events as [|e events IH]; intros notes H; simpl; [exact H|].
  apply IH. destruct e as [n | n | i |]; simpl.
  - unfold start_note.
    destruct ((n <? 0) || (NUM_NOTES <=? n)) eqn:Hguard; [exact H|].
    apply orb_false_iff in Hguard. destruct Hguard as [G0 G1].
    apply Z.ltb_ge in G0. apply Z.leb_gt in G1.
    destruct (0 <=? _); [|exact H].
    apply Forall_insert; [exact H|]. apply P_start. lia.
  - now apply stop_note_Forall.
  - destruct (notes !! i) as [note|] eqn:Hi; [|exact H].
    apply Forall_insert; [exact H|].
    apply P_mix. exact (Forall_lookup_1 _ _ _ _ H Hi).
  - induction H as [|note notes Hn _ IHn]; simpl; constructor;
      [now apply P_mix | exact IHn].
Qed.

End PoolInvariantValid.

Lemma update_adsr_position (note : active_note_t) :
  playback_position (update_adsr note) = playback_position note /\
  playback_speed (update_adsr note) = playback_speed note.
Proof.
  unfold update_adsr. destruct (adsr_state note); simpl;
    try (destruct (_ <=? _)); try (destruct (key_held note));
    split; reflexivity.
Qed.

Lemma mix_slot_position_ok (note : active_note_t) :
  position_ok note -> position_ok (mix_slot note).
Proof.
  clear fl_0 fl_1 sustain_range.
  intros [Hp Hs]. unfold mix_slot. destruct (is_idle note); [now split|].
  destruct (update_adsr_position note) as [Ep Es].
  unfold position_ok. simpl. rewrite Ep, Es. split; [|exact Hs].
  destruct cycle_range as [Hlen Hsmall].
  set (B := inject_Z (WAVEFORM_CYCLE_LENGTH * 1000)) in *.
  pose proof (fl_int (WAVEFORM_CYCLE_LENGTH * 1000) ltac:(lia)) as EB.
  fold B in EB.
  pose proof (fl_int (WAVEFORM_CYCLE_LENGTH * 2000) ltac:(lia)) as E2B.
  assert (H2B : (inject_Z (WAVEFORM_CYCLE_LENGTH * 2000) == B + B)%Q).
  { unfold B. rewrite <- inject_Z_plus.
    replace (WAVEFORM_CYCLE_LENGTH * 2000)
      with (WAVEFORM_CYCLE_LENGTH * 1000 + WAVEFORM_CYCLE_LENGTH * 1000)
      by lia.
    reflexivity. }
  pose proof (fl_int 0 ltac:(lia)) as E0.
  change (inject_Z 0) with 0%Q in E0.
  set (pos := fl (playback_position note + playback_speed note)).
  assert (Hpos : (0 <= pos <= B + B)%Q).
  { unfold pos.
    pose proof (fl_mono 0 (playback_position note + playback_speed note)
                  ltac:(lra)).
    pose proof (fl_mono (playback_position note + playback_speed note)
                  (inject_Z (WAVEFORM_CYCLE_LENGTH * 2000)) ltac:(lra)).
    lra. }
  destruct (Qle_bool (fl B) pos) eqn:Hwrap.
  - apply Qle_bool_iff in Hwrap.
    pose proof (fl_mono 0 (pos - fl B) ltac:(lra)).
    pose proof (fl_mono (pos - fl B) B ltac:(lra)).
    lra.
  - assert (Hlt : ~ (fl B <= pos)%Q).
    { intros H. apply Qle_bool_iff in H. congruence. }
    apply Qnot_le_lt in Hlt. lra.
Qed.

(** The waveform lookup stays inside the table.  In every slot of every
    pool reached from the initial one, the playback position lies between 0
    and 1000 cycles; its conversion to [int] is therefore defined and not
    negative, and both indices [get_waveform_sample] computes from it are
    indices of [waveform_data]. *)
Theorem waveform_lookup_in_bounds (events : list event) (i : nat)
    (note : active_note_t) :
  run events !! i = Some note ->
  let k := truncate (playback_position note) in
  (0 <= playback_position note
     <= inject_Z (WAVEFORM_CYCLE_LENGTH * 1000))%Q /\
  0 <= k <= WAVEFORM_CYCLE_LENGTH * 1000 /\
  0 <= Z.rem k WAVEFORM_CYCLE_LENGTH < WAVEFORM_CYCLE_LENGTH /\
  0 <= Z.rem (Z.rem k WAVEFORM_CYCLE_LENGTH + 1) WAVEFORM_CYCLE_LENGTH
    < WAVEFORM_CYCLE_LENGTH.
Proof.
  clear fl_0 fl_1 sustain_range.
  intros Hi k.
  destruct cycle_range as [Hlen Hsmall].
  pose proof (fl_int 0 ltac:(lia)) as E0.
  change (inject_Z 0) with 0%Q in E0.
  assert (Hall : Forall position_ok (run events)).
  { apply run_Forall_valid.
    - unfold position_ok, free_slot. simpl.
      split; (split; [lra|]);
        (change 0%Q with (inject_Z 0); rewrite <- Zle_Qle; lia).
    - intros n Hn. unfold position_ok. simpl. split.
      + split; [lra|].
        change 0%Q with (inject_Z 0). rewrite <- Zle_Qle. lia.
      + pose proof (speed_range n Hn) as Hs.
        pose proof (fl_int (WAVEFORM_CYCLE_LENGTH * 1000) ltac:(lia)) as EB.
        pose proof (fl_mono 0 (note_frequency n / WAVEFORM_BASE_FREQ)
                      ltac:(lra)).
        pose proof (fl_mono (note_frequency n / WAVEFORM_BASE_FREQ)
                      (inject_Z (WAVEFORM_CYCLE_LENGTH * 1000)) ltac:(lra)).
        lra.
    - intros [? ? ? ? ? ? ?] H. exact H.
    - exact mix_slot_position_ok. }
  destruct (Forall_lookup_1 _ _ _ _ Hall Hi) as [Hp _].
  destruct (truncate_floor _ (proj1 Hp)) as (Hk0 & Hk1 & _). fold k in Hk0, Hk1.
  assert (Hk : k <= WAVEFORM_CYCLE_LENGTH * 1000).
  { rewrite Zle_Qle. apply Qle_trans with (playback_position note);
      [exact Hk1 | exact (proj2 Hp)]. }
  split; [exact Hp|]. split; [lia|].
  assert (Hr : 0 <= Z.rem k WAVEFORM_CYCLE_LENGTH < WAVEFORM_CYCLE_LENGTH)
    by (apply Z.rem_bound_pos; lia).
  split; [exact Hr|]. apply Z.rem_bound_pos; lia.
Qed.

(** The output sample never overflows.  Whatever the mixed value, the soft
    clip brings it between -1 and 1 and the conversion to [int16_t] gives a
    sample between -32767 and 32767: 32767 for a mix of 1 or more, -32767
    for a mix of -1 or less; the value -32768 is never produced. *)
Theorem output_sample_range (mix : Q) :
  (-1 <= soft_clip mix <= 1)%Q /\
  ((-1 <= mix <= 1)%Q -> (soft_clip mix == mix)%Q) /\
  -32767 <= output_sample mix <= 32767 /\
  ((1 <= mix)%Q -> output_sample mix = 32767) /\
  ((mix <= -1)%Q -> output_sample mix = -32767).
Proof.
  assert (Hclip : (-1 <= soft_clip mix <= 1)%Q /\
                  ((-1 <= mix <= 1)%Q -> (soft_clip mix == mix)%Q) /\
                  ((1 <= mix)%Q -> (soft_clip mix == 1)%Q) /\
                  ((mix <= -1)%Q -> (soft_clip mix == -1)%Q)).
  { unfold soft_clip, fminf, fmaxf.
    destruct (Qle_bool (-1) mix) eqn:Hlow.
    - apply Qle_bool_iff in Hlow.
      destruct (Qle_bool 1 mix) eqn:Hhigh.
      + apply Qle_bool_iff in Hhigh.
        split; [lra|]. split; [|split]; intros H; lra.
      + assert (Hlt : ~ (1 <= mix)%Q)
          by (intros H; apply Qle_bool_iff in H; congruence).
        apply Qnot_le_lt in Hlt.
        split; [lra|]. split; [|split]; intros H; lra.
    - assert (Hlt : ~ (-1 <= mix)%Q)
        by (intros H; apply Qle_bool_iff in H; congruence).
      apply Qnot_le_lt in Hlt.
      change (Qle_bool 1 (-1)) with false. cbv iota.
      split; [lra|]. split; [|split]; intros H; lra. }
  destruct Hclip as (Hr & Hid & Hone & Hminus).
  pose proof (fl_int 32767 ltac:(lia)) as Ep.
  pose proof (fl_int (-32767) ltac:(lia)) as Em.
  assert (Hbound : forall x : Q, (-1 <= x <= 1)%Q ->
            (inject_Z (-32767) <= fl (x * 32767))%Q /\
            (fl (x * 32767) <= inject_Z 32767)%Q).
  { intros x Hx.
    pose proof (fl_mono (inject_Z (-32767)) (x * 32767)) as L.
    pose proof (fl_mono (x * 32767) (inject_Z 32767)) as U.
    change (inject_Z (-32767)) with (-32767 # 1)%Q in *.
    change (inject_Z 32767) with (32767 # 1)%Q in *.
    split; [specialize (L ltac:(lra)) | specialize (U ltac:(lra))]; lra. }
  split; [exact Hr|]. split; [exact Hid|]. split; [|split].
  - unfold output_sample. destruct (Hbound _ Hr) as [L U].
    now apply RingBuffer.truncate_range.
  - intros H1. unfold output_sample.
    assert (E : (fl (soft_clip mix * 32767) == inject_Z 32767)%Q).
    { rewrite (fl_compat _ (inject_Z 32767)); [exact Ep|].
      rewrite (Hone H1). reflexivity. }
    assert (32767 <= truncate (fl (soft_clip mix * 32767)) <= 32767).
    { apply RingBuffer.truncate_range; rewrite E; apply Qle_refl. }
    lia.
  - intros H1. unfold output_sample.
    assert (E : (fl (soft_clip mix * 32767) == inject_Z (-32767))%Q).
    { rewrite (fl_compat _ (inject_Z (-32767))); [exact Em|].
      rewrite (Hminus H1). reflexivity. }
    assert (-32767 <= truncate (fl (soft_clip mix * 32767)) <= -32767).
    { apply RingBuffer.truncate_range; rewrite E; apply Qle_refl. }
    lia.
Qed.

End Waveform.

End Voices.

(** *** The volume keys and the volume bar (lines 780-806 and 970-993) *)

(** A rectangle handed to [pax_outline_rect] or [pax_draw_rect]. *)
Record rect : Type := Rect {
  rect_x : Z;
  rect_y : Z;
  rect_w : Z;
  rect_h : Z
}.

(** [render_volume_indicator]: the outlined frame and, when its height is
    positive, the filled bar.  The [int] arithmetic is done in [Z], which is
    what C computes for every screen size an [int] holds with room for the
    110 pixels subtracted. *)
Definition render_volume_indicator (width height audio_volume : Z)
  : rect * option rect :=
  let bar_width := 20 in
  let bar_height := 100 in
  let margin := 10 in
  let x := width - bar_width - margin in
  let y := height - bar_height - margin in
  let max_fill_height := bar_height - 2 in
  let filled_height := Z.quot (max_fill_height * audio_volume) 100 in
  (Rect x y bar_width bar_height,
   if 0 <? filled_height
   then
     let filled_y := y + bar_height - 1 - filled_height in
     Some (Rect (x + 1) filled_y (bar_width - 2) filled_height)
   else None).

Section Volume.

(** [is_key_press], of [keyboard_notes.h]. *)
Variable is_key_press : Z -> bool.

(** The volume keys in the event loop of [app_main]: what one scancode does
    to [audio_volume], a [uint8_t]. *)
Definition volume_key (scancode audio_volume : Z) : Z :=
  if is_key_press scancode
  then
    if scancode =? 0xE02E
    then (if 10 <=? audio_volume then u8 (audio_volume - 10)
          else audio_volume)
    else if scancode =? 0xE030
    then (if audio_volume <=? 90 then u8 (audio_volume + 10)
          else audio_volume)
    else audio_volume
  else audio_volume.

(** [audio_volume] after a sequence of scancodes, from its initial 100. *)
Definition volume_after (scancodes : list Z) : Z :=
  fold_left (fun v sc => volume_key sc v) scancodes 100.

Lemma volume_key_steps (scancode v : Z) :
  (exists k : Z, 0 <= k <= 10 /\ v = 10 * k) ->
  exists k : Z, 0 <= k <= 10 /\ volume_key scancode v = 10 * k.
Proof.
  intros (k & Hk & ->). unfold volume_key, u8.
  destruct (is_key_press scancode); [|now exists k].
  destruct (scancode =? 0xE02E).
  - destruct (Z.leb_spec 10 (10 * k)); [|now exists k].
    exists (k - 1). split; [lia|]. rewrite Z.mod_small; lia.
  - destruct (scancode =? 0xE030); [|now exists k].
    destruct (Z.leb_spec (10 * k) 90); [|now exists k].
    exists (k + 1). split; [lia|]. rewrite Z.mod_small; lia.
Qed.

Lemma volume_after_steps (scancodes : list Z) :
  exists k : Z, 0 <= k <= 10 /\ volume_after scancodes = 10 * k.
Proof.
  unfold volume_after.
  assert (H : exists k : Z, 0 <= k <= 10 /\ 100 = 10 * k)
    by (exists 10; lia).
  revert H. generalize 100.
  induction scancodes as [|sc scancodes IH]; intros v H; simpl; [exact H|].
  apply IH, volume_key_steps, H.
Qed.

(** The volume stays on its scale and the bar stays in its frame.  Whatever
    keys arrive, [audio_volume] is a multiple of 10 between 0 and 100, so
    the [uint8_t] never wraps.  At volume 0 no bar is drawn; otherwise the
    bar lies strictly inside the outlined frame on the left, right and top,
    ends on the row above the frame's bottom border, and is 98 pixels high
    exactly at volume 100. *)
Theorem volume_indicator (scancodes : list Z) (width height : Z) :
  let v := volume_after scancodes in
  (0 <= v <= 100 /\ v mod 10 = 0) /\
  fst (render_volume_indicator width height v)
    = Rect (width - 30) (height - 110) 20 100 /\
  match snd (render_volume_indicator width height v) with
  | None => v = 0
  | Some bar =>
      0 < v /\
      rect_x bar = width - 30 + 1 /\
      rect_x bar + rect_w bar = width - 30 + 20 - 1 /\
      height - 110 < rect_y bar /\
      rect_y bar + rect_h bar = height - 110 + 100 - 1 /\
      (rect_h bar = 98 <-> v = 100)
  end.
Proof.
  intros v. destruct (volume_after_steps scancodes) as (k & Hk & Ev).
  fold v in Ev. rewrite Ev. clear v Ev.
  split.
  { split; [lia|]. rewrite Z.mul_comm. apply Z.mod_mul. lia. }
  split.
  { unfold render_volume_indicator. simpl. f_equal; lia. }
  unfold render_volume_indicator. cbv zeta.
  assert (Hk' : k = 0 \/ k = 1 \/ k = 2 \/ k = 3 \/ k = 4 \/ k = 5 \/
                k = 6 \/ k = 7 \/ k = 8 \/ k = 9 \/ k = 10) by lia.
  clear Hk.
  repeat (destruct Hk' as [-> | Hk']); try subst k;
    match goal with
    | |- context [Z.quot ?a 100] =>
        let q := eval vm_compute in (Z.quot a 100) in
        change (Z.quot a 100) with q
    end;
    simpl; try reflexivity; repeat split; try lia; try discriminate.
Qed.

End Volume.

(** *** The keyboard with the constants of the project notes

    13 notes; attack, decay and release of 220, 4410 and 2205 samples; sustain
    level 7/10; a waveform cycle of 169 samples at 261.63 Hz; exact
    arithmetic.  The frequency table is an equal division of the octave above
    the base frequency, which is all these examples need. *)

Definition exact (q : Q) : Q := q.

Definition example_frequency (n : Z) : Q :=
  ((26163 # 100) * (inject_Z (12 + n) / 12))%Q.

Definition example_update : active_note_t -> active_note_t :=
  update_adsr 220 4410 2205 (7 # 10) exact.

Definition example_start : Z -> list active_note_t -> list active_note_t :=
  start_note 13 (26163 # 100) example_frequency exact.

Definition example_stop : Z -> list active_note_t -> list active_note_t :=
  stop_note 13.

Definition example_run : list event -> list active_note_t :=
  run 13 220 4410 2205 (7 # 10) 169 (26163 # 100) example_frequency exact.

Lemma exact_mono (x y : Q) : (x <= y)%Q -> (exact x <= exact y)%Q.
Proof. intros H. exact H. Qed.

Lemma envelope_invariant_witness :
  exists note : active_note_t,
    example_run [NoteOn 0; MixSample; MixSample; NoteOff 0; MixSample]
      !! 0%nat = Some note /\
    adsr_timer note = 3 /\
    (0 <= adsr_level note)%Q /\ (adsr_level note <= 1)%Q /\
    (adsr_state note = ADSR_IDLE -> adsr_level note = 0%Q).
Proof.
  eexists. split; [vm_compute; reflexivity|]. split; [reflexivity|].
  apply (envelope_invariant 13 220 4410 2205 (7 # 10) 169 (26163 # 100)
           example_frequency exact exact_mono
           ltac:(reflexivity) ltac:(reflexivity)
           ltac:(split; discriminate) ltac:(reflexivity) ltac:(reflexivity)
           ltac:(split; reflexivity)
           [NoteOn 0; MixSample; MixSample; NoteOff 0; MixSample] 0%nat).
  vm_compute. reflexivity.
Defined.

Lemma release_completion_witness :
  let note := ActiveNote 5 0 1 ADSR_SUSTAIN 4410 (7 # 10) false in
  adsr_state note = ADSR_SUSTAIN /\ key_held note = false /\
  adsr_state (example_update note) = ADSR_RELEASE /\
  adsr_state (Nat.iter 2204 example_update (example_update note))
    = ADSR_RELEASE /\
  adsr_state (Nat.iter 2205 example_update (example_update note))
    = ADSR_IDLE /\
  note_index (Nat.iter 2205 example_update (example_update note)) = -1.
Proof.
  intros note.
  pose proof (release_completion 13 220 4410 2205 (7 # 10) 169 (26163 # 100)
                example_frequency exact ltac:(split; reflexivity)
                note eq_refl eq_refl) as (He & Hramp & Hdone & _).
  split; [reflexivity|]. split; [reflexivity|].
  split; [exact (proj1 He)|].
  split; [exact (proj1 (Hramp 2204%nat ltac:(lia) ltac:(lia)))|].
  split; [exact (proj1 Hdone) | exact (proj2 (proj2 Hdone))].
Defined.

Lemma start_note_contract_witness :
  0 <= 3 < 13 /\
  example_start 3 initial_notes !! 0%nat =
    Some (ActiveNote 3 0 (example_frequency 3 / (26163 # 100))
                     ADSR_ATTACK 0 0 true) /\
  example_start 3 initial_notes !! 1%nat = Some free_slot.
Proof.
  assert (Hn : 0 <= 3 < 13) by lia.
  pose proof (start_note_contract 13 (26163 # 100) example_frequency exact
                3 initial_notes Hn) as [_ Hfree].
  assert (Hno : forall (j : nat) (w : active_note_t),
            initial_notes !! j = Some w -> note_index w <> 3).
  { intros j w Hw. unfold initial_notes in Hw.
    apply lookup_replicate in Hw. destruct Hw as [-> _]. discriminate. }
  destruct (Hfree Hno) as [Hidle _].
  destruct (Hidle 0%nat free_slot eq_refl eq_refl) as [H0 Hrest];
    [intros j w Hj; lia|].
  split; [exact Hn|]. split; [exact H0|].
  unfold example_start. rewrite (Hrest 1%nat) by discriminate. reflexivity.
Defined.

Lemma invalid_note_noop_witness :
  (13 < 0 \/ 13 <= 13) /\
  example_start 13 (example_run [NoteOn 0; MixSample])
    = example_run [NoteOn 0; MixSample] /\
  example_stop 13 (example_run [NoteOn 0; MixSample])
    = example_run [NoteOn 0; MixSample].
Proof.
  assert (Hn : 13 < 0 \/ 13 <= 13) by (right; lia).
  split; [exact Hn|].
  exact (invalid_note_noop 13 (26163 # 100) example_frequency exact 13
           (example_run [NoteOn 0; MixSample]) Hn).
Defined.

(** *** Examples for the pool, the envelope and the waveform *)

Lemma exact_int (z : Z) : (exact (inject_Z z) == inject_Z z)%Q.
Proof. apply Qeq_refl. Qed.

Lemma exact_grid (z : Z) :
  (exact (inject_Z z / 32768) == inject_Z z / 32768)%Q.
Proof. apply Qeq_refl. Qed.

Lemma example_speed_range (n : Z) :
  0 <= n < 13 ->
  (0 <= example_frequency n / (26163 # 100) <= inject_Z (169 * 1000))%Q.
Proof.
  intros Hn. unfold example_frequency.
  assert (E : ((26163 # 100) * (inject_Z (12 + n) / 12) / (26163 # 100)
               == inject_Z (12 + n) / 12)%Q) by (field; split; discriminate).
  rewrite E.
  assert (L : (inject_Z 12 <= inject_Z (12 + n))%Q)
    by (rewrite <- Zle_Qle; lia).
  assert (U : (inject_Z (12 + n) <= inject_Z 24)%Q)
    by (rewrite <- Zle_Qle; lia).
  change (inject_Z 12) with 12%Q in L. change (inject_Z 24) with 24%Q in U.
  change (inject_Z (169 * 1000)) with 169000%Q.
  clear E. revert L U. generalize (inject_Z (12 + n)). intros x L U.
  assert (H : (x / 12 == x * (1 # 12))%Q) by field.
  rewrite H. lra.
Qed.

(** One cycle of a triangle wave in eight samples. *)
Definition example_waveform : list Z :=
  [0; 16384; 32767; 16384; 0; -16384; -32768; -16384].

Lemma key_press_never_dropped_witness :
  13 <= MAX_ACTIVE_NOTES /\ 0 <= 2 < 13 /\
  exists k : nat,
    (k < 13)%nat /\
    example_start 2
      (example_run [NoteOn 0; NoteOn 4; NoteOn 7; MixSample; NoteOff 4])
      !! k
    = Some (ActiveNote 2 0 (exact (example_frequency 2 / (26163 # 100)))
                       ADSR_ATTACK 0 0 true).
Proof.
  assert (H1 : 13 <= MAX_ACTIVE_NOTES) by (unfold MAX_ACTIVE_NOTES; lia).
  assert (H2 : 0 <= 2 < 13) by lia.
  split; [exact H1|]. split; [exact H2|].
  destruct (key_press_never_dropped 13 220 4410 2205 (7 # 10) 169
              (26163 # 100) example_frequency exact
              [NoteOn 0; NoteOn 4; NoteOn 7; MixSample; NoteOff 4] 2 H1 H2)
    as (k & Hk & _ & Hl & _).
  exists k. split; [exact Hk | exact Hl].
Defined.

Lemma envelope_course_witness :
  let note := ActiveNote 5 0 1 ADSR_ATTACK 0 0 true in
  Nat.iter 110 example_update note
    = ActiveNote 5 0 1 ADSR_ATTACK 110 (progress exact 110 220) true /\
  Nat.iter (Z.to_nat 220) example_update note
    = ActiveNote 5 0 1 ADSR_DECAY 0 1 true /\
  Nat.iter (Z.to_nat 4410 + Z.to_nat 220) example_update note
    = ActiveNote 5 0 1 ADSR_SUSTAIN 4410 (7 # 10) true.
Proof.
  intros note.
  pose proof (envelope_course 220 4410 2205 (7 # 10) exact
                ltac:(reflexivity) ltac:(reflexivity)
                ltac:(reflexivity) ltac:(reflexivity)
                5 0%Q 1%Q true) as (Hramp & Hpeak & _ & Hsustain & _).
  split; [exact (Hramp 110%nat ltac:(split; [lia | vm_compute; lia]))|].
  split; [exact Hpeak | exact Hsustain].
Defined.


Lemma waveform_interpolation_witness :
  (0 <= 5 # 2 <= inject_Z 16777216)%Q /\
  (inject_Z 16384 / 32768
     <= get_waveform_sample 8 exact example_waveform (5 # 2)
     <= inject_Z 32767 / 32768)%Q /\
  (get_waveform_sample 8 exact example_waveform (inject_Z 10)
     == inject_Z 32767 / 32768)%Q.
Proof.
  assert (Hw : Forall (fun w => -32768 <= w <= 32767) example_waveform)
    by (repeat constructor; lia).
  assert (Hc : 0 < 8 /\ 8 * 2000 <= 16777216) by lia.
  assert (Hp : (0 <= 5 # 2 <= inject_Z 16777216)%Q)
    by (split; discriminate).
  assert (Hq : (0 <= inject_Z 10 <= inject_Z 16777216)%Q)
    by (split; discriminate).
  split; [exact Hp|]. split.
  - destruct (waveform_interpolation 8 exact exact_mono example_waveform
                (fun z _ => exact_int z) (fun z _ => exact_grid z) Hc Hw
                (5 # 2) Hp) as (_ & _ & Hdown & _).
    apply Hdown. discriminate.
  - destruct (waveform_interpolation 8 exact exact_mono example_waveform
                (fun z _ => exact_int z) (fun z _ => exact_grid z) Hc Hw
                (inject_Z 10) Hq) as (_ & _ & _ & _ & Hwhole).
    apply Hwhole. reflexivity.
Defined.

Lemma waveform_lookup_in_bounds_witness :
  exists note : active_note_t,
    example_run [NoteOn 7; MixSample; MixSample; MixSample] !! 0%nat
      = Some note /\
    (0 <= playback_position note <= inject_Z (169 * 1000))%Q /\
    0 <= Z.rem (truncate (playback_position note)) 169 < 169.
Proof.
  eexists. split; [vm_compute; reflexivity|].
  destruct (waveform_lookup_in_bounds 13 220 4410 2205 (7 # 10) 169
              (26163 # 100) example_frequency exact exact_mono
              (fun z _ => exact_int z) ltac:(lia) example_speed_range
              [NoteOn 7; MixSample; MixSample; MixSample] 0%nat _ eq_refl)
    as (Hp & _ & Hr & _).
  split; [exact Hp | exact Hr].
Defined.

Lemma output_sample_range_witness :
  output_sample exact (3 # 2) = 32767 /\
  output_sample exact (-(5 # 4)) = -32767 /\
  -32767 <= output_sample exact (1 # 3) <= 32767.
Proof.
  split; [|split].
  - apply (output_sample_range exact exact_mono (fun z _ => exact_int z)
             (3 # 2)). discriminate.
  - apply (output_sample_range exact exact_mono (fun z _ => exact_int z)
             (-(5 # 4))). discriminate.
  - apply (output_sample_range exact exact_mono (fun z _ => exact_int z)
             (1 # 3)).
Defined.

(** *** Loudness normalisation in exact arithmetic *)

Definition exact_real (x : R) : R := x.

Lemma exact_real_error (x : R) :
  (Rabs (exact_real x - x) <= float_eps * Rabs x)%R.
Proof.
  unfold exact_real. rewrite Rminus_diag, Rabs_R0.
  apply Rmult_le_pos; [unfold float_eps; lra | apply Rabs_pos].
Qed.

Lemma exact_real_mono (x y : R) :
  (x <= y)%R -> (exact_real x <= exact_real y)%R.
Proof. intros H. exact H. Qed.

Lemma sqrt_4 : sqrt 4 = 2%R.
Proof. replace 4%R with (2 * 2)%R by lra. apply sqrt_square. lra. Qed.

(** C2 as the specification states it fails when the last voice stops.
    After one sample with four voices the factor is 199/200; on the next
    sample, with no voice, the code resets the factor to 1 where the smoothing
    step of the specification gives 199/200 + (1 - 199/200)/100.  The same
    after 7000 samples with four voices, as when four notes are pressed
    together and released together after a short hold: the code resets the
    factor to 1 and the specification's step leaves it below 1. *)
Lemma normalization_reset_counterexample :
  normalization_after exact_real [4] = (199 / 200)%R /\
  normalize exact_real 0 (normalization_after exact_real [4]) = 1%R /\
  spec_gain_update 0 (normalization_after exact_real [4])
    = (19901 / 20000)%R /\
  normalize exact_real 0 (normalization_after exact_real [4])
    <> spec_gain_update 0 (normalization_after exact_real [4]) /\
  normalize exact_real 0
    (normalization_after exact_real (replicate (Z.to_nat 7000) 4)) = 1%R /\
  (spec_gain_update 0
     (normalization_after exact_real (replicate (Z.to_nat 7000) 4%Z)) < 1)%R.
Proof.
  assert (H : normalization_after exact_real [4] = (199 / 200)%R).
  { unfold normalization_after. simpl fold_left.
    unfold normalize, normalization_alpha, exact_real.
    change (0 <? 4) with true. cbv iota zeta. rewrite sqrt_4. lra. }
  rewrite H.
  assert (Hs : spec_gain_update 0 (199 / 200) = (19901 / 20000)%R).
  { unfold spec_gain_update, spec_target_gain.
    change (0 <? 0) with false. cbv iota. lra. }
  assert (Hn : forall g : R, normalize exact_real 0 g = 1%R) by reflexivity.
  rewrite Hs, !Hn.
  split; [reflexivity|]. split; [reflexivity|]. split; [reflexivity|].
  split; [lra|]. split; [reflexivity|].
  rewrite normalization_after_replicate.
  pose proof (normalize_iter_error exact_real exact_real_error
                exact_real_mono eq_refl 4 1%R (Z.to_nat 7000) ltac:(lia))
    as Hit.
  cbv zeta in Hit.
  change (exact_real (1 / exact_real (sqrt (exact_real 4))))
    with (1 / sqrt 4)%R in Hit.
  rewrite sqrt_4 in Hit.
  pose proof (smoothing_late (Z.to_nat 7000) ltac:(lia)) as Hp.
  revert Hit Hp. generalize ((9901 / 10000) ^ Z.to_nat 7000)%R.
  generalize (Nat.iter (Z.to_nat 7000) (normalize exact_real 4) 1%R).
  intros g p Hit Hp.
  replace (1 - 1 / 2)%R with (1 / 2)%R in Hit by lra.
  rewrite (Rabs_pos_eq (1 / 2)) in Hit by lra.
  apply Rabs_bounds in Hit.
  unfold spec_gain_update, spec_target_gain.
  change (0 <? 0) with false. cbv iota.
  unfold float_eps in Hit. lra.
Qed.

Lemma normalization_smoothing_witness :
  1 <= 4 <= MAX_ACTIVE_NOTES /\ (1000 <= 1000)%nat /\
  (Rabs (Nat.iter 1000 (normalize exact_real 4)
                  (normalization_after exact_real [13%Z; 0%Z])
         - 1 / sqrt 4) <= 1 / sqrt 4 / 100)%R.
Proof.
  assert (Hk : 1 <= 4 <= MAX_ACTIVE_NOTES) by (unfold MAX_ACTIVE_NOTES; lia).
  assert (Hn : (1000 <= 1000)%nat) by apply Nat.le_refl.
  split; [exact Hk|]. split; [exact Hn|].
  exact (proj2 (proj2 (proj2
           (normalization_smoothing exact_real exact_real_error
              exact_real_mono eq_refl [13; 0] 4 1000 Hk Hn)))).
Defined.

End Keyboard.

(** ** The MOD player ([modplayer_esp32.c]) *)

Module Tracker.

Definition MAX_SAMPLES : Z := 31.
Definition NUM_CHANNELS : Z := 4.
Definition ROWS_PER_PATTERN : Z := 64.
Definition BYTES_PER_NOTE : Z := 4.
Definition SAMPLE_RATE : Z := 22050.
Definition PROCESS_BUFFER_SIZE : Z := 1024.
Definition BASE_TEMPO : Z := 125.

(** [Note]: one cell of a pattern. *)
Record Note : Type := MkNote {
  note_sample : Z;
  note_period : Z;
  note_effect : Z;
  note_param : Z
}.

(** [Sample]; [sample_data] is the offset of the payload in the module blob,
    [None] for the null pointer. *)
Record Sample : Type := MkSample {
  sample_name : list Z;
  sample_length : Z;
  sample_finetune : Z;
  sample_volume : Z;
  sample_repeat_point : Z;
  sample_repeat_length : Z;
  sample_data : option Z
}.

(** [MODFile] *)
Record MODFile : Type := MkMODFile {
  title : list Z;
  samples : list Sample;
  song_length : Z;
  positions : list Z;
  num_patterns : Z;
  patterns : list Note
}.

(** [ChannelState] *)
Record ChannelState : Type := MkChannelState {
  chan_period : Z;
  chan_sample_num : Z;
  chan_volume : Z;
  chan_sample_pos : Z;
  chan_sample_increment : Z;
  chan_effect : Z;
  chan_param : Z
}.

(** The local variables of [modplayer_task] that drive the sequencer. *)
Record player : Type := MkPlayer {
  position : Z;
  row : Z;
  ticks_per_row : Z;
  current_tick : Z;
  tempo : Z;
  samples_per_tick : Z
}.

(** *** Reading the blob

    The loader walks the blob with a pointer and never compares it with
    [data_len].  A read at an offset outside the blob is undefined in C; here
    it stops the walk with [PastEnd] and the offending offset. *)
Inductive access (A : Type) : Type :=
| Done (a : A)
| PastEnd (offset : Z).

Arguments Done {A} a.
Arguments PastEnd {A} offset.

Definition reader (A : Type) : Type := list Z -> Z -> access (A * Z).

Definition ret {A : Type} (a : A) : reader A :=
  fun _ ptr => Done (a, ptr).

Definition bind {A B : Type} (m : reader A) (k : A -> reader B) : reader B :=
  fun data ptr =>
    match m data ptr with
    | Done (a, ptr') => k a data ptr'
    | PastEnd offset => PastEnd offset
    end.

Notation "'get' x 'from' m ; k" := (bind m (fun x => k))
  (at level 10, x name, m at level 100, k at level 200,
   format "'[v' 'get'  x  'from'  m ; '/' k ']'").

(** [*ptr++] *)
Definition next_byte : reader Z :=
  fun data ptr =>
    match data !! Z.to_nat ptr with
    | Some b => Done (b, ptr + 1)
    | None => PastEnd ptr
    end.

(** [ptr += n] without a read. *)
Definition skip (n : Z) : reader unit :=
  fun _ ptr => Done (tt, ptr + n).

(** [n] times the same reader, results in order. *)
Fixpoint times {A : Type} (n : nat) (m : reader A) : reader (list A) :=
  match n with
  | O => ret []
  | S n => get a from m ; get rest from times n m ; ret (a :: rest)
  end.

(** [memcpy(dst, ptr, n); ptr += n] *)
Definition bytes (n : nat) : reader (list Z) := times n next_byte.

(** [read_big_endian_16(ptr); ptr += 2] *)
Definition read_big_endian_16 : reader Z :=
  get d0 from next_byte ;
  get d1 from next_byte ;
  ret (u16 (Z.lor (Z.shiftl d0 8) d1)).

(** One sample header: 22 bytes of name, whose last byte is then overwritten
    with 0, three lengths in words doubled into a [uint16_t], finetune and
    volume. *)
Definition read_sample : reader Sample :=
  get name from bytes 22 ;
  get len from read_big_endian_16 ;
  get finetune from next_byte ;
  get volume from next_byte ;
  get repeat_point from read_big_endian_16 ;
  get repeat_length from read_big_endian_16 ;
  ret (MkSample (take 21 name ++ [0]) (u16 (len * 2)) finetune volume
                (u16 (repeat_point * 2)) (u16 (repeat_length * 2)) None).

(** One pattern cell: four bytes. *)
Definition read_note : reader Note :=
  get b0 from next_byte ;
  get b1 from next_byte ;
  get b2 from next_byte ;
  get b3 from next_byte ;
  ret (MkNote (u8 (Z.lor (Z.land b0 240) (Z.shiftr b2 4)))
              (Z.lor (Z.shiftl (Z.land b0 15) 8) b1)
              (Z.land b2 15)
              b3).

(** What the loader has read when it reaches the pattern data: title, sample
    headers, song length and position table. *)
Record header : Type := MkHeader {
  hdr_title : list Z;
  hdr_samples : list Sample;
  hdr_song_length : Z;
  hdr_positions : list Z
}.

Definition read_header : reader header :=
  get t from bytes 20 ;
  get ss from times (Z.to_nat MAX_SAMPLES) read_sample ;
  get len from next_byte ;
  get skipped from skip 1 ;
  get pos from bytes 128 ;
  get skipped from skip 4 ;
  ret (MkHeader (t ++ [0]) ss len pos).

(** The loop that finds the highest pattern number among the first
    [song_length] positions; [None] when it indexes [positions] beyond its 128
    entries, which C leaves undefined. *)
Fixpoint highest_pattern (positions : list Z) (i : nat) (count : nat)
    (highest : Z) : option Z :=
  match count with
  | O => Some highest
  | S count =>
      match positions !! i with
      | Some p =>
          highest_pattern positions (S i) count
            (if highest <? p then p else highest)
      | None => None
      end
  end.

(** [sizeof(Note)]: a byte, a 16-bit word and two bytes, aligned to 2. *)
Definition sizeof_Note : Z := 6.

(** The last loop of the loader: payloads follow each other after the pattern
    data; nothing is read. *)
Fixpoint set_sample_data (ss : list Sample) (ptr : Z) : list Sample :=
  match ss with
  | [] => []
  | s :: rest =>
      if 0 <? sample_length s
      then MkSample (sample_name s) (sample_length s) (sample_finetune s)
                    (sample_volume s) (sample_repeat_point s)
                    (sample_repeat_length s) (Some ptr)
           :: set_sample_data rest (ptr + sample_length s)
      else s :: set_sample_data rest ptr
  end.

(** The outcomes of [load_mod_embedded]: return value 1 with the module
    filled in, return value 0, or one of the two undefined behaviours. *)
Inductive load_result : Type :=
| Loaded (m : MODFile)
| LoadFailed
| ReadPastEnd (offset : Z)
| PositionPastEnd.

(** What [modplayer_task] does with the result of the loader. *)
Inductive task_start : Type :=
| Playing (m : MODFile) (p : player)
| TaskDeleted
| Undefined.

(** [calculate_tick_samples]; [/] on [int] truncates. *)
Definition calculate_tick_samples (tempo : Z) : Z :=
  Z.quot (2500 * SAMPLE_RATE) (tempo * 1000).

(** The player state [modplayer_task] starts from. *)
Definition player_start : player :=
  MkPlayer 0 0 5 0 125 (calculate_tick_samples 125).

(** The channels [modplayer_task] starts from: all fields 0. *)
Definition channels_start : list ChannelState :=
  replicate (Z.to_nat NUM_CHANNELS) (MkChannelState 0 0 0 0 0 0 0).

(** *** Rows and ticks *)


(** The effect loop that follows [process_row] in [modplayer_task]: a pattern
    break leaves the loop, a parameter up to 0x1F of effect 0xF sets the speed
    (unless it is 0), a larger one sets the tempo and recomputes the samples
    per tick. *)
Fixpoint check_effects (channels : list ChannelState) (p : player) : player :=
  match channels with
  | [] => p
  | ch :: rest =>
      if chan_effect ch =? 13
      then MkPlayer (position p) (ROWS_PER_PATTERN - 1) (ticks_per_row p)
                    (current_tick p) (tempo p) (samples_per_tick p)
      else if (chan_effect ch =? 15) && (chan_param ch <=? 31)
      then check_effects rest
             (if 0 <? chan_param ch
              then MkPlayer (position p) (row p) (chan_param ch)
                            (current_tick p) (tempo p) (samples_per_tick p)
              else p)
      else if (chan_effect ch =? 15) && (32 <=? chan_param ch)
      then check_effects rest
             (MkPlayer (position p) (row p) (ticks_per_row p) (current_tick p)
                       (chan_param ch)
                       (calculate_tick_samples (chan_param ch)))
      else check_effects rest p
  end.

(** The tick counter update at the end of the playback loop. *)
Definition next_tick (song_length : Z) (p : player) : player :=
  let tick := current_tick p + 1 in
  if ticks_per_row p <=? tick
  then
    let row' := row p + 1 in
    if ROWS_PER_PATTERN <=? row'
    then
      let position' := position p + 1 in
      MkPlayer (if song_length <=? position' then 0 else position')
               0 (ticks_per_row p) 0 (tempo p) (samples_per_tick p)
    else MkPlayer (position p) row' (ticks_per_row p) 0 (tempo p)
                  (samples_per_tick p)
  else MkPlayer (position p) (row p) (ticks_per_row p) tick (tempo p)
                (samples_per_tick p).

(** A signed byte of sample data. *)
Definition int8 (b : Z) : Z := if b <? 128 then b else b - 256.

Definition clamp16 (mixed : Z) : Z :=
  let mixed := if 32767 <? mixed then 32767 else mixed in
  if mixed <? -32768 then -32768 else mixed.

(** [reads m n]: wherever at least [n] bytes remain, [m] succeeds and moves
    the pointer by exactly [n]. *)
Definition reads {A : Type} (m : reader A) (n : Z) : Prop :=
  forall (data : list Z) (ptr : Z),
    0 <= ptr -> ptr + n <= Z.of_nat (length data) ->
    exists a : A, m data ptr = Done (a, ptr + n).

Section Engine.

(** [malloc]: whether a request of the given size succeeds. *)
Variable malloc : Z -> bool.

Variable MOD_BUFFER_SIZE : Z.

(** Rounding of an exact result to [float]. *)
Variable fl : Q -> Q.

(** [load_mod_embedded(data, data_len, mod)] *)
Definition load_mod_embedded (data : list Z) (data_len : Z) : load_result :=
  match read_header data 0 with
  | PastEnd offset => ReadPastEnd offset
  | Done (h, ptr) =>
      match highest_pattern (hdr_positions h) 0
                            (Z.to_nat (hdr_song_length h)) 0 with
      | None => PositionPastEnd
      | Some highest =>
          let num_patterns := u8 (highest + 1) in
          let pattern_data_size :=
            num_patterns * ROWS_PER_PATTERN * NUM_CHANNELS * sizeof_Note in
          if malloc pattern_data_size
          then
            match times (Z.to_nat (num_patterns * ROWS_PER_PATTERN
                                   * NUM_CHANNELS))
                        read_note data ptr with
            | PastEnd offset => ReadPastEnd offset
            | Done (notes, ptr') =>
                Loaded (MkMODFile (hdr_title h)
                                  (set_sample_data (hdr_samples h) ptr')
                                  (hdr_song_length h) (hdr_positions h)
                                  num_patterns notes)
            end
          else LoadFailed
      end
  end.

(** The beginning of [modplayer_task]: the task deletes itself when the
    loader returns 0, otherwise playback starts. *)
Definition modplayer_task_start (data : list Z) (data_len : Z) : task_start :=
  match load_mod_embedded data data_len with
  | Loaded m => Playing m player_start
  | LoadFailed => TaskDeleted
  | ReadPastEnd _ => Undefined
  | PositionPastEnd => Undefined
  end.

(** [period_to_freq] *)
Definition period_to_freq (period : Z) : Q :=
  if period =? 0 then 0%Q
  else fl ((14318181 # 2) / inject_Z (period * 2)).

(** The body of the channel loop of [process_row] for the cell [note].  A
    sample number above 31 indexes [samples] beyond its end, which C leaves
    undefined; the volume is then taken as 0 here.  The conversion of the
    increment to [uint32_t] truncates; out of range it wraps here. *)
Definition process_note (m : MODFile) (ch : ChannelState) (note : Note)
  : ChannelState :=
  let ch1 :=
    if 0 <? note_sample note
    then MkChannelState (chan_period ch) (note_sample note)
           (default 0 (sample_volume <$>
                       samples m !! Z.to_nat (note_sample note - 1)))
           (chan_sample_pos ch) (chan_sample_increment ch)
           (chan_effect ch) (chan_param ch)
    else ch in
  let ch2 :=
    if negb (note_period note =? 0) && negb (note_effect note =? 3)
    then
      let freq := period_to_freq (note_period note) in
      MkChannelState (note_period note) (chan_sample_num ch1) (chan_volume ch1)
        0 (u32 (truncate (fl (fl (freq * 65536) / inject_Z SAMPLE_RATE))))
        (chan_effect ch1) (chan_param ch1)
    else ch1 in
  let ch3 :=
    MkChannelState (chan_period ch2) (chan_sample_num ch2) (chan_volume ch2)
      (chan_sample_pos ch2) (chan_sample_increment ch2)
      (note_effect note) (note_param note) in
  if (note_effect note =? 12) && (note_param note <=? 64)
  then MkChannelState (chan_period ch3) (chan_sample_num ch3) (note_param note)
         (chan_sample_pos ch3) (chan_sample_increment ch3)
         (chan_effect ch3) (chan_param ch3)
  else ch3.

(** The cell of channel [c] in row [row] of the pattern played at [position].
    An index outside the position table or the pattern data is undefined in C;
    an empty cell stands for it here. *)
Definition cell (m : MODFile) (position row : Z) (c : nat) : Note :=
  let pattern := default 0 (positions m !! Z.to_nat position) in
  default (MkNote 0 0 0 0)
    (patterns m !! Z.to_nat (pattern * ROWS_PER_PATTERN * NUM_CHANNELS
                             + row * NUM_CHANNELS + Z.of_nat c)).

(** [process_row] *)
Definition process_row (m : MODFile) (channels : list ChannelState)
    (position row : Z) : list ChannelState :=
  imap (fun c ch => process_note m ch (cell m position row c)) channels.

(** One channel's share of one output sample in [process_tick], with the
    channel's new state. *)
Definition mix_channel (m : MODFile) (data : list Z) (ch : ChannelState)
  : ChannelState * Z :=
  if (0 <? chan_period ch) && (0 <? chan_sample_num ch)
  then
    let sample_idx := chan_sample_num ch - 1 in
    match (if sample_idx <? MAX_SAMPLES
           then samples m !! Z.to_nat sample_idx else None) with
    | Some s =>
        match sample_data s with
        | Some base =>
            let pos := Z.shiftr (chan_sample_pos ch) 16 in
            if (0 <? sample_length s) && (pos <? sample_length s)
            then
              let sample_val :=
                int8 (default 0 (data !! Z.to_nat (base + pos))) in
              let sample_pos :=
                u32 (chan_sample_pos ch + chan_sample_increment ch) in
              let moved (sample_pos period : Z) :=
                MkChannelState period (chan_sample_num ch) (chan_volume ch)
                  sample_pos (chan_sample_increment ch)
                  (chan_effect ch) (chan_param ch) in
              (if 2 <? sample_repeat_length s
               then
                 let loop_end :=
                   sample_repeat_point s + sample_repeat_length s in
                 if loop_end <=? Z.shiftr sample_pos 16
                 then moved (u32 (Z.shiftl (sample_repeat_point s) 16))
                            (chan_period ch)
                 else moved sample_pos (chan_period ch)
               else if sample_length s <=? Z.shiftr sample_pos 16
               then moved 0 0
               else moved sample_pos (chan_period ch),
               Z.quot (sample_val * chan_volume ch) 64 * 32)
            else (ch, 0)
        | None => (ch, 0)
        end
    | None => (ch, 0)
    end
  else (ch, 0).

(** One output sample of [process_tick]: the channels in order, then the
    clamp to 16 bits. *)
Definition mix_sample (m : MODFile) (data : list Z)
    (channels : list ChannelState) : list ChannelState * Z :=
  let r :=
    fold_left (fun acc ch =>
                 let r := mix_channel m data ch in
                 (fst acc ++ [fst r], snd acc + snd r))
              channels ([], 0) in
  (fst r, clamp16 (snd r)).

(** [process_tick] *)
Fixpoint process_tick (m : MODFile) (data : list Z)
    (channels : list ChannelState) (buffer_size : nat)
  : list ChannelState * list Z :=
  match buffer_size with
  | O => (channels, [])
  | S n =>
      let r := mix_sample m data channels in
      let r' := process_tick m data (fst r) n in
      (fst r', snd r :: snd r')
  end.

(** One turn of the playback loop of [modplayer_task] on the channels, the
    sequencer variables and the ring buffer (the delay at its end is not
    modelled). *)
Definition play_tick (m : MODFile) (data : list Z)
    (st : list ChannelState * player * RingBuffer.ring)
  : list ChannelState * player * RingBuffer.ring :=
  let '(channels, p, rb) := st in
  let '(channels, p) :=
    if current_tick p =? 0
    then
      let channels := process_row m channels (position p) (row p) in
      (channels, check_effects channels p)
    else (channels, p) in
  let samples_to_generate :=
    if samples_per_tick p <? PROCESS_BUFFER_SIZE
    then samples_per_tick p else PROCESS_BUFFER_SIZE in
  let r := process_tick m data channels (Z.to_nat samples_to_generate) in
  (fst r,
   next_tick (song_length m) p,
   RingBuffer.write_to_ring_buffer MOD_BUFFER_SIZE fl (snd r) rb).

(** The state of playback after [n] turns of the loop. *)
Definition playback (m : MODFile) (data : list Z) (n : nat)
  : list ChannelState * player * RingBuffer.ring :=
  Nat.iter n (play_tick m data)
    (channels_start, player_start, RingBuffer.modplayer_init MOD_BUFFER_SIZE).

(** The sequencer's samples per tick agree with its tempo. *)
Definition tempo_ok (p : player) : Prop :=
  samples_per_tick p = calculate_tick_samples (tempo p).

(** *** Properties of the loader *)

Lemma reads_ret {A : Type} (a : A) : reads (ret a) 0.
Proof. intros data ptr _ _. exists a. unfold ret. now rewrite Z.add_0_r. Qed.

Lemma reads_bind {A B : Type} (m : reader A) (k : A -> reader B) (n n' : Z) :
  reads m n -> (forall a, reads (k a) n') -> 0 <= n -> 0 <= n' ->
  reads (bind m k) (n + n').
Proof.
  intros Hm Hk Hn Hn' data ptr Hptr Hlen. unfold bind.
  destruct (Hm data ptr Hptr ltac:(lia)) as [a ->].
  destruct (Hk a data (ptr + n) ltac:(lia) ltac:(lia)) as [b ->].
  exists b. now rewrite Z.add_assoc.
Qed.

Lemma reads_next_byte : reads next_byte 1.
Proof.
  intros data ptr Hptr Hlen. unfold next_byte.
  destruct (lookup_lt_is_Some_2 data (Z.to_nat ptr) ltac:(lia)) as [b ->].
  now exists b.
Qed.

Lemma reads_skip (n : Z) : reads (skip n) n.
Proof. intros data ptr _ _. now exists tt. Qed.

Lemma reads_times {A : Type} (m : reader A) (n : Z) (k : nat) :
  reads m n -> 0 <= n -> reads (times k m) (Z.of_nat k * n).
Proof.
  intros Hm Hn. induction k as [|k IH]; simpl times.
  - apply reads_ret.
  - replace (Z.of_nat (S k) * n) with (n + (Z.of_nat k * n + 0)) by lia.
    apply reads_bind; [exact Hm | | lia | lia].
    intros a. apply reads_bind; [exact IH | | lia | lia].
    intros rest. apply reads_ret.
Qed.

Lemma reads_eq {A : Type} (m : reader A) (n n' : Z) :
  reads m n -> n = n' -> reads m n'.
Proof. now intros H <-. Qed.

Ltac reads_then n n' :=
  apply (reads_bind _ _ n n'); [ | intros ? | lia | lia].

Lemma reads_bytes (k : nat) : reads (bytes k) (Z.of_nat k).
Proof.
  apply (reads_eq _ (Z.of_nat k * 1)); [|lia].
  apply reads_times; [exact reads_next_byte | lia].
Qed.

Lemma reads_big_endian_16 : reads read_big_endian_16 2.
Proof.
  unfold read_big_endian_16.
  reads_then 1 1; [exact reads_next_byte|].
  reads_then 1 0; [exact reads_next_byte|].
  apply reads_ret.
Qed.

Lemma reads_sample : reads read_sample 30.
Proof.
  unfold read_sample.
  reads_then 22 8; [exact (reads_bytes 22)|].
  reads_then 2 6; [exact reads_big_endian_16|].
  reads_then 1 5; [exact reads_next_byte|].
  reads_then 1 4; [exact reads_next_byte|].
  reads_then 2 2; [exact reads_big_endian_16|].
  reads_then 2 0; [exact reads_big_endian_16|].
  apply reads_ret.
Qed.

Lemma reads_note : reads read_note 4.
Proof.
  unfold read_note.
  reads_then 1 3; [exact reads_next_byte|].
  reads_then 1 2; [exact reads_next_byte|].
  reads_then 1 1; [exact reads_next_byte|].
  reads_then 1 0; [exact reads_next_byte|].
  apply reads_ret.
Qed.

Lemma reads_header : reads read_header 1084.
Proof.
  unfold read_header.
  reads_then 20 1064; [exact (reads_bytes 20)|].
  reads_then 930 134.
  { apply (reads_eq _ (Z.of_nat (Z.to_nat MAX_SAMPLES) * 30));
      [|reflexivity].
    apply reads_times; [exact reads_sample | lia]. }
  reads_then 1 133; [exact reads_next_byte|].
  reads_then 1 132; [exact (reads_skip 1)|].
  reads_then 128 4; [exact (reads_bytes 128)|].
  reads_then 4 0; [exact (reads_skip 4)|].
  apply reads_ret.
Qed.

Lemma times_length {A : Type} (m : reader A) (k : nat) :
  forall (data : list Z) (ptr ptr' : Z) (l : list A),
  times k m data ptr = Done (l, ptr') -> length l = k.
Proof.
  induction k as [|k IH]; intros data ptr ptr' l; simpl times.
  - unfold ret. intros [= <- _]. reflexivity.
  - unfold bind at 1. destruct (m data ptr) as [[a p1]|]; [|discriminate].
    unfold bind at 1.
    destruct (times k m data p1) as [[rest p2]|] eqn:Hrest; [|discriminate].
    unfold ret. intros [= <- _]. simpl. f_equal. exact (IH _ _ _ _ Hrest).
Qed.

(** C9 (as the code has it).  The loader never looks at the length it is
    given.  It returns 0, and the task is then deleted without playback, only
    when the allocation of the pattern memory fails.  On a blob that holds the
    1084 bytes of the header, the header is read inside the blob; when
    moreover the song length does not run past the position table and the
    blob holds the 1024 bytes of every pattern the header declares, all reads
    are inside the blob and the loader succeeds with that many patterns if the
    allocation does, and returns 0 if it does not. *)
Theorem load_within_bounds (data : list Z) (data_len : Z) :
  (forall l : Z, load_mod_embedded data l = load_mod_embedded data data_len) /\
  (load_mod_embedded data data_len = LoadFailed ->
   exists size : Z, malloc size = false) /\
  (1084 <= Z.of_nat (length data) ->
   exists h : header,
     read_header data 0 = Done (h, 1084) /\
     forall highest : Z,
       highest_pattern (hdr_positions h) 0 (Z.to_nat (hdr_song_length h)) 0
         = Some highest ->
       let count := u8 (highest + 1) in
       1084 + 1024 * count <= Z.of_nat (length data) ->
       if malloc (count * ROWS_PER_PATTERN * NUM_CHANNELS * sizeof_Note)
       then exists m : MODFile,
              load_mod_embedded data data_len = Loaded m /\
              modplayer_task_start data data_len = Playing m player_start /\
              num_patterns m = count /\
              length (patterns m) = Z.to_nat (count * 256)
       else load_mod_embedded data data_len = LoadFailed /\
            modplayer_task_start data data_len = TaskDeleted).
Proof.
  split; [reflexivity|]. split; [|intros Hlen].
  - unfold load_mod_embedded.
    destruct (read_header data 0) as [[h ptr]|]; [|discriminate].
    destruct (highest_pattern _ _ _ _) as [highest|]; [|discriminate].
    destruct (malloc _) eqn:Hm; [|intros _; eexists; exact Hm].
    destruct (times _ _ _ _) as [[notes ptr']|]; discriminate.
  - destruct (reads_header data 0 ltac:(lia) ltac:(lia)) as [h Hh].
    exists h. split; [exact Hh|].
    intros highest Hhigh count Hfull.
    unfold modplayer_task_start, load_mod_embedded.
    rewrite Hh, Hhigh. fold count.
    assert (Hc : 0 <= count) by (apply Z.mod_pos_bound; lia).
    destruct (malloc _); [|split; reflexivity].
    destruct (reads_times read_note 4
                (Z.to_nat (count * ROWS_PER_PATTERN * NUM_CHANNELS))
                reads_note ltac:(lia) data (0 + 1084) ltac:(lia))
      as [notes Hnotes].
    { unfold ROWS_PER_PATTERN, NUM_CHANNELS. lia. }
    rewrite Hnotes. eexists. split; [reflexivity|]. split; [reflexivity|].
    split; [reflexivity|]. simpl.
    rewrite (times_length _ _ _ _ _ _ Hnotes).
    unfold ROWS_PER_PATTERN, NUM_CHANNELS. f_equal. lia.
Qed.

(** *** Properties of rows and ticks *)


Lemma quot_Qfloor (a b : Z) :
  0 <= a -> 0 < b -> Z.quot a b = Qfloor (inject_Z a / inject_Z b).
Proof.
  intros Ha Hb. rewrite Z.quot_div_nonneg by lia.
  destruct b as [|b|b]; try lia.
  unfold Qdiv, Qinv, inject_Z, Qmult, Qfloor. simpl.
  now rewrite Z.mul_1_r.
Qed.

Lemma check_effects_tempo_ok (channels : list ChannelState) (p : player) :
  tempo_ok p -> tempo_ok (check_effects channels p).
Proof.
  revert p. induction channels as [|ch rest IH]; intros p Hp; simpl.
  - exact Hp.
  - destruct (chan_effect ch =? 13); [exact Hp|].
    destruct ((chan_effect ch =? 15) && (chan_param ch <=? 31)).
    + apply IH. destruct (0 <? chan_param ch); exact Hp.
    + destruct ((chan_effect ch =? 15) && (32 <=? chan_param ch));
        apply IH; [reflexivity | exact Hp].
Qed.

Lemma next_tick_tempo_ok (len : Z) (p : player) :
  tempo_ok p -> tempo_ok (next_tick len p).
Proof.
  intros Hp. unfold next_tick.
  destruct (_ <=? _); [destruct (_ <=? _)|]; exact Hp.
Qed.

Lemma play_tick_player (m : MODFile) (data : list Z)
    (channels : list ChannelState) (p : player) (rb : RingBuffer.ring) :
  snd (fst (play_tick m data (channels, p, rb))) =
  next_tick (song_length m)
    (if current_tick p =? 0
     then check_effects (process_row m channels (position p) (row p)) p
     else p).
Proof. unfold play_tick. destruct (current_tick p =? 0); reflexivity. Qed.

Lemma playback_tempo_ok (m : MODFile) (data : list Z) (n : nat) :
  tempo_ok (snd (fst (playback m data n))).
Proof.
  unfold playback. induction n as [|n IH]; simpl.
  - reflexivity.
  - destruct (Nat.iter n _ _) as [[channels p] rb]. simpl in IH.
    rewrite play_tick_player. apply next_tick_tempo_ok.
    destruct (current_tick p =? 0); [|exact IH].
    now apply check_effects_tempo_ok.
Qed.

(** C6.  Tempo arithmetic.  [calculate_tick_samples] is the integer part of
    [(2500 * 22050) / (tempo * 1000)] for every positive tempo: 441 at tempo
    125 and 220 at tempo 250.  A tempo-setting effect (0xF with a parameter of
    at least 0x20) replaces the tempo by its parameter and the samples per
    tick by [calculate_tick_samples] of it; the effect loop keeps the samples
    per tick equal to [calculate_tick_samples] of the tempo, and so does
    playback from its start, after any number of ticks. *)
Theorem tick_samples :
  calculate_tick_samples 125 = 441 /\
  calculate_tick_samples 250 = 220 /\
  (forall t : Z, 0 < t ->
     calculate_tick_samples t =
     Qfloor (inject_Z (2500 * 22050) / inject_Z (t * 1000))) /\
  (forall (ch : ChannelState) (rest : list ChannelState) (p : player),
     chan_effect ch = 15 -> 32 <= chan_param ch ->
     check_effects (ch :: rest) p =
     check_effects rest
       (MkPlayer (position p) (row p) (ticks_per_row p) (current_tick p)
                 (chan_param ch) (calculate_tick_samples (chan_param ch)))) /\
  (forall (channels : list ChannelState) (p : player),
     samples_per_tick p = calculate_tick_samples (tempo p) ->
     samples_per_tick (check_effects channels p) =
     calculate_tick_samples (tempo (check_effects channels p))) /\
  (forall (m : MODFile) (data : list Z) (n : nat),
     samples_per_tick (snd (fst (playback m data n))) =
     calculate_tick_samples (tempo (snd (fst (playback m data n))))).
Proof.
  split; [reflexivity|]. split; [reflexivity|]. split; [|split; [|split]].
  - intros t Ht. unfold calculate_tick_samples, SAMPLE_RATE.
    apply quot_Qfloor; lia.
  - intros ch rest p He Hp. simpl. rewrite He.
    change (15 =? 13) with false. change (15 =? 15) with true.
    rewrite (proj2 (Z.leb_gt (chan_param ch) 31)) by lia.
    rewrite (proj2 (Z.leb_le 32 (chan_param ch))) by lia.
    reflexivity.
  - exact check_effects_tempo_ok.
  - exact playback_tempo_ok.
Qed.

(** The sequencer in a first row without pattern break, speed or tempo
    effect. *)
Lemma process_note_effect (m : MODFile) (ch : ChannelState) (note : Note) :
  chan_effect (process_note m ch note) = note_effect note.
Proof.
  unfold process_note.
  destruct (_ && _); destruct (_ && _); destruct (0 <? _); reflexivity.
Qed.

Lemma check_effects_quiet (channels : list ChannelState) (p : player) :
  Forall (fun ch => chan_effect ch <> 13 /\ chan_effect ch <> 15) channels ->
  check_effects channels p = p.
Proof.
  intros H. induction H as [|ch rest [H13 H15] _ IH]; simpl; [reflexivity|].
  rewrite (proj2 (Z.eqb_neq _ _) H13), (proj2 (Z.eqb_neq _ _) H15). simpl.
  exact IH.
Qed.

Lemma process_row_quiet (m : MODFile) (channels : list ChannelState)
    (position row : Z) :
  (forall c : nat, (c < length channels)%nat ->
     note_effect (cell m position row c) <> 13 /\
     note_effect (cell m position row c) <> 15) ->
  Forall (fun ch => chan_effect ch <> 13 /\ chan_effect ch <> 15)
         (process_row m channels position row).
Proof.
  intros H. apply Forall_lookup. intros c ch Hc.
  unfold process_row in Hc. rewrite list_lookup_imap in Hc.
  destruct (channels !! c) as [ch0|] eqn:Hc0; [|discriminate].
  injection Hc as <-. rewrite process_note_effect.
  apply H. exact (lookup_lt_Some _ _ _ Hc0).
Qed.

Lemma mix_sample_length (m : MODFile) (data : list Z)
    (channels : list ChannelState) :
  length (fst (mix_sample m data channels)) = length channels.
Proof.
  unfold mix_sample. simpl.
  assert (H : forall acc : list ChannelState * Z,
            length (fst (fold_left
                           (fun acc ch =>
                              (fst acc ++ [fst (mix_channel m data ch)],
                               snd acc + snd (mix_channel m data ch)))
                           channels acc))
            = (length (fst acc) + length channels)%nat).
  { induction channels as [|ch rest IH]; intros acc; simpl; [lia|].
    rewrite IH. simpl. rewrite length_app. simpl. lia. }
  now rewrite H.
Qed.

Lemma process_tick_length (m : MODFile) (data : list Z) (n : nat) :
  forall channels : list ChannelState,
  length (fst (process_tick m data channels n)) = length channels.
Proof.
  induction n as [|n IH]; intros channels; [reflexivity|].
  cbn [process_tick fst snd]. rewrite IH. apply mix_sample_length.
Qed.

Lemma play_tick_channels (m : MODFile) (data : list Z)
    (channels : list ChannelState) (p : player) (rb : RingBuffer.ring) :
  length (fst (fst (play_tick m data (channels, p, rb)))) = length channels.
Proof.
  unfold play_tick. destruct (current_tick p =? 0); simpl;
    rewrite process_tick_length; [|reflexivity].
  unfold process_row. apply length_imap.
Qed.

Lemma playback_channels (m : MODFile) (data : list Z) (n : nat) :
  length (fst (fst (playback m data n))) = 4%nat.
Proof.
  unfold playback. induction n as [|n IH]; simpl; [reflexivity|].
  destruct (Nat.iter n _ _) as [[channels p] rb]. simpl in IH.
  now rewrite play_tick_channels.
Qed.

(** C7 on the code.  Playback starts at tempo 125 but with 5 ticks per row,
    not 6: when the first row carries no pattern break and no speed or tempo
    effect, the sequencer is still in row 0 after each of the first four turns
    of the loop and in row 1 after the fifth. *)
Theorem first_row_ticks (m : MODFile) (data : list Z) :
  (forall c : nat, (c < 4)%nat ->
     note_effect (cell m 0 0 c) <> 13 /\ note_effect (cell m 0 0 c) <> 15) ->
  tempo player_start = 125 /\
  ticks_per_row player_start = 5 /\
  (forall n : nat, (n < 5)%nat ->
     snd (fst (playback m data n)) = MkPlayer 0 0 5 (Z.of_nat n) 125 441) /\
  snd (fst (playback m data 5)) = MkPlayer 0 1 5 0 125 441.
Proof.
  intros Hquiet.
  assert (Hstep : forall n : nat, (n < 5)%nat ->
            snd (fst (playback m data n)) = MkPlayer 0 0 5 (Z.of_nat n) 125 441 ->
            snd (fst (playback m data (S n))) =
            next_tick (song_length m) (MkPlayer 0 0 5 (Z.of_nat n) 125 441)).
  { intros n Hn Hp. pose proof (playback_channels m data n) as Hlen.
    unfold playback in *. simpl.
    destruct (Nat.iter n _ _) as [[channels p] rb]. simpl in Hp, Hlen.
    rewrite play_tick_player. subst p. simpl.
    destruct (Z.of_nat n =? 0); [|reflexivity].
    rewrite check_effects_quiet; [reflexivity|].
    apply process_row_quiet. rewrite Hlen. exact Hquiet. }
  assert (Hrow0 : forall n : nat, (n < 5)%nat ->
            snd (fst (playback m data n)) = MkPlayer 0 0 5 (Z.of_nat n) 125 441).
  { induction n as [|n IH]; intros Hn; [reflexivity|].
    rewrite (Hstep n ltac:(lia) (IH ltac:(lia))).
    unfold next_tick. simpl.
    rewrite (proj2 (Z.leb_gt 5 (Z.of_nat n + 1))) by lia.
    f_equal. lia. }
  split; [reflexivity|]. split; [reflexivity|]. split; [exact Hrow0|].
  rewrite (Hstep 4%nat ltac:(lia) (Hrow0 4%nat ltac:(lia))). reflexivity.
Qed.

(** *** The layout of a module

    Where in the blob the loader finds what it returns.  [byte_at] and
    [word_at] read the blob at an absolute offset; they are used to state the
    layout and are no part of the program. *)

Definition is_byte (b : Z) : Prop := 0 <= b < 256.

Definition byte_at (data : list Z) (offset : Z) : Z :=
  default 0 (data !! Z.to_nat offset).

Definition word_at (data : list Z) (offset : Z) : Z :=
  256 * byte_at data offset + byte_at data (offset + 1).

(** The lengths of the payloads of the samples before the [k]-th. *)
Fixpoint lengths_before (ss : list Sample) (k : nat) : Z :=
  match k, ss with
  | S k, s :: ss => sample_length s + lengths_before ss k
  | _, _ => 0
  end.

(** [advances m n]: when [m] succeeds it has moved the pointer by [n]. *)
Definition advances {A : Type} (m : reader A) (n : Z) : Prop :=
  forall (data : list Z) (ptr : Z) (a : A) (ptr' : Z),
    m data ptr = Done (a, ptr') -> ptr' = ptr + n.

Lemma bind_Done {A B : Type} (m : reader A) (k : A -> reader B)
    (data : list Z) (ptr : Z) (r : B * Z) :
  bind m k data ptr = Done r ->
  exists (a : A) (p : Z), m data ptr = Done (a, p) /\ k a data p = Done r.
Proof.
  unfold bind. destruct (m data ptr) as [[a p]|]; [|discriminate].
  intros H. now exists a, p.
Qed.

Lemma ret_Done {A : Type} (a b : A) (data : list Z) (ptr p : Z) :
  ret a data ptr = Done (b, p) -> b = a /\ p = ptr.
Proof. unfold ret. now intros [= <- <-]. Qed.

Lemma next_byte_Done (data : list Z) (ptr b p : Z) :
  next_byte data ptr = Done (b, p) ->
  data !! Z.to_nat ptr = Some b /\ p = ptr + 1.
Proof.
  unfold next_byte. destruct (data !! Z.to_nat ptr) as [x|]; [|discriminate].
  now intros [= <- <-].
Qed.

Lemma byte_at_Some (data : list Z) (offset b : Z) :
  data !! Z.to_nat offset = Some b -> byte_at data offset = b.
Proof. unfold byte_at. now intros ->. Qed.

Lemma times_Done {A : Type} (m : reader A) (n : Z) (k : nat) :
  advances m n ->
  forall (data : list Z) (ptr : Z) (l : list A) (ptr' : Z),
  times k m data ptr = Done (l, ptr') ->
  ptr' = ptr + Z.of_nat k * n /\
  forall (i : nat) (a : A),
    l !! i = Some a ->
    m data (ptr + Z.of_nat i * n) = Done (a, ptr + Z.of_nat i * n + n).
Proof.
  intros Hm. induction k as [|k IH]; intros data ptr l ptr' H.
  - simpl times in H. apply ret_Done in H. destruct H as [-> ->].
    split; [lia|]. intros i a Hi. discriminate.
  - simpl times in H.
    apply bind_Done in H. destruct H as (a & p1 & Ha & H).
    apply bind_Done in H. destruct H as (rest & p2 & Hrest & H).
    apply ret_Done in H. destruct H as [-> ->].
    pose proof (Hm _ _ _ _ Ha) as ->.
    destruct (IH _ _ _ _ Hrest) as [-> Hl]. split; [lia|].
    intros [|i] b Hi; simpl in Hi.
    + injection Hi as <-. rewrite Z.add_0_r. exact Ha.
    + specialize (Hl i b Hi).
      replace (ptr + Z.of_nat (S i) * n) with (ptr + n + Z.of_nat i * n)
        by lia.
      exact Hl.
Qed.

Lemma advances_next_byte : advances next_byte 1.
Proof. intros data ptr a p H. now apply next_byte_Done in H. Qed.

Lemma bytes_Done (k : nat) :
  forall (data : list Z) (ptr : Z) (l : list Z) (p : Z),
  0 <= ptr -> bytes k data ptr = Done (l, p) ->
  p = ptr + Z.of_nat k /\ l = take k (drop (Z.to_nat ptr) data) /\
  length l = k.
Proof.
  induction k as [|k IH]; intros data ptr l p Hptr H.
  - unfold bytes in H. simpl times in H.
    apply ret_Done in H. destruct H as [-> ->].
    split; [lia|]. now rewrite take_0.
  - unfold bytes in H. simpl times in H.
    apply bind_Done in H. destruct H as (b & p1 & Hb & H).
    apply bind_Done in H. destruct H as (rest & p2 & Hrest & H).
    apply ret_Done in H. destruct H as [-> ->].
    apply next_byte_Done in Hb. destruct Hb as [Hb ->].
    destruct (IH data (ptr + 1) rest p2 ltac:(lia) Hrest)
      as (-> & -> & Hlen).
    split; [lia|]. split; [|simpl; now rewrite Hlen].
    rewrite (drop_S _ _ _ Hb). simpl.
    replace (Z.to_nat (ptr + 1)) with (S (Z.to_nat ptr)) by lia.
    reflexivity.
Qed.

Lemma big_endian_Done (data : list Z) (ptr v p : Z) :
  0 <= ptr -> read_big_endian_16 data ptr = Done (v, p) ->
  exists d0 d1 : Z,
    data !! Z.to_nat ptr = Some d0 /\ data !! Z.to_nat (ptr + 1) = Some d1 /\
    v = u16 (Z.lor (Z.shiftl d0 8) d1) /\ p = ptr + 2.
Proof.
  intros Hptr H. unfold read_big_endian_16 in H.
  apply bind_Done in H. destruct H as (d0 & p1 & H0 & H).
  apply bind_Done in H. destruct H as (d1 & p2 & H1 & H).
  apply ret_Done in H. destruct H as [-> ->].
  apply next_byte_Done in H0. destruct H0 as [H0 ->].
  apply next_byte_Done in H1. destruct H1 as [H1 ->].
  exists d0, d1. repeat split; try assumption. lia.
Qed.

(** Bit fields as arithmetic. *)
Lemma lor_shiftl_add (a b n : Z) :
  0 <= n -> 0 <= b < 2 ^ n -> Z.lor (Z.shiftl a n) b = a * 2 ^ n + b.
Proof.
  intros Hn Hb. rewrite <- Z.shiftl_mul_pow2 by exact Hn.
  symmetry. apply Z.add_nocarry_lor.
  apply Z.bits_inj'. intros i Hi. rewrite Z.land_spec, Z.bits_0.
  destruct (Z_lt_le_dec i n) as [Hlt | Hge].
  - now rewrite Z.shiftl_spec_low.
  - assert (Hbi : Z.testbit b i = false).
    { apply Z.testbit_false; [exact Hi|].
      rewrite Z.div_small; [reflexivity|].
      split; [lia|]. apply Z.lt_le_trans with (2 ^ n); [lia|].
      apply Z.pow_le_mono_r; lia. }
    rewrite Hbi. apply andb_false_r.
Qed.

Lemma land_high_nibble (b : Z) :
  is_byte b -> Z.land b 240 = Z.shiftl (b / 16) 4.
Proof.
  intros Hb. apply Z.bits_inj'. intros i Hi.
  rewrite Z.land_spec.
  destruct (Z_lt_le_dec i 4) as [Hlt | Hge].
  - rewrite Z.shiftl_spec_low by exact Hlt.
    assert (H : Z.testbit 240 i = false).
    { assert (Hc : i = 0 \/ i = 1 \/ i = 2 \/ i = 3) by lia.
      destruct Hc as [-> | [-> | [-> | ->]]]; reflexivity. }
    rewrite H. apply andb_false_r.
  - rewrite Z.shiftl_spec by exact Hi.
    change 16 with (2 ^ 4). rewrite <- Z.shiftr_div_pow2 by lia.
    rewrite Z.shiftr_spec by lia.
    replace (i - 4 + 4) with i by lia.
    destruct (Z_lt_le_dec i 8) as [Hlt8 | Hge8].
    + assert (H : Z.testbit 240 i = true).
      { assert (Hc : i = 4 \/ i = 5 \/ i = 6 \/ i = 7) by lia.
        destruct Hc as [-> | [-> | [-> | ->]]]; reflexivity. }
      rewrite H. apply andb_true_r.
    + assert (H : Z.testbit b i = false).
      { apply Z.testbit_false; [exact Hi|].
        rewrite Z.div_small; [reflexivity|].
        destruct Hb as [Hb0 Hb1]. split; [exact Hb0|].
        apply Z.lt_le_trans with (2 ^ 8); [exact Hb1|].
        apply Z.pow_le_mono_r; lia. }
      now rewrite H.
Qed.

Lemma big_endian_value (d0 d1 : Z) :
  is_byte d0 -> is_byte d1 ->
  u16 (Z.lor (Z.shiftl d0 8) d1) = 256 * d0 + d1.
Proof.
  intros [H0 H0'] [H1 H1'].
  rewrite lor_shiftl_add by (change (2 ^ 8) with 256; lia).
  change (2 ^ 8) with 256. unfold u16. change (2 ^ 16) with 65536.
  rewrite Z.mod_small; lia.
Qed.

(** The decoding of the four bytes of a cell, in arithmetic. *)
Definition decode_note (b0 b1 b2 b3 : Z) : Note :=
  MkNote (16 * (b0 / 16) + b2 / 16) (256 * (b0 mod 16) + b1) (b2 mod 16) b3.

Lemma read_note_value (data : list Z) (ptr : Z) (note : Note) (p : Z) :
  0 <= ptr -> Forall is_byte data ->
  read_note data ptr = Done (note, p) ->
  p = ptr + 4 /\
  is_Some (data !! Z.to_nat (ptr + 3)) /\
  note = decode_note (byte_at data ptr) (byte_at data (ptr + 1))
                     (byte_at data (ptr + 2)) (byte_at data (ptr + 3)).
Proof.
  intros Hptr Hbytes H. unfold read_note in H.
  apply bind_Done in H. destruct H as (b0 & p0 & H0 & H).
  apply bind_Done in H. destruct H as (b1 & p1 & H1 & H).
  apply bind_Done in H. destruct H as (b2 & p2 & H2 & H).
  apply bind_Done in H. destruct H as (b3 & p3 & H3 & H).
  apply ret_Done in H. destruct H as [-> ->].
  apply next_byte_Done in H0. destruct H0 as [H0 ->].
  apply next_byte_Done in H1. destruct H1 as [H1 ->].
  apply next_byte_Done in H2. destruct H2 as [H2 ->].
  apply next_byte_Done in H3. destruct H3 as [H3 ->].
  replace (ptr + 1 + 1) with (ptr + 2) in * by lia.
  replace (ptr + 2 + 1) with (ptr + 3) in * by lia.
  split; [lia|]. split; [now rewrite H3|].
  rewrite (byte_at_Some _ _ _ H0), (byte_at_Some _ _ _ H1),
    (byte_at_Some _ _ _ H2), (byte_at_Some _ _ _ H3).
  pose proof (Forall_lookup_1 _ _ _ _ Hbytes H0) as B0.
  pose proof (Forall_lookup_1 _ _ _ _ Hbytes H1) as B1.
  pose proof (Forall_lookup_1 _ _ _ _ Hbytes H2) as B2.
  unfold decode_note. f_equal.
  - rewrite (land_high_nibble b0 B0).
    rewrite lor_shiftl_add.
    + change (2 ^ 4) with 16. unfold u8. change (2 ^ 8) with 256.
      unfold is_byte in *.
      rewrite Z.shiftr_div_pow2 by lia. change (2 ^ 4) with 16.
      rewrite Z.mod_small; [lia|].
      assert (0 <= b0 / 16 < 16)
        by (split; [apply Z.div_pos; lia | apply Z.div_lt_upper_bound; lia]).
      assert (0 <= b2 / 16 < 16)
        by (split; [apply Z.div_pos; lia | apply Z.div_lt_upper_bound; lia]).
      lia.
    + lia.
    + unfold is_byte in *. rewrite Z.shiftr_div_pow2 by lia.
      change (2 ^ 4) with 16.
      split; [apply Z.div_pos; lia | apply Z.div_lt_upper_bound; lia].
  - change 15 with (Z.ones 4). rewrite Z.land_ones by lia.
    change (2 ^ 4) with 16.
    rewrite lor_shiftl_add by (unfold is_byte in *; change (2 ^ 8) with 256; lia).
    change (2 ^ 8) with 256. lia.
  - change 15 with (Z.ones 4). rewrite Z.land_ones by lia. reflexivity.
Qed.

Lemma advances_read_note : advances read_note 4.
Proof.
  intros data ptr a p H. unfold read_note in H.
  apply bind_Done in H. destruct H as (b0 & p0 & H0 & H).
  apply bind_Done in H. destruct H as (b1 & p1 & H1 & H).
  apply bind_Done in H. destruct H as (b2 & p2 & H2 & H).
  apply bind_Done in H. destruct H as (b3 & p3 & H3 & H).
  apply ret_Done in H. destruct H as [_ ->].
  apply next_byte_Done in H0. destruct H0 as [_ ->].
  apply next_byte_Done in H1. destruct H1 as [_ ->].
  apply next_byte_Done in H2. destruct H2 as [_ ->].
  apply next_byte_Done in H3. destruct H3 as [_ ->].
  lia.
Qed.

(** A sample header as the bytes at [base] give it. *)
Definition decode_sample (data : list Z) (base : Z) : Sample :=
  MkSample (take 21 (drop (Z.to_nat base) data) ++ [0])
           ((2 * word_at data (base + 22)) mod 65536)
           (byte_at data (base + 24))
           (byte_at data (base + 25))
           ((2 * word_at data (base + 26)) mod 65536)
           ((2 * word_at data (base + 28)) mod 65536)
           None.

Lemma read_sample_value (data : list Z) (ptr : Z) (s : Sample) (p : Z) :
  0 <= ptr -> Forall is_byte data ->
  read_sample data ptr = Done (s, p) ->
  p = ptr + 30 /\ s = decode_sample data ptr.
Proof.
  intros Hptr Hbytes H. unfold read_sample in H.
  apply bind_Done in H. destruct H as (name & p0 & Hname & H).
  apply bind_Done in H. destruct H as (len & p1 & Hlen & H).
  apply bind_Done in H. destruct H as (ft & p2 & Hft & H).
  apply bind_Done in H. destruct H as (vol & p3 & Hvol & H).
  apply bind_Done in H. destruct H as (rp & p4 & Hrp & H).
  apply bind_Done in H. destruct H as (rl & p5 & Hrl & H).
  apply ret_Done in H. destruct H as [-> ->].
  apply bytes_Done in Hname; [|exact Hptr].
  destruct Hname as (-> & -> & _).
  apply big_endian_Done in Hlen; [|lia].
  destruct Hlen as (l0 & l1 & Hl0 & Hl1 & -> & ->).
  apply next_byte_Done in Hft. destruct Hft as [Hft ->].
  apply next_byte_Done in Hvol. destruct Hvol as [Hvol ->].
  apply big_endian_Done in Hrp; [|lia].
  destruct Hrp as (r0 & r1 & Hr0 & Hr1 & -> & ->).
  apply big_endian_Done in Hrl; [|lia].
  destruct Hrl as (q0 & q1 & Hq0 & Hq1 & -> & ->).
  change (Z.of_nat 22) with 22 in *.
  split; [lia|]. unfold decode_sample, word_at.
  replace (ptr + 22 + 2) with (ptr + 24) in * by lia.
  replace (ptr + 24 + 1) with (ptr + 25) in * by lia.
  replace (ptr + 25 + 1) with (ptr + 26) in * by lia.
  replace (ptr + 26 + 2) with (ptr + 28) in * by lia.
  rewrite (byte_at_Some _ _ _ Hl0), (byte_at_Some _ _ _ Hl1),
    (byte_at_Some _ _ _ Hft), (byte_at_Some _ _ _ Hvol),
    (byte_at_Some _ _ _ Hr0), (byte_at_Some _ _ _ Hr1),
    (byte_at_Some _ _ _ Hq0), (byte_at_Some _ _ _ Hq1).
  rewrite !big_endian_value
    by (eapply Forall_lookup_1; [exact Hbytes | eassumption]).
  rewrite take_take. unfold u16. change (2 ^ 16) with 65536.
  f_equal; f_equal; lia.
Qed.

Lemma advances_read_sample : advances read_sample 30.
Proof.
  intros data ptr s p H. unfold read_sample in H.
  apply bind_Done in H. destruct H as (name & p0 & Hname & H).
  apply bind_Done in H. destruct H as (len & p1 & Hlen & H).
  apply bind_Done in H. destruct H as (ft & p2 & Hft & H).
  apply bind_Done in H. destruct H as (vol & p3 & Hvol & H).
  apply bind_Done in H. destruct H as (rp & p4 & Hrp & H).
  apply bind_Done in H. destruct H as (rl & p5 & Hrl & H).
  apply ret_Done in H. destruct H as [_ ->].
  pose proof (proj1 (times_Done next_byte 1 22 advances_next_byte
                       _ _ _ _ Hname)) as ->.
  assert (Hbe : advances read_big_endian_16 2).
  { intros d q v q' Hv. unfold read_big_endian_16 in Hv.
    apply bind_Done in Hv. destruct Hv as (d0 & q0 & H0 & Hv).
    apply bind_Done in Hv. destruct Hv as (d1 & q1 & H1 & Hv).
    apply ret_Done in Hv. destruct Hv as [_ ->].
    apply next_byte_Done in H0. destruct H0 as [_ ->].
    apply next_byte_Done in H1. destruct H1 as [_ ->]. lia. }
  pose proof (Hbe _ _ _ _ Hlen) as ->.
  apply next_byte_Done in Hft. destruct Hft as [_ ->].
  apply next_byte_Done in Hvol. destruct Hvol as [_ ->].
  pose proof (Hbe _ _ _ _ Hrp) as ->.
  pose proof (Hbe _ _ _ _ Hrl) as ->.
  lia.
Qed.

(** What a successful [read_header] has read, and from where. *)
Lemma read_header_value (data : list Z) (h : header) (p : Z) :
  read_header data 0 = Done (h, p) ->
  p = 1084 /\
  hdr_title h = take 20 data ++ [0] /\
  data !! 950%nat = Some (hdr_song_length h) /\
  hdr_positions h = take 128 (drop 952 data) /\
  length (hdr_positions h) = 128%nat /\
  length (hdr_samples h) = 31%nat /\
  forall (k : nat) (s : Sample),
    hdr_samples h !! k = Some s ->
    read_sample data (20 + 30 * Z.of_nat k)
      = Done (s, 20 + 30 * Z.of_nat k + 30).
Proof.
  intros H. unfold read_header in H.
  apply bind_Done in H. destruct H as (t & p0 & Ht & H).
  apply bind_Done in H. destruct H as (ss & p1 & Hss & H).
  apply bind_Done in H. destruct H as (len & p2 & Hlen & H).
  apply bind_Done in H. destruct H as (u1 & p3 & Hu1 & H).
  apply bind_Done in H. destruct H as (pos & p4 & Hpos & H).
  apply bind_Done in H. destruct H as (u2 & p5 & Hu2 & H).
  apply ret_Done in H. destruct H as [-> ->].
  apply bytes_Done in Ht; [|lia]. destruct Ht as (-> & -> & _).
  pose proof (times_length _ _ _ _ _ _ Hss) as Hsslen.
  destruct (times_Done read_sample 30 _ advances_read_sample _ _ _ _ Hss)
    as [-> Hsamples].
  apply next_byte_Done in Hlen. destruct Hlen as [Hlen ->].
  unfold skip in Hu1. injection Hu1 as _ <-.
  apply bytes_Done in Hpos; [|unfold MAX_SAMPLES; lia].
  destruct Hpos as (-> & -> & Hposlen).
  unfold skip in Hu2. injection Hu2 as _ <-.
  unfold MAX_SAMPLES in *. simpl.
  split; [reflexivity|]. split; [reflexivity|].
  split; [exact Hlen|]. split; [reflexivity|].
  split; [exact Hposlen|]. split; [exact Hsslen|].
  intros k s Hk. specialize (Hsamples k s Hk).
  replace (20 + 30 * Z.of_nat k) with (0 + Z.of_nat 20 + Z.of_nat k * 30)
    by lia.
  exact Hsamples.
Qed.

(** A successful load, taken apart. *)
Lemma load_Loaded (data : list Z) (data_len : Z) (m : MODFile) :
  load_mod_embedded data data_len = Loaded m ->
  exists (h : header) (highest p : Z),
    read_header data 0 = Done (h, 1084) /\
    highest_pattern (hdr_positions h) 0 (Z.to_nat (hdr_song_length h)) 0
      = Some highest /\
    times (Z.to_nat (u8 (highest + 1) * ROWS_PER_PATTERN * NUM_CHANNELS))
          read_note data 1084 = Done (patterns m, p) /\
    m = MkMODFile (hdr_title h) (set_sample_data (hdr_samples h) p)
                  (hdr_song_length h) (hdr_positions h)
                  (u8 (highest + 1)) (patterns m) /\
    p = 1084 + 1024 * u8 (highest + 1).
Proof.
  unfold load_mod_embedded.
  destruct (read_header data 0) as [[h ptr]|] eqn:Hh; [|discriminate].
  destruct (highest_pattern _ _ _ _) as [highest|] eqn:Hhigh; [|discriminate].
  destruct (malloc _); [|discriminate].
  destruct (times _ _ _ _) as [[notes p]|] eqn:Hnotes; [|discriminate].
  intros [= <-]. simpl.
  pose proof (proj1 (read_header_value _ _ _ Hh)) as ->.
  exists h, highest, p. repeat split; try assumption.
  pose proof (proj1 (times_Done read_note 4 _ advances_read_note
                       _ _ _ _ Hnotes)) as ->.
  assert (0 <= u8 (highest + 1)) by (apply Z.mod_pos_bound; lia).
  unfold ROWS_PER_PATTERN, NUM_CHANNELS. lia.
Qed.

Lemma set_sample_data_lookup (ss : list Sample) :
  forall (ptr : Z) (k : nat) (s : Sample),
  Forall (fun s => 0 <= sample_length s) ss ->
  set_sample_data ss ptr !! k = Some s ->
  exists s0 : Sample,
    ss !! k = Some s0 /\
    s = MkSample (sample_name s0) (sample_length s0) (sample_finetune s0)
                 (sample_volume s0) (sample_repeat_point s0)
                 (sample_repeat_length s0)
                 (if 0 <? sample_length s0
                  then Some (ptr + lengths_before ss k)
                  else sample_data s0).
Proof.
  induction ss as [|s0 ss IH]; intros ptr k s Hpos Hk; [discriminate|].
  inversion Hpos as [|? ? Hs0 Hpos']; subst.
  simpl in Hk. destruct k as [|k].
  - exists s0. split; [reflexivity|].
    simpl lengths_before. rewrite Z.add_0_r.
    destruct (0 <? sample_length s0); simpl in Hk; injection Hk as <-;
      [reflexivity | now destruct s0].
  - assert (Hk' : set_sample_data ss
                    (if 0 <? sample_length s0
                     then ptr + sample_length s0 else ptr) !! k = Some s)
      by (destruct (0 <? sample_length s0); exact Hk).
    destruct (IH _ _ _ Hpos' Hk') as (s1 & Hs1 & ->).
    exists s1. split; [exact Hs1|]. f_equal.
    destruct (0 <? sample_length s1); [|reflexivity]. f_equal.
    change (lengths_before (s0 :: ss) (S k))
      with (sample_length s0 + lengths_before ss k).
    destruct (Z.ltb_spec 0 (sample_length s0)); lia.
Qed.

Lemma set_sample_data_length (ss : list Sample) :
  forall ptr : Z, length (set_sample_data ss ptr) = length ss.
Proof.
  induction ss as [|s ss IH]; intros ptr; simpl; [reflexivity|].
  destruct (0 <? sample_length s); simpl; now rewrite IH.
Qed.

Lemma lengths_before_mono (ss : list Sample) (k : nat) :
  Forall (fun s => 0 <= sample_length s) ss ->
  0 <= lengths_before ss k /\
  forall s : Sample, ss !! k = Some s ->
    lengths_before ss k + sample_length s <= lengths_before ss (length ss).
Proof.
  intros Hpos. revert k.
  induction Hpos as [|s0 ss Hs0 Hpos IH]; intros k.
  - destruct k; simpl; (split; [lia|]); intros s Hs; discriminate.
  - destruct k as [|k]; simpl.
    + split; [lia|]. intros s [= <-].
      destruct (IH (length ss)) as [H0 _]. lia.
    + destruct (IH k) as [H0 H1]. split; [lia|].
      intros s Hs. specialize (H1 s Hs). lia.
Qed.

(** The maximum found by the pattern count loop. *)
Lemma highest_pattern_value (positions : list Z) (count : nat) :
  forall (i : nat) (highest h : Z),
  (i <= length positions)%nat ->
  highest_pattern positions i count highest = Some h ->
  (i + count <= length positions)%nat /\
  h = foldr Z.max highest (take count (drop i positions)).
Proof.
  induction count as [|count IH]; intros i highest h Hi0 H; simpl in H.
  - injection H as <-. split; [lia|]. now rewrite take_0.
  - destruct (positions !! i) as [p|] eqn:Hp; [|discriminate].
    pose proof (lookup_lt_Some _ _ _ Hp) as Hi.
    destruct (IH (S i) _ h ltac:(lia) H) as [Hlen ->]. split; [lia|].
    rewrite (drop_S _ _ _ Hp). simpl.
    generalize (take count (drop (S i) positions)). intros l.
    destruct (Z.ltb_spec highest p) as [Hlt | Hge].
    + induction l as [|x l IHl]; simpl; lia.
    + induction l as [|x l IHl]; simpl; lia.
Qed.

Lemma highest_pattern_past_end (positions : list Z) (count : nat) :
  forall (i : nat) (highest : Z),
  (i <= length positions)%nat ->
  (highest_pattern positions i count highest = None <->
   (length positions < i + count)%nat).
Proof.
  induction count as [|count IH]; intros i highest Hi; simpl.
  - split; [discriminate | lia].
  - destruct (positions !! i) as [p|] eqn:Hp.
    + pose proof (lookup_lt_Some _ _ _ Hp). rewrite IH by lia. lia.
    + apply lookup_ge_None in Hp. split; [lia | reflexivity].
Qed.

Lemma foldr_max_bound (l : list Z) (i : nat) (x : Z) :
  l !! i = Some x -> 0 <= foldr Z.max 0 l /\ x <= foldr Z.max 0 l.
Proof.
  revert i. induction l as [|y l IH]; intros i Hi; [discriminate|].
  assert (H0 : 0 <= foldr Z.max 0 l)
    by (clear; induction l; simpl; lia).
  destruct i as [|i]; simpl in *.
  - injection Hi as ->. lia.
  - destruct (IH i Hi). lia.
Qed.

Lemma decode_note_range (b0 b1 b2 b3 : Z) :
  is_byte b0 -> is_byte b1 -> is_byte b2 -> is_byte b3 ->
  let note := decode_note b0 b1 b2 b3 in
  (0 <= note_sample note < 256 /\ 0 <= note_period note < 4096 /\
   0 <= note_effect note < 16 /\ 0 <= note_param note < 256) /\
  b0 = 16 * (note_sample note / 16) + note_period note / 256 /\
  b1 = note_period note mod 256 /\
  b2 = 16 * (note_sample note mod 16) + note_effect note /\
  b3 = note_param note.
Proof.
  unfold is_byte, decode_note. intros B0 B1 B2 B3. simpl.
  assert (H0 : 0 <= b0 / 16 < 16)
    by (split; [apply Z.div_pos; lia | apply Z.div_lt_upper_bound; lia]).
  assert (H2 : 0 <= b2 / 16 < 16)
    by (split; [apply Z.div_pos; lia | apply Z.div_lt_upper_bound; lia]).
  pose proof (Z.mod_pos_bound b0 16 ltac:(lia)) as M0.
  pose proof (Z.mod_pos_bound b2 16 ltac:(lia)) as M2.
  pose proof (Z.div_mod b0 16 ltac:(lia)) as E0.
  pose proof (Z.div_mod b2 16 ltac:(lia)) as E2.
  assert (S1 : (16 * (b0 / 16) + b2 / 16) / 16 = b0 / 16).
  { rewrite Z.mul_comm, Z.div_add_l by lia.
    rewrite (Z.div_small (b2 / 16)) by lia. lia. }
  assert (S2 : (16 * (b0 / 16) + b2 / 16) mod 16 = b2 / 16).
  { rewrite Z.add_comm, Z.mul_comm, Z.mod_add by lia.
    apply Z.mod_small. lia. }
  assert (P1 : (256 * (b0 mod 16) + b1) / 256 = b0 mod 16).
  { rewrite Z.mul_comm, Z.div_add_l by lia.
    rewrite (Z.div_small b1) by lia. lia. }
  assert (P2 : (256 * (b0 mod 16) + b1) mod 256 = b1).
  { rewrite Z.add_comm, Z.mul_comm, Z.mod_add by lia.
    apply Z.mod_small. lia. }
  rewrite S1, S2, P1, P2. repeat split; lia.
Qed.

(** The four bytes of a pattern cell.  [read_note] turns the bytes [b0 b1 b2
    b3] under the pointer into the sample number [16 * (b0 / 16) + b2 / 16],
    the period [256 * (b0 mod 16) + b1], the effect [b2 mod 16] and the
    parameter [b3], and moves the pointer by 4.  The sample number lies in
    0..255, beyond the 31 samples a module has, the period in 0..4095, the
    effect in 0..15; and the four bytes can be recovered from the cell, so
    nothing of them is lost. *)
Theorem read_note_decode (data : list Z) (ptr : Z) (note : Note) (p : Z) :
  0 <= ptr -> Forall is_byte data ->
  read_note data ptr = Done (note, p) ->
  let b0 := byte_at data ptr in
  let b1 := byte_at data (ptr + 1) in
  let b2 := byte_at data (ptr + 2) in
  let b3 := byte_at data (ptr + 3) in
  p = ptr + 4 /\
  note_sample note = 16 * (b0 / 16) + b2 / 16 /\
  note_period note = 256 * (b0 mod 16) + b1 /\
  note_effect note = b2 mod 16 /\
  note_param note = b3 /\
  (0 <= note_sample note < 256 /\ 0 <= note_period note < 4096 /\
   0 <= note_effect note < 16 /\ 0 <= note_param note < 256) /\
  b0 = 16 * (note_sample note / 16) + note_period note / 256 /\
  b1 = note_period note mod 256 /\
  b2 = 16 * (note_sample note mod 16) + note_effect note.
Proof.
  intros Hptr Hbytes H b0 b1 b2 b3.
  assert (Hb : is_byte b0 /\ is_byte b1 /\ is_byte b2 /\ is_byte b3).
  { unfold read_note in H.
    apply bind_Done in H. destruct H as (x0 & p0 & H0 & H).
    apply bind_Done in H. destruct H as (x1 & p1 & H1 & H).
    apply bind_Done in H. destruct H as (x2 & p2 & H2 & H).
    apply bind_Done in H. destruct H as (x3 & p3 & H3 & H).
    apply next_byte_Done in H0. destruct H0 as [H0 ->].
    apply next_byte_Done in H1. destruct H1 as [H1 ->].
    apply next_byte_Done in H2. destruct H2 as [H2 ->].
    apply next_byte_Done in H3. destruct H3 as [H3 ->].
    replace (ptr + 1 + 1) with (ptr + 2) in * by lia.
    replace (ptr + 2 + 1) with (ptr + 3) in * by lia.
    unfold b0, b1, b2, b3.
    rewrite (byte_at_Some _ _ _ H0), (byte_at_Some _ _ _ H1),
      (byte_at_Some _ _ _ H2), (byte_at_Some _ _ _ H3).
    split; [|split; [|split]];
      (eapply Forall_lookup_1; [exact Hbytes | eassumption]). }
  destruct Hb as (B0 & B1 & B2 & B3).
  destruct (read_note_value data ptr note p Hptr Hbytes H) as (-> & _ & ->).
  fold b0 b1 b2 b3.
  destruct (decode_note_range b0 b1 b2 b3 B0 B1 B2 B3)
    as (Hr & E0 & E1 & E2 & _).
  cbv zeta in Hr, E0, E1, E2.
  split; [reflexivity|]. split; [reflexivity|]. split; [reflexivity|].
  split; [reflexivity|]. split; [reflexivity|].
  split; [exact Hr|]. split; [exact E0|]. split; [exact E1 | exact E2].
Qed.

(** Where the cells of a loaded module come from.  The cell of channel [c]
    in row [r] of pattern [p] is decoded from the four bytes at offset
    [1084 + 1024 * p + 16 * r + 4 * c] of the blob, which lie inside the blob;
    it is the cell [process_row] uses at a position that plays pattern [p];
    and the pattern data holds 256 cells for each of the [num_patterns]
    patterns. *)
Theorem pattern_cell_layout (data : list Z) (data_len : Z) (m : MODFile)
    (p r c : Z) :
  Forall is_byte data ->
  load_mod_embedded data data_len = Loaded m ->
  0 <= p < num_patterns m -> 0 <= r < ROWS_PER_PATTERN ->
  0 <= c < NUM_CHANNELS ->
  let offset := 1084 + 1024 * p + 16 * r + 4 * c in
  let note :=
    decode_note (byte_at data offset) (byte_at data (offset + 1))
                (byte_at data (offset + 2)) (byte_at data (offset + 3)) in
  patterns m !! Z.to_nat (p * ROWS_PER_PATTERN * NUM_CHANNELS
                          + r * NUM_CHANNELS + c) = Some note /\
  offset + 3 < Z.of_nat (length data) /\
  (forall position : Z,
     positions m !! Z.to_nat position = Some p ->
     cell m position r (Z.to_nat c) = note) /\
  Z.of_nat (length (patterns m)) = 256 * num_patterns m.
Proof.
  intros Hbytes Hload Hp Hr Hc offset note.
  destruct (load_Loaded _ _ _ Hload) as (h & highest & p' & Hh & Hhigh
                                         & Hnotes & Hm & Hp').
  assert (Hnum : num_patterns m = u8 (highest + 1)) by (rewrite Hm; reflexivity).
  rewrite <- Hnum in Hnotes.
  pose proof (times_length _ _ _ _ _ _ Hnotes) as Hlen.
  unfold ROWS_PER_PATTERN, NUM_CHANNELS in *.
  set (i := Z.to_nat (p * 64 * 4 + r * 4 + c)).
  assert (Hi : (i < length (patterns m))%nat) by (unfold i; lia).
  destruct (lookup_lt_is_Some_2 _ _ Hi) as [a Ha].
  destruct (times_Done read_note 4 _ advances_read_note _ _ _ _ Hnotes)
    as [_ Hcells].
  specialize (Hcells i a Ha).
  replace (1084 + Z.of_nat i * 4) with offset in Hcells
    by (unfold offset, i; lia).
  destruct (read_note_value data offset a _ ltac:(unfold offset; lia)
              Hbytes Hcells) as (_ & Hin & ->).
  fold note in Ha.
  assert (Hcell : patterns m !! i = Some note) by exact Ha.
  split; [exact Hcell|]. split; [|split].
  - destruct Hin as [x Hx]. apply lookup_lt_Some in Hx. lia.
  - intros position Hpos. unfold cell. rewrite Hpos. simpl.
    unfold ROWS_PER_PATTERN, NUM_CHANNELS.
    replace (p * 64 * 4 + r * 4 + Z.of_nat (Z.to_nat c))
      with (p * 64 * 4 + r * 4 + c) by lia.
    fold i. now rewrite Hcell.
  - lia.
Qed.

Lemma read_sample_shape (data : list Z) (ptr : Z) (s : Sample) (p : Z) :
  read_sample data ptr = Done (s, p) ->
  sample_data s = None /\ 0 <= sample_length s < 65536.
Proof.
  intros H. unfold read_sample in H.
  apply bind_Done in H. destruct H as (name & p0 & Hname & H).
  apply bind_Done in H. destruct H as (len & p1 & Hlen & H).
  apply bind_Done in H. destruct H as (ft & p2 & Hft & H).
  apply bind_Done in H. destruct H as (vol & p3 & Hvol & H).
  apply bind_Done in H. destruct H as (rp & p4 & Hrp & H).
  apply bind_Done in H. destruct H as (rl & p5 & Hrl & H).
  apply ret_Done in H. destruct H as [-> _]. simpl.
  split; [reflexivity|]. unfold u16. apply Z.mod_pos_bound. lia.
Qed.

Lemma read_sample_volume (data : list Z) (ptr : Z) (s : Sample) (p : Z) :
  0 <= ptr -> read_sample data ptr = Done (s, p) ->
  exists b : Z, data !! Z.to_nat (ptr + 25) = Some b.
Proof.
  intros Hptr H. unfold read_sample in H.
  apply bind_Done in H. destruct H as (name & p0 & Hname & H).
  apply bind_Done in H. destruct H as (len & p1 & Hlen & H).
  apply bind_Done in H. destruct H as (ft & p2 & Hft & H).
  apply bind_Done in H. destruct H as (vol & p3 & Hvol & H).
  apply bytes_Done in Hname; [|exact Hptr].
  destruct Hname as (-> & _ & _).
  apply big_endian_Done in Hlen; [|lia].
  destruct Hlen as (l0 & l1 & _ & _ & _ & ->).
  apply next_byte_Done in Hft. destruct Hft as [_ ->].
  apply next_byte_Done in Hvol. destruct Hvol as [Hvol _].
  exists vol. rewrite <- Hvol. f_equal. lia.
Qed.

Lemma header_samples_shape (data : list Z) (h : header) (p : Z) :
  read_header data 0 = Done (h, p) ->
  Forall (fun s => sample_data s = None /\ 0 <= sample_length s < 65536)
         (hdr_samples h).
Proof.
  intros H. apply Forall_lookup. intros k s Hk.
  destruct (read_header_value _ _ _ H) as (_ & _ & _ & _ & _ & _ & Hs).
  exact (read_sample_shape _ _ _ _ (Hs k s Hk)).
Qed.

Lemma lengths_before_set (ss : list Sample) :
  forall (ptr : Z) (k : nat),
  lengths_before (set_sample_data ss ptr) k = lengths_before ss k.
Proof.
  induction ss as [|s ss IH]; intros ptr k; [reflexivity|].
  destruct k as [|k]; simpl; destruct (0 <? sample_length s); simpl;
    try reflexivity; now rewrite IH.
Qed.

(** The sample headers of a loaded module.  Sample [k] (counted from 0) is
    described by the 30 bytes at offset [20 + 30 * k]: 22 bytes of name, of
    which the last is replaced by 0; the length in words, which the loader
    doubles into a 16-bit field, so that a length of 32768 words or more
    wraps around; finetune; volume; and the loop start and loop length,
    doubled in the same way.  Lengths are even numbers below 65536, the
    volume is the byte of the file, whatever its value. *)
Theorem sample_header_layout (data : list Z) (data_len : Z) (m : MODFile)
    (k : nat) :
  Forall is_byte data ->
  load_mod_embedded data data_len = Loaded m ->
  (k < 31)%nat ->
  let base := 20 + 30 * Z.of_nat k in
  exists s : Sample,
    samples m !! k = Some s /\
    sample_name s = take 21 (drop (Z.to_nat base) data) ++ [0] /\
    sample_length s = (2 * word_at data (base + 22)) mod 65536 /\
    sample_finetune s = byte_at data (base + 24) /\
    sample_volume s = byte_at data (base + 25) /\
    sample_repeat_point s = (2 * word_at data (base + 26)) mod 65536 /\
    sample_repeat_length s = (2 * word_at data (base + 28)) mod 65536 /\
    0 <= sample_length s < 65536 /\ sample_length s mod 2 = 0 /\
    0 <= sample_volume s < 256.
Proof.
  intros Hbytes Hload Hk base.
  destruct (load_Loaded _ _ _ Hload) as (h & highest & p' & Hh & Hhigh
                                         & Hnotes & Hm & Hp').
  destruct (read_header_value _ _ _ Hh) as (_ & _ & _ & _ & _ & Hlen & Hs).
  pose proof (header_samples_shape _ _ _ Hh) as Hshape.
  assert (Hss : samples m = set_sample_data (hdr_samples h) p')
    by (rewrite Hm; reflexivity).
  assert (Hin : (k < length (samples m))%nat)
    by (rewrite Hss, set_sample_data_length; lia).
  destruct (lookup_lt_is_Some_2 _ _ Hin) as [s Hsk].
  exists s. split; [exact Hsk|].
  rewrite Hss in Hsk.
  destruct (set_sample_data_lookup _ _ _ _
              (Forall_impl _ _ _ Hshape (fun s H => proj1 (proj2 H))) Hsk)
    as (s0 & Hs0 & ->).
  simpl.
  destruct (read_sample_volume data base s0 _ ltac:(unfold base; lia)
              (Hs k s0 Hs0)) as [b Hb].
  destruct (read_sample_value data base s0 _ ltac:(unfold base; lia) Hbytes
              (Hs k s0 Hs0)) as [_ ->].
  unfold decode_sample. simpl.
  split; [reflexivity|]. split; [reflexivity|]. split; [reflexivity|].
  split; [reflexivity|]. split; [reflexivity|]. split; [reflexivity|].
  split; [apply Z.mod_pos_bound; lia|]. split.
  - change 65536 with (2 * 32768). rewrite Z.mul_mod_distr_l by lia.
    rewrite Z.mul_comm. apply Z.mod_mul. lia.
  - rewrite (byte_at_Some _ _ _ Hb).
    exact (Forall_lookup_1 _ _ _ _ Hbytes Hb).
Qed.

Lemma loaded_song (data : list Z) (data_len : Z) (m : MODFile) :
  Forall is_byte data ->
  load_mod_embedded data data_len = Loaded m ->
  let song := take (Z.to_nat (song_length m)) (positions m) in
  title m = take 20 data ++ [0] /\
  song_length m = byte_at data 950 /\
  positions m = take 128 (drop 952 data) /\
  0 <= song_length m <= 128 /\
  num_patterns m = (foldr Z.max 0 song + 1) mod 256 /\
  (foldr Z.max 0 song < 255 ->
   forall (i : nat) (p : Z),
     song !! i = Some p -> 0 <= p < num_patterns m).
Proof.
  intros Hbytes Hload song.
  destruct (load_Loaded _ _ _ Hload) as (h & highest & p' & Hh & Hhigh
                                         & Hnotes & Hm & Hp').
  destruct (read_header_value _ _ _ Hh)
    as (_ & Ht & Hlen & Hpos & Hposlen & _ & _).
  assert (E1 : title m = hdr_title h) by (rewrite Hm; reflexivity).
  assert (E2 : song_length m = hdr_song_length h)
    by (rewrite Hm; reflexivity).
  assert (E3 : positions m = hdr_positions h) by (rewrite Hm; reflexivity).
  assert (E4 : num_patterns m = u8 (highest + 1))
    by (rewrite Hm; reflexivity).
  destruct (highest_pattern_value (hdr_positions h) _ 0%nat 0 highest
              ltac:(lia) Hhigh) as [Hcount Hmax].
  rewrite drop_0 in Hmax. rewrite <- E2, <- E3 in Hmax. fold song in Hmax.
  pose proof (Forall_lookup_1 _ _ _ _ Hbytes Hlen) as Hsl.
  unfold is_byte in Hsl.
  split; [now rewrite E1|].
  split; [now rewrite E2, (byte_at_Some data 950 _ Hlen)|].
  split; [now rewrite E3|]. split; [rewrite E2; lia|].
  split; [rewrite E4, Hmax; reflexivity|].
  intros Hlt i p Hi. rewrite E4, Hmax. unfold u8. change (2 ^ 8) with 256.
  destruct (foldr_max_bound _ _ _ Hi) as [H0 Hle].
  rewrite Z.mod_small by lia.
  assert (Hp : is_byte p).
  { unfold song in Hi. apply lookup_take_Some in Hi. destruct Hi as [Hi _].
    rewrite E3, Hpos in Hi. apply lookup_take_Some in Hi.
    destruct Hi as [Hi _]. rewrite lookup_drop in Hi.
    exact (Forall_lookup_1 _ _ _ _ Hbytes Hi). }
  unfold is_byte in Hp. lia.
Qed.

Lemma loaded_patterns_length (data : list Z) (data_len : Z) (m : MODFile) :
  load_mod_embedded data data_len = Loaded m ->
  Z.of_nat (length (patterns m)) = 256 * num_patterns m /\
  length (positions m) = 128%nat.
Proof.
  intros Hload.
  destruct (load_Loaded _ _ _ Hload) as (h & highest & p' & Hh & Hhigh
                                         & Hnotes & Hm & Hp').
  destruct (read_header_value _ _ _ Hh) as (_ & _ & _ & _ & Hposlen & _ & _).
  assert (Hnum : num_patterns m = u8 (highest + 1))
    by (rewrite Hm; reflexivity).
  assert (Hpos : positions m = hdr_positions h) by (rewrite Hm; reflexivity).
  rewrite <- Hnum in Hnotes.
  pose proof (times_length _ _ _ _ _ _ Hnotes) as Hlen.
  assert (0 <= num_patterns m)
    by (rewrite Hnum; apply Z.mod_pos_bound; lia).
  unfold ROWS_PER_PATTERN, NUM_CHANNELS in *.
  split; [lia | now rewrite Hpos].
Qed.

(** The song header of a loaded module, and the number of patterns.  The
    title is the first 20 bytes, the song length the byte at offset 950 and
    the position table the 128 bytes from offset 952.  A load that succeeds
    had a song length of at most 128.  The number of patterns is one more
    than the highest pattern number among the first [song_length] positions
    (the rest of the table is not looked at), kept in 8 bits: when that
    highest number is below 255, every pattern the song plays is below
    [num_patterns]; at 255 the count wraps to 0.  A song length above 128
    makes the count loop read beyond the position table. *)
Theorem pattern_count (data : list Z) (data_len : Z) :
  Forall is_byte data ->
  (forall m : MODFile,
     load_mod_embedded data data_len = Loaded m ->
     let song := take (Z.to_nat (song_length m)) (positions m) in
     title m = take 20 data ++ [0] /\
     song_length m = byte_at data 950 /\
     positions m = take 128 (drop 952 data) /\
     0 <= song_length m <= 128 /\
     num_patterns m = (foldr Z.max 0 song + 1) mod 256 /\
     (foldr Z.max 0 song < 255 ->
      forall (i : nat) (p : Z),
        song !! i = Some p -> 0 <= p < num_patterns m)) /\
  (1084 <= Z.of_nat (length data) -> 128 < byte_at data 950 ->
   load_mod_embedded data data_len = PositionPastEnd).
Proof.
  intros Hbytes. split.
  - intros m Hload. exact (loaded_song data data_len m Hbytes Hload).
  - intros Hlen Hsong.
    destruct (reads_header data 0 ltac:(lia) ltac:(lia)) as [h Hh].
    destruct (read_header_value _ _ _ Hh)
      as (_ & _ & Hsl & _ & Hposlen & _ & _).
    rewrite (byte_at_Some data 950 _ Hsl) in Hsong.
    unfold load_mod_embedded. rewrite Hh.
    assert (Hnone : highest_pattern (hdr_positions h) 0
                      (Z.to_nat (hdr_song_length h)) 0 = None).
    { apply highest_pattern_past_end; lia. }
    now rewrite Hnone.
Qed.

(** The sample payloads of a loaded module.  There are 31 samples.  The
    loader reads no payload; it points each sample of positive length at the
    offset where the payloads of the samples before it end, the first one at
    offset [1084 + 1024 * num_patterns], right behind the pattern data, and
    gives an empty sample the null pointer.  When the blob reaches to the end
    of the last payload, every payload lies inside the blob, so every byte
    [process_tick] fetches for a position below the sample's length is a byte
    of the blob. *)
Theorem sample_payload_layout (data : list Z) (data_len : Z) (m : MODFile)
    (k : nat) (s : Sample) :
  load_mod_embedded data data_len = Loaded m ->
  samples m !! k = Some s ->
  let first := 1084 + 1024 * num_patterns m in
  length (samples m) = 31%nat /\
  0 <= sample_length s /\
  sample_data s =
    (if 0 <? sample_length s
     then Some (first + lengths_before (samples m) k) else None) /\
  (first + lengths_before (samples m) 31 <= Z.of_nat (length data) ->
   forall base : Z, sample_data s = Some base ->
     1084 <= base /\ base + sample_length s <= Z.of_nat (length data)).
Proof.
  intros Hload Hk first.
  destruct (load_Loaded _ _ _ Hload) as (h & highest & p' & Hh & Hhigh
                                         & Hnotes & Hm & Hp').
  destruct (read_header_value _ _ _ Hh) as (_ & _ & _ & _ & _ & Hlen & _).
  pose proof (header_samples_shape _ _ _ Hh) as Hshape.
  assert (Hpos : Forall (fun s => 0 <= sample_length s) (hdr_samples h))
    by exact (Forall_impl _ _ _ Hshape (fun s H => proj1 (proj2 H))).
  assert (Hss : samples m = set_sample_data (hdr_samples h) p')
    by (rewrite Hm; reflexivity).
  assert (Hnum : num_patterns m = u8 (highest + 1))
    by (rewrite Hm; reflexivity).
  assert (Hfirst : p' = first) by (unfold first; rewrite Hnum; exact Hp').
  assert (Hn0 : 0 <= num_patterns m)
    by (rewrite Hnum; apply Z.mod_pos_bound; lia).
  rewrite Hss in *. rewrite set_sample_data_length, !lengths_before_set.
  destruct (set_sample_data_lookup _ _ _ _ Hpos Hk) as (s0 & Hs0 & ->).
  pose proof (Forall_lookup_1 _ _ _ _ Hshape Hs0) as [Hnone Hrange].
  simpl. rewrite Hnone, Hfirst.
  split; [exact Hlen|]. split; [lia|]. split; [reflexivity|].
  intros Hend base Hbase.
  destruct (lengths_before_mono (hdr_samples h) k Hpos) as [H0 H1].
  specialize (H1 s0 Hs0). rewrite Hlen in H1.
  destruct (0 <? sample_length s0); [|discriminate].
  injection Hbase as <-. unfold first in *. lia.
Qed.

(** *** The sequencer *)

(** The number of samples [modplayer_task] generates in a turn of its loop:
    the samples per tick, cut to the size of its buffer. *)
Definition samples_to_generate (p : player) : Z :=
  if samples_per_tick p <? PROCESS_BUFFER_SIZE
  then samples_per_tick p else PROCESS_BUFFER_SIZE.

(** The first part of a turn: on the first tick of a row the row is processed
    and the effect loop run. *)
Definition start_of_tick (m : MODFile) (channels : list ChannelState)
    (p : player) : list ChannelState * player :=
  if current_tick p =? 0
  then
    let channels := process_row m channels (position p) (row p) in
    (channels, check_effects channels p)
  else (channels, p).

(** The samples a turn hands to [write_to_ring_buffer]. *)
Definition tick_buffer (m : MODFile) (data : list Z)
    (st : list ChannelState * player * RingBuffer.ring) : list Z :=
  let cp := start_of_tick m (fst (fst st)) (snd (fst st)) in
  snd (process_tick m data (fst cp)
                    (Z.to_nat (samples_to_generate (snd cp)))).

(** What the sequencer variables satisfy between two turns. *)
Definition player_ok (len : Z) (p : player) : Prop :=
  0 <= position p /\ (position p < len \/ position p = 0) /\
  0 <= row p < ROWS_PER_PATTERN /\
  0 <= current_tick p < ticks_per_row p /\
  1 <= ticks_per_row p <= 31 /\
  32 <= tempo p /\
  samples_per_tick p = calculate_tick_samples (tempo p).

Lemma play_tick_unfold (m : MODFile) (data : list Z)
    (channels : list ChannelState) (p : player) (rb : RingBuffer.ring) :
  play_tick m data (channels, p, rb) =
  let cp := start_of_tick m channels p in
  let r := process_tick m data (fst cp)
                        (Z.to_nat (samples_to_generate (snd cp))) in
  (fst r, next_tick (song_length m) (snd cp),
   RingBuffer.write_to_ring_buffer MOD_BUFFER_SIZE fl (snd r) rb).
Proof.
  unfold play_tick, start_of_tick, samples_to_generate.
  destruct (current_tick p =? 0); reflexivity.
Qed.

Lemma check_effects_ok (len : Z) (channels : list ChannelState) (p : player) :
  current_tick p = 0 -> player_ok len p ->
  player_ok len (check_effects channels p) /\
  current_tick (check_effects channels p) = 0 /\
  position (check_effects channels p) = position p.
Proof.
  revert p. induction channels as [|ch rest IH]; intros p Ht Hp; simpl.
  - split; [exact Hp|]. split; [exact Ht | reflexivity].
  - destruct (chan_effect ch =? 13).
    + unfold player_ok, ROWS_PER_PATTERN in *. simpl. split; [lia|].
      split; [exact Ht | reflexivity].
    + destruct ((chan_effect ch =? 15) && (chan_param ch <=? 31)) eqn:Hspeed.
      * destruct (Z.ltb_spec 0 (chan_param ch)) as [Hpos | Hzero];
          [|now apply IH].
        apply andb_true_iff in Hspeed. destruct Hspeed as [_ Hle].
        apply Z.leb_le in Hle.
        destruct (IH (MkPlayer (position p) (row p) (chan_param ch)
                               (current_tick p) (tempo p)
                               (samples_per_tick p))) as (H1 & H2 & H3).
        { exact Ht. }
        { unfold player_ok in *. simpl. lia. }
        split; [exact H1|]. split; [exact H2 | exact H3].
      * destruct ((chan_effect ch =? 15) && (32 <=? chan_param ch))
          eqn:Htempo; [|now apply IH].
        apply andb_true_iff in Htempo. destruct Htempo as [_ Hge].
        apply Z.leb_le in Hge.
        destruct (IH (MkPlayer (position p) (row p) (ticks_per_row p)
                               (current_tick p) (chan_param ch)
                               (calculate_tick_samples (chan_param ch))))
          as (H1 & H2 & H3).
        { exact Ht. }
        { unfold player_ok in *. simpl. repeat split; lia. }
        split; [exact H1|]. split; [exact H2 | exact H3].
Qed.

Lemma next_tick_ok (len : Z) (p : player) :
  player_ok len p -> player_ok len (next_tick len p).
Proof.
  unfold player_ok, next_tick, ROWS_PER_PATTERN. intros Hp.
  destruct (Z.leb_spec (ticks_per_row p) (current_tick p + 1)); simpl.
  - destruct (Z.leb_spec 64 (row p + 1)); simpl.
    + destruct (Z.leb_spec len (position p + 1)); simpl; lia.
    + lia.
  - lia.
Qed.

Lemma start_of_tick_ok (m : MODFile) (channels : list ChannelState)
    (p : player) :
  player_ok (song_length m) p ->
  player_ok (song_length m) (snd (start_of_tick m channels p)).
Proof.
  intros Hp. unfold start_of_tick.
  destruct (Z.eqb_spec (current_tick p) 0) as [Ht | Ht]; simpl; [|exact Hp].
  now apply check_effects_ok.
Qed.

Lemma player_start_ok (len : Z) : player_ok len player_start.
Proof.
  unfold player_ok, player_start, ROWS_PER_PATTERN. simpl.
  repeat split; lia.
Qed.

Lemma playback_ok (m : MODFile) (data : list Z) (n : nat) :
  player_ok (song_length m) (snd (fst (playback m data n))).
Proof.
  unfold playback. induction n as [|n IH]; simpl.
  - apply player_start_ok.
  - destruct (Nat.iter n _ _) as [[channels p] rb]. simpl in IH.
    rewrite play_tick_unfold. simpl.
    apply next_tick_ok. now apply start_of_tick_ok.
Qed.

Lemma tick_samples_quotient (t : Z) :
  0 < t -> calculate_tick_samples t = 55125 / t.
Proof.
  intros Ht. unfold calculate_tick_samples, SAMPLE_RATE.
  rewrite Z.quot_div_nonneg by lia.
  change (2500 * 22050) with (55125 * 1000).
  apply Z.div_mul_cancel_r; lia.
Qed.

Lemma tick_samples_range (t : Z) :
  32 <= t ->
  0 <= calculate_tick_samples t <= 1722 /\
  (t <= 255 -> 216 <= calculate_tick_samples t) /\
  (t <= 53 <-> PROCESS_BUFFER_SIZE < calculate_tick_samples t).
Proof.
  intros Ht. rewrite tick_samples_quotient by lia.
  unfold PROCESS_BUFFER_SIZE.
  pose proof (Z.div_mod 55125 t ltac:(lia)) as Hd.
  pose proof (Z.mod_pos_bound 55125 t ltac:(lia)) as Hm.
  set (q := 55125 / t) in *. set (r := 55125 mod t) in *.
  split; [nia|]. split; [intros; nia|]. split; intros; nia.
Qed.

(** The sequencer variables of [modplayer_task] stay in range, whatever the
    module.  After any number of turns of the playback loop: the row is one
    of the 64 rows of a pattern; the tick counter is below the speed; the
    speed is between 1 and 31 ticks per row; the tempo is at least 32, so
    that [calculate_tick_samples] never divides by zero, and the samples per
    tick are between 0 and 1722; the position is not negative and is below
    the song length, or 0 when the song is empty; and a turn generates at
    most [PROCESS_BUFFER_SIZE] samples. *)
Theorem sequencer_in_range (m : MODFile) (data : list Z) (n : nat) :
  let p := snd (fst (playback m data n)) in
  0 <= row p < ROWS_PER_PATTERN /\
  0 <= current_tick p < ticks_per_row p /\
  1 <= ticks_per_row p <= 31 /\
  32 <= tempo p /\
  0 <= samples_per_tick p <= 1722 /\
  0 <= position p /\ (position p < song_length m \/ position p = 0) /\
  0 <= samples_to_generate p <= PROCESS_BUFFER_SIZE.
Proof.
  intros p. pose proof (playback_ok m data n) as Hp. fold p in Hp.
  destruct Hp as (H1 & H2 & H3 & H4 & H5 & H6 & H7).
  destruct (tick_samples_range (tempo p) H6) as (Hr & _).
  rewrite <- H7 in Hr.
  repeat split; try lia.
  - unfold samples_to_generate, PROCESS_BUFFER_SIZE.
    destruct (_ <? _); lia.
  - unfold samples_to_generate, PROCESS_BUFFER_SIZE.
    destruct (Z.ltb_spec (samples_per_tick p) 1024); lia.
Qed.

(** *** The length of a tick *)

Lemma cell_param (m : MODFile) (position row : Z) (c : nat) (P : Note -> Prop) :
  P (MkNote 0 0 0 0) -> Forall P (patterns m) -> P (cell m position row c).
Proof.
  intros H0 Hall. unfold cell.
  destruct (patterns m !! _) as [note|] eqn:Hn; simpl; [|exact H0].
  exact (Forall_lookup_1 _ _ _ _ Hall Hn).
Qed.

Lemma process_note_param (m : MODFile) (ch : ChannelState) (note : Note) :
  chan_param (process_note m ch note) = note_param note.
Proof.
  unfold process_note.
  destruct (_ && _); destruct (_ && _); destruct (0 <? _); reflexivity.
Qed.

Lemma check_effects_tempo (channels : list ChannelState) :
  forall p : player,
  Forall (fun ch => chan_param ch <= 255) channels ->
  tempo p <= 255 -> tempo (check_effects channels p) <= 255.
Proof.
  induction channels as [|ch rest IH]; intros p Hall Hp; simpl; [exact Hp|].
  inversion Hall as [|? ? Hch Hrest]; subst.
  destruct (chan_effect ch =? 13); [exact Hp|].
  destruct ((chan_effect ch =? 15) && (chan_param ch <=? 31)).
  - apply IH; [exact Hrest|]. destruct (0 <? chan_param ch); exact Hp.
  - destruct ((chan_effect ch =? 15) && (32 <=? chan_param ch));
      apply IH; try exact Hrest; simpl; assumption.
Qed.

Lemma next_tick_tempo (len : Z) (p : player) :
  tempo (next_tick len p) = tempo p.
Proof.
  unfold next_tick. destruct (_ <=? _); [destruct (_ <=? _)|]; reflexivity.
Qed.

Lemma start_of_tick_tempo (m : MODFile) (channels : list ChannelState)
    (p : player) :
  Forall (fun note => note_param note <= 255) (patterns m) ->
  tempo p <= 255 -> tempo (snd (start_of_tick m channels p)) <= 255.
Proof.
  intros Hm Hp. unfold start_of_tick.
  destruct (current_tick p =? 0); simpl; [|exact Hp].
  apply check_effects_tempo; [|exact Hp].
  apply Forall_lookup. intros c ch Hc.
  unfold process_row in Hc. rewrite list_lookup_imap in Hc.
  destruct (channels !! c) as [ch0|]; [|discriminate].
  injection Hc as <-. rewrite process_note_param.
  apply (cell_param m _ _ c (fun note => note_param note <= 255));
    [simpl; lia | exact Hm].
Qed.

Lemma playback_tempo (m : MODFile) (data : list Z) (n : nat) :
  Forall (fun note => note_param note <= 255) (patterns m) ->
  tempo (snd (fst (playback m data n))) <= 255.
Proof.
  intros Hm. unfold playback. induction n as [|n IH]; simpl.
  - unfold player_start. simpl. lia.
  - destruct (Nat.iter n _ _) as [[channels p] rb]. simpl in IH.
    rewrite play_tick_unfold. simpl. rewrite next_tick_tempo.
    now apply start_of_tick_tempo.
Qed.

Lemma process_tick_buffer_length (m : MODFile) (data : list Z) (n : nat) :
  forall channels : list ChannelState,
  length (snd (process_tick m data channels n)) = n.
Proof.
  induction n as [|n IH]; intros channels; [reflexivity|].
  cbn [process_tick fst snd length]. now rewrite IH.
Qed.

(** How long a tick is.  In a module whose effect parameters are bytes, the
    tempo stays between 32 and 255 and the samples per tick between 216 and
    1722.  A turn of the playback loop generates the samples per tick, but at
    most [PROCESS_BUFFER_SIZE] = 1024 of them: at a tempo of 53 or less the
    tick is cut short, at 54 or more it is not.  The buffer of turn [n] has
    between 216 and 1024 samples. *)
Theorem tick_length (m : MODFile) (data : list Z) (n : nat) :
  Forall (fun note => note_param note <= 255) (patterns m) ->
  let p := snd (fst (playback m data n)) in
  32 <= tempo p <= 255 /\
  216 <= samples_per_tick p <= 1722 /\
  samples_to_generate p = Z.min (samples_per_tick p) PROCESS_BUFFER_SIZE /\
  (samples_to_generate p < samples_per_tick p <-> tempo p <= 53) /\
  216 <= Z.of_nat (length (tick_buffer m data (playback m data n))) <= 1024.
Proof.
  intros Hm p.
  assert (Hgen : forall q : player,
            player_ok (song_length m) q -> tempo q <= 255 ->
            32 <= tempo q <= 255 /\
            216 <= samples_per_tick q <= 1722 /\
            samples_to_generate q
              = Z.min (samples_per_tick q) PROCESS_BUFFER_SIZE /\
            (samples_to_generate q < samples_per_tick q <-> tempo q <= 53) /\
            216 <= samples_to_generate q <= 1024).
  { intros q (_ & _ & _ & _ & _ & H6 & H7) Hq.
    destruct (tick_samples_range (tempo q) H6) as (Hr & Hlow & Hcut).
    rewrite <- H7 in Hr, Hlow, Hcut. specialize (Hlow Hq).
    unfold samples_to_generate, PROCESS_BUFFER_SIZE in *.
    destruct (Z.ltb_spec (samples_per_tick q) 1024); lia. }
  pose proof (playback_ok m data n) as Hp.
  pose proof (playback_tempo m data n Hm) as Ht.
  fold p in Hp, Ht.
  destruct (Hgen p Hp Ht) as (G1 & G2 & G3 & G4 & _).
  split; [exact G1|]. split; [exact G2|]. split; [exact G3|].
  split; [exact G4|].
  unfold tick_buffer. rewrite process_tick_buffer_length.
  destruct (playback m data n) as [[channels q] rb]. simpl in *.
  subst p.
  destruct (Hgen (snd (start_of_tick m channels q))
              (start_of_tick_ok m channels q Hp)
              (start_of_tick_tempo m channels q Hm Ht)) as (_ & _ & _ & _ & G5).
  lia.
Qed.

(** *** Mixing *)

(** A channel that plays nothing: no period or no sample. *)
Definition stopped (ch : ChannelState) : Prop :=
  chan_period ch <= 0 \/ chan_sample_num ch <= 0.

Lemma clamp16_range (mixed : Z) : -32768 <= clamp16 mixed <= 32767.
Proof.
  unfold clamp16. destruct (Z.ltb_spec 32767 mixed).
  - simpl. lia.
  - destruct (Z.ltb_spec mixed (-32768)); lia.
Qed.


(** The loop over the channels in [mix_sample], from any accumulator. *)
Lemma mix_fold (m : MODFile) (data : list Z) (channels : list ChannelState) :
  forall acc : list ChannelState * Z,
  fold_left (fun acc ch =>
               let r := mix_channel m data ch in
               (fst acc ++ [fst r], snd acc + snd r))
            channels acc =
  (fst acc ++ map (fun ch => fst (mix_channel m data ch)) channels,
   snd acc + foldr Z.add 0 (map (fun ch => snd (mix_channel m data ch))
                                channels)).
Proof.
  induction channels as [|ch rest IH]; intros [done mixed]; simpl.
  - now rewrite app_nil_r, Z.add_0_r.
  - rewrite IH. simpl. rewrite <- app_assoc. simpl. f_equal. lia.
Qed.

Lemma mix_sample_unfold (m : MODFile) (data : list Z)
    (channels : list ChannelState) :
  mix_sample m data channels =
  (map (fun ch => fst (mix_channel m data ch)) channels,
   clamp16 (foldr Z.add 0 (map (fun ch => snd (mix_channel m data ch))
                               channels))).
Proof. unfold mix_sample. now rewrite mix_fold. Qed.

Lemma mix_channel_stopped (m : MODFile) (data : list Z) (ch : ChannelState) :
  stopped ch -> mix_channel m data ch = (ch, 0).
Proof.
  intros [H | H]; unfold mix_channel.
  - now rewrite (proj2 (Z.ltb_ge 0 (chan_period ch)) H).
  - rewrite (proj2 (Z.ltb_ge 0 (chan_sample_num ch)) H).
    now rewrite andb_false_r.
Qed.

Lemma mix_sample_stopped (m : MODFile) (data : list Z)
    (channels : list ChannelState) :
  Forall stopped channels -> mix_sample m data channels = (channels, 0).
Proof.
  intros H. rewrite mix_sample_unfold.
  assert (Hall : map (fun ch => fst (mix_channel m data ch)) channels
                   = channels /\
                 foldr Z.add 0
                   (map (fun ch => snd (mix_channel m data ch)) channels) = 0).
  { induction H as [|ch rest Hch _ [IH1 IH2]]; [now split|].
    simpl. rewrite (mix_channel_stopped m data ch Hch). simpl.
    now rewrite IH1, IH2. }
  destruct Hall as [-> ->]. reflexivity.
Qed.

Lemma process_tick_range (m : MODFile) (data : list Z) (n : nat) :
  forall channels : list ChannelState,
  Forall (fun x => -32768 <= x <= 32767)
         (snd (process_tick m data channels n)).
Proof.
  induction n as [|n IH]; intros channels; cbn [process_tick fst snd].
  - constructor.
  - constructor; [|apply IH].
    rewrite mix_sample_unfold. simpl. apply clamp16_range.
Qed.

(** What [process_tick] produces.  It fills the buffer with exactly the
    number of samples asked for, each within the range of [int16_t], and
    keeps the number of channels.  When every channel is stopped (no period
    or no sample, as before the first note of a song) the buffer is all
    zeros and no channel changes. *)
Theorem process_tick_output (m : MODFile) (data : list Z)
    (channels : list ChannelState) (n : nat) :
  length (snd (process_tick m data channels n)) = n /\
  length (fst (process_tick m data channels n)) = length channels /\
  Forall (fun x => -32768 <= x <= 32767)
         (snd (process_tick m data channels n)) /\
  (Forall stopped channels ->
   process_tick m data channels n = (channels, replicate n 0)) /\
  process_tick m data channels_start n = (channels_start, replicate n 0).
Proof.
  assert (Hquiet : forall chans : list ChannelState,
            Forall stopped chans ->
            process_tick m data chans n = (chans, replicate n 0)).
  { intros chans Hs. induction n as [|n IH]; [reflexivity|].
    cbn [process_tick]. rewrite (mix_sample_stopped m data chans Hs).
    cbn [fst snd]. rewrite IH. reflexivity. }
  split; [apply process_tick_buffer_length|].
  split; [apply process_tick_length|].
  split; [apply process_tick_range|].
  split; [apply Hquiet|].
  apply Hquiet. unfold channels_start. apply Forall_replicate.
  left. simpl. lia.
Qed.

(** *** Volume and clipping *)











(** *** Reading the pattern data *)

(** Playback of a loaded module reads its cells inside the pattern data.
    For a module loaded from a blob of bytes whose song has at least one
    position and plays no pattern above 254, in every turn of the playback
    loop the position is inside the position table, the pattern it names is
    one of the [num_patterns] patterns, and the index [process_row] computes
    for each of the four channels lies inside the allocated pattern data. *)
Theorem pattern_reads_in_bounds (data : list Z) (data_len : Z) (m : MODFile)
    (n : nat) (c : Z) :
  Forall is_byte data ->
  load_mod_embedded data data_len = Loaded m ->
  1 <= song_length m ->
  foldr Z.max 0 (take (Z.to_nat (song_length m)) (positions m)) < 255 ->
  0 <= c < NUM_CHANNELS ->
  let p := snd (fst (playback m data n)) in
  exists pattern : Z,
    positions m !! Z.to_nat (position p) = Some pattern /\
    0 <= pattern < num_patterns m /\
    0 <= pattern * ROWS_PER_PATTERN * NUM_CHANNELS + row p * NUM_CHANNELS + c
      < Z.of_nat (length (patterns m)).
Proof.
  intros Hbytes Hload Hsong Hmax Hc p.
  destruct (loaded_song data data_len m Hbytes Hload)
    as (_ & _ & _ & Hlen & _ & Hpat).
  destruct (loaded_patterns_length data data_len m Hload) as [Hcells Hpos].
  pose proof (playback_ok m data n) as Hp. fold p in Hp.
  destruct Hp as (P1 & P2 & P3 & _).
  assert (Hin : (Z.to_nat (position p) < length (positions m))%nat) by lia.
  destruct (lookup_lt_is_Some_2 _ _ Hin) as [pattern Hpattern].
  exists pattern. split; [exact Hpattern|].
  assert (Hrange : 0 <= pattern < num_patterns m).
  { apply (Hpat Hmax (Z.to_nat (position p))).
    rewrite lookup_take_lt by lia. exact Hpattern. }
  split; [exact Hrange|].
  unfold ROWS_PER_PATTERN, NUM_CHANNELS in *. lia.
Qed.

(** *** Rows, positions and the pattern break *)




Lemma check_effects_break (channels : list ChannelState) :
  forall p : player,
  Exists (fun ch => chan_effect ch = 13) channels ->
  row (check_effects channels p) = ROWS_PER_PATTERN - 1.
Proof.
  induction channels as [|ch rest IH]; intros p H; [inversion H|].
  simpl. destruct (Z.eqb_spec (chan_effect ch) 13) as [He | Hne];
    [reflexivity|].
  inversion H as [? ? Hch | ? ? Hrest]; subst; [contradiction|].
  destruct (_ && _); [now apply IH|].
  destruct (_ && _); now apply IH.
Qed.

Lemma later_ticks (m : MODFile) (data : list Z) (j : nat) :
  forall (channels : list ChannelState) (q : player) (rb : RingBuffer.ring),
  0 < current_tick q ->
  current_tick q + Z.of_nat j < ticks_per_row q ->
  snd (fst (Nat.iter j (play_tick m data) (channels, q, rb))) =
  MkPlayer (position q) (row q) (ticks_per_row q)
           (current_tick q + Z.of_nat j) (tempo q) (samples_per_tick q).
Proof.
  induction j as [|j IH]; intros channels q rb Hpos Hlt.
  - simpl. rewrite Z.add_0_r. now destruct q.
  - simpl Nat.iter. specialize (IH channels q rb Hpos ltac:(lia)).
    destruct (Nat.iter j _ _) as [[channels' q'] rb']. simpl in IH.
    rewrite play_tick_unfold. simpl. rewrite IH.
    unfold start_of_tick. simpl.
    rewrite (proj2 (Z.eqb_neq _ 0)) by lia. simpl.
    unfold next_tick. simpl.
    rewrite (proj2 (Z.leb_gt _ _)) by lia.
    f_equal. lia.
Qed.

(** The pattern break.  When a cell of the row that starts carries effect
    0xD, the effect loop moves the sequencer to the last row of the pattern;
    the row that was processed still lasts its ticks, at the speed the effect
    loop has left, and after them the sequencer is at tick 0 of row 0 of the
    next position, or of position 0 after the last one.  The parameter of
    the effect plays no part. *)
Theorem pattern_break (m : MODFile) (data : list Z)
    (channels : list ChannelState) (p : player) (rb : RingBuffer.ring) :
  player_ok (song_length m) p -> current_tick p = 0 ->
  (exists c : nat,
     (c < length channels)%nat /\
     note_effect (cell m (position p) (row p) c) = 13) ->
  let p1 := snd (start_of_tick m channels p) in
  let after (k : nat) :=
    snd (fst (Nat.iter k (play_tick m data) (channels, p, rb))) in
  row p1 = ROWS_PER_PATTERN - 1 /\
  (forall k : nat,
     0 < Z.of_nat k < ticks_per_row p1 ->
     after k = MkPlayer (position p) (ROWS_PER_PATTERN - 1)
                        (ticks_per_row p1) (Z.of_nat k) (tempo p1)
                        (samples_per_tick p1)) /\
  after (Z.to_nat (ticks_per_row p1)) =
    MkPlayer (if song_length m <=? position p + 1 then 0 else position p + 1)
             0 (ticks_per_row p1) 0 (tempo p1) (samples_per_tick p1).
Proof.
  intros Hp Ht (c & Hc & Hbreak) p1 after.
  set (channels1 := process_row m channels (position p) (row p)).
  assert (Hp1 : p1 = check_effects channels1 p).
  { unfold p1, start_of_tick. rewrite Ht. reflexivity. }
  assert (Hex : Exists (fun ch => chan_effect ch = 13) channels1).
  { destruct (lookup_lt_is_Some_2 _ _ Hc) as [ch0 Hch0].
    apply Exists_exists.
    exists (process_note m ch0 (cell m (position p) (row p) c)). split.
    - apply list_elem_of_lookup. exists c.
      unfold channels1, process_row. rewrite list_lookup_imap, Hch0.
      reflexivity.
    - rewrite process_note_effect. exact Hbreak. }
  assert (Hrow : row p1 = ROWS_PER_PATTERN - 1)
    by (rewrite Hp1; now apply check_effects_break).
  destruct (check_effects_ok (song_length m) channels1 p Ht Hp)
    as (Hok & Htick & Hposition).
  rewrite <- Hp1 in Hok, Htick, Hposition.
  pose proof Hok as (_ & _ & _ & _ & Hspeed & _).
  assert (Hfirst : after 1%nat = next_tick (song_length m) p1).
  { change (after 1%nat)
      with (snd (fst (play_tick m data (channels, p, rb)))).
    rewrite play_tick_unfold. reflexivity. }
  assert (Hmid : forall k : nat,
            0 < Z.of_nat k < ticks_per_row p1 ->
            after k = MkPlayer (position p) (ROWS_PER_PATTERN - 1)
                               (ticks_per_row p1) (Z.of_nat k) (tempo p1)
                               (samples_per_tick p1)).
  { intros k Hk. destruct k as [|k]; [lia|].
    assert (Hn : after 1%nat =
                 MkPlayer (position p) (ROWS_PER_PATTERN - 1)
                          (ticks_per_row p1) 1 (tempo p1)
                          (samples_per_tick p1)).
    { rewrite Hfirst. unfold next_tick. rewrite Htick, Hrow, Hposition.
      rewrite (proj2 (Z.leb_gt _ _)) by lia. reflexivity. }
    unfold after in *. rewrite Nat.iter_succ_r.
    change (Nat.iter 1 (play_tick m data) (channels, p, rb))
      with (play_tick m data (channels, p, rb)) in Hn.
    destruct (play_tick m data (channels, p, rb)) as [[c1 q1] r1].
    simpl in Hn. subst q1.
    rewrite later_ticks by (simpl; lia). simpl. f_equal. lia. }
  split; [exact Hrow|]. split; [exact Hmid|].
  assert (Hroll : forall q : player,
            position q = position p -> row q = ROWS_PER_PATTERN - 1 ->
            current_tick q + 1 = ticks_per_row q ->
            next_tick (song_length m) q =
            MkPlayer (if song_length m <=? position p + 1
                      then 0 else position p + 1)
                     0 (ticks_per_row q) 0 (tempo q) (samples_per_tick q)).
  { intros q Hq1 Hq2 Hq3. unfold next_tick.
    rewrite (proj2 (Z.leb_le _ _)) by lia.
    rewrite Hq2, Hq1. reflexivity. }
  destruct (Z.eq_dec (ticks_per_row p1) 1) as [Hone | Hmore].
  - rewrite Hone. change (Z.to_nat 1) with 1%nat. rewrite Hfirst.
    rewrite (Hroll p1 Hposition Hrow ltac:(lia)). now rewrite Hone.
  - set (k := Z.to_nat (ticks_per_row p1 - 1)).
    replace (Z.to_nat (ticks_per_row p1)) with (S k) by lia.
    unfold after. simpl Nat.iter.
    pose proof (Hmid k ltac:(lia)) as Hk. unfold after in Hk.
    destruct (Nat.iter k _ _) as [[channels' q'] rb']. simpl in Hk.
    rewrite play_tick_unfold. simpl.
    unfold start_of_tick. rewrite Hk. simpl.
    rewrite (proj2 (Z.eqb_neq _ 0)) by lia. simpl.
    rewrite (Hroll (MkPlayer (position p) (ROWS_PER_PATTERN - 1)
                             (ticks_per_row p1) (Z.of_nat k) (tempo p1)
                             (samples_per_tick p1))
                   eq_refl eq_refl ltac:(simpl; lia)).
    reflexivity.
Qed.

(** *** What playback leaves in the ring buffer *)

(** Everything the first [n] turns of the playback loop have handed to
    [write_to_ring_buffer], in order. *)
Fixpoint played (m : MODFile) (data : list Z) (n : nat) : list Z :=
  match n with
  | O => []
  | S n => played m data n ++ tick_buffer m data (playback m data n)
  end.

(** The player as producer.  With no consumer running, after any number of
    turns of the playback loop the ring buffer is well formed, its read index
    is where [modplayer_init] put it, and it holds the beginning of the music
    generated so far, every sample scaled and doubled: as much of it as fits
    into [MOD_BUFFER_SIZE - 1] cells.  What does not fit is dropped; the
    player never overwrites a sample that has not been read. *)
Theorem playback_queue (m : MODFile) (data : list Z) (n : nat) :
  0 < MOD_BUFFER_SIZE < 2 ^ 32 ->
  let rb := snd (playback m data n) in
  RingBuffer.ring_wf MOD_BUFFER_SIZE rb /\
  RingBuffer.mod_read_pos rb = 0 /\
  RingBuffer.queued MOD_BUFFER_SIZE rb =
    take (Z.to_nat (MOD_BUFFER_SIZE - 1))
         (RingBuffer.upsampled fl (played m data n)).
Proof.
  intros Hsize. induction n as [|n IH]; cbv zeta.
  - split; [now apply RingBuffer.modplayer_init_wf|].
    split; [reflexivity|].
    unfold playback. simpl. rewrite RingBuffer.queued_init by exact Hsize.
    now rewrite take_nil.
  - cbv zeta in IH. simpl played. unfold playback in *. simpl Nat.iter.
    fold (playback m data n) in *.
    destruct (playback m data n) as [[channels p] rb] eqn:Hst.
    simpl in IH. destruct IH as (Hwf & Hread & Hq).
    rewrite play_tick_unfold. cbv zeta. cbn [fst snd].
    change (snd (process_tick m data (fst (start_of_tick m channels p))
                   (Z.to_nat (samples_to_generate
                                (snd (start_of_tick m channels p))))))
      with (tick_buffer m data (channels, p, rb)).
    split; [now apply RingBuffer.write_to_ring_buffer_wf|].
    split; [now rewrite RingBuffer.write_to_ring_buffer_read_pos|].
    rewrite RingBuffer.write_to_ring_buffer_queued by assumption.
    rewrite Hq, RingBuffer.take_take_app.
    unfold RingBuffer.upsampled. now rewrite flat_map_app.
Qed.

End Engine.

(** C9 as the specification states it fails: an empty blob, and a blob that
    stops right after a header declaring one pattern, are not rejected; the
    loader reads at offset 0, respectively 1084, which is past the end, and
    the task is not deleted. *)
Lemma load_truncated_counterexample :
  load_mod_embedded (fun _ => true) [] 0 = ReadPastEnd 0 /\
  load_mod_embedded (fun _ => true) (replicate 1084 0) 1084
    = ReadPastEnd 1084 /\
  load_mod_embedded (fun _ => true) (replicate 1084 0) 1084 <> LoadFailed /\
  modplayer_task_start (fun _ => true) (replicate 1084 0) 1084
    <> TaskDeleted.
Proof.
  assert (H : load_mod_embedded (fun _ => true) (replicate 1084 0) 1084
              = ReadPastEnd 1084) by (vm_compute; reflexivity).
  split; [vm_compute; reflexivity|]. split; [exact H|].
  unfold modplayer_task_start. rewrite H. split; discriminate.
Qed.

(** The loader on a blob of 2108 zero bytes: an empty song with one pattern
    of empty cells. *)
Lemma load_within_bounds_witness :
  1084 <= Z.of_nat (length (replicate 2108 0)) /\
  exists m : MODFile,
    load_mod_embedded (fun _ => true) (replicate 2108 0) 2108 = Loaded m /\
    num_patterns m = 1.
Proof.
  assert (Hlen : 1084 <= Z.of_nat (length (replicate 2108 0)))
    by (rewrite length_replicate; lia).
  split; [exact Hlen|].
  destruct (load_within_bounds (fun _ => true) (replicate 2108 0) 2108)
    as (_ & _ & Hin).
  destruct (Hin Hlen) as (h & Hh & Hload).
  assert (Hhigh : highest_pattern (hdr_positions h) 0
                    (Z.to_nat (hdr_song_length h)) 0 = Some 0).
  { assert (Hc : read_header (replicate 2108 0) 0
                 = Done (MkHeader (replicate 21 0)
                           (replicate 31
                              (MkSample (replicate 22 0) 0 0 0 0 0 None))
                           0 (replicate 128 0), 1084))
      by (vm_compute; reflexivity).
    rewrite Hc in Hh. injection Hh as <-. reflexivity. }
  specialize (Hload 0 Hhigh).
  destruct Hload as (m & Hm & _ & Hn & _).
  { rewrite length_replicate. vm_compute. discriminate. }
  exists m. split; [exact Hm | exact Hn].
Defined.

(** *** Examples on a silent module

    One empty pattern played once; a channel at volume 10; a ring buffer of
    2048 samples, exact arithmetic. *)

Definition silent_module : MODFile :=
  MkMODFile (replicate 21 0) [] 1 [0] 1 (replicate 256 (MkNote 0 0 0 0)).


Definition example_playback (n : nat)
  : list ChannelState * player * RingBuffer.ring :=
  playback 2048 (fun q => q) silent_module [] n.



Lemma first_row_ticks_witness :
  (forall c : nat, (c < 4)%nat ->
     note_effect (cell silent_module 0 0 c) <> 13 /\
     note_effect (cell silent_module 0 0 c) <> 15) /\
  snd (fst (example_playback 4)) = MkPlayer 0 0 5 4 125 441 /\
  snd (fst (example_playback 5)) = MkPlayer 0 1 5 0 125 441.
Proof.
  assert (Hquiet : forall c : nat, (c < 4)%nat ->
            note_effect (cell silent_module 0 0 c) <> 13 /\
            note_effect (cell silent_module 0 0 c) <> 15).
  { intros c Hc.
    do 4 (destruct c as [|c]; [vm_compute; split; discriminate|]). lia. }
  split; [exact Hquiet|].
  destruct (first_row_ticks 2048 (fun q => q) silent_module [] Hquiet)
    as (_ & _ & Hrow0 & Hrow1).
  split; [exact (Hrow0 4%nat ltac:(lia)) | exact Hrow1].
Defined.

(** *** Examples on a module with one note

    A blob of 2112 bytes: an empty title; one sample of four bytes at volume
    64; a song of one position playing pattern 0; in the first cell of that
    pattern the note of period 428 with sample 1 and the effect "set volume
    32"; and the four bytes of the sample. *)

Definition example_blob : list Z :=
  replicate 20 0
  ++ (replicate 22 0 ++ [0; 2; 0; 64; 0; 0; 0; 1])
  ++ replicate 900 0
  ++ [1; 0] ++ replicate 128 0 ++ [77; 46; 75; 46]
  ++ ([1; 172; 28; 32] ++ replicate 1020 0)
  ++ [10; 246; 127; 128].

Definition example_sample : Sample :=
  MkSample (replicate 22 0) 4 0 64 0 2 (Some 2108).

Definition example_module : MODFile :=
  MkMODFile (replicate 21 0)
            (example_sample
             :: replicate 30 (MkSample (replicate 22 0) 0 0 0 0 0 None))
            1 (replicate 128 0) 1
            (MkNote 1 428 12 32 :: replicate 255 (MkNote 0 0 0 0)).

(** The same module with a pattern break in its first cell and a song of two
    positions. *)
Definition break_module : MODFile :=
  MkMODFile (replicate 21 0) [] 2 (replicate 128 0) 1
            (MkNote 0 0 13 0 :: replicate 255 (MkNote 0 0 0 0)).

Definition example_play (n : nat)
  : list ChannelState * player * RingBuffer.ring :=
  playback 2048 (fun q => q) example_module example_blob n.

Lemma Forall_check {A : Type} (P : A -> Prop) (f : A -> bool) (l : list A) :
  (forall x : A, f x = true -> P x) -> forallb f l = true -> Forall P l.
Proof.
  intros Hf. induction l as [|x l IH]; simpl; intros H; constructor.
  - apply Hf. now apply andb_true_iff in H.
  - apply IH. now apply andb_true_iff in H.
Qed.

Lemma example_blob_bytes : Forall is_byte example_blob.
Proof.
  apply (Forall_check _ (fun b => (0 <=? b) && (b <? 256))).
  - intros b Hb. apply andb_true_iff in Hb. unfold is_byte. lia.
  - vm_compute. reflexivity.
Qed.

Lemma example_loaded :
  load_mod_embedded (fun _ => true) example_blob 2112 = Loaded example_module.
Proof. vm_compute. reflexivity. Qed.

Lemma example_params :
  Forall (fun note => 0 <= note_param note <= 255) (patterns example_module).
Proof.
  apply (Forall_check _ (fun note => (0 <=? note_param note)
                                     && (note_param note <=? 255))).
  - intros note H. apply andb_true_iff in H. lia.
  - vm_compute. reflexivity.
Qed.


Lemma read_note_decode_witness :
  read_note [1; 172; 28; 32] 0 = Done (MkNote 1 428 12 32, 4) /\
  1 = 16 * (note_sample (MkNote 1 428 12 32) / 16)
      + note_period (MkNote 1 428 12 32) / 256.
Proof.
  assert (Hb : Forall is_byte [1; 172; 28; 32])
    by (repeat constructor; unfold is_byte; lia).
  assert (H : read_note [1; 172; 28; 32] 0 = Done (MkNote 1 428 12 32, 4))
    by reflexivity.
  split; [exact H|].
  destruct (read_note_decode _ 0 _ _ ltac:(lia) Hb H)
    as (_ & _ & _ & _ & _ & _ & E0 & _).
  exact E0.
Defined.

Lemma pattern_cell_layout_witness :
  load_mod_embedded (fun _ => true) example_blob 2112 = Loaded example_module /\
  cell example_module 0 0 0 = decode_note 1 172 28 32.
Proof.
  split; [exact example_loaded|].
  destruct (pattern_cell_layout (fun _ => true) example_blob 2112
              example_module 0 0 0 example_blob_bytes example_loaded
              ltac:(simpl; lia) ltac:(unfold ROWS_PER_PATTERN; lia)
              ltac:(unfold NUM_CHANNELS; lia)) as (_ & _ & Hcell & _).
  exact (Hcell 0 eq_refl).
Defined.

Lemma sample_header_layout_witness :
  exists s : Sample,
    samples example_module !! 0%nat = Some s /\
    sample_length s = (2 * word_at example_blob 42) mod 65536 /\
    sample_volume s = byte_at example_blob 45.
Proof.
  destruct (sample_header_layout (fun _ => true) example_blob 2112
              example_module 0 example_blob_bytes example_loaded
              ltac:(lia)) as (s & Hs & _ & Hl & _ & Hv & _).
  exists s. split; [exact Hs|]. split; [exact Hl | exact Hv].
Defined.

Lemma pattern_count_witness :
  num_patterns example_module =
  (foldr Z.max 0 (take (Z.to_nat (song_length example_module))
                       (positions example_module)) + 1) mod 256.
Proof.
  destruct (pattern_count (fun _ => true) example_blob 2112
              example_blob_bytes) as [Hloaded _].
  destruct (Hloaded example_module example_loaded)
    as (_ & _ & _ & _ & Hn & _).
  exact Hn.
Defined.

Lemma sample_payload_layout_witness :
  samples example_module !! 0%nat = Some example_sample /\
  sample_data example_sample = Some (1084 + 1024 * 1 + 0) /\
  2108 + sample_length example_sample <= Z.of_nat (length example_blob).
Proof.
  assert (Hk : samples example_module !! 0%nat = Some example_sample)
    by reflexivity.
  destruct (sample_payload_layout (fun _ => true) example_blob 2112
              example_module 0 example_sample example_loaded Hk)
    as (_ & _ & Hdata & Hin).
  split; [exact Hk|]. split; [exact Hdata|].
  apply (Hin ltac:(vm_compute; discriminate) 2108 eq_refl).
Defined.

Lemma tick_length_witness :
  216 <= Z.of_nat (length (tick_buffer (fun q => q) example_module
                                       example_blob (example_play 7)))
      <= 1024.
Proof.
  assert (Hm : Forall (fun note => note_param note <= 255)
                      (patterns example_module)).
  { eapply Forall_impl; [exact example_params|]. intros note H. simpl in H.
    lia. }
  exact (proj2 (proj2 (proj2 (proj2
           (tick_length 2048 (fun q => q) example_module example_blob 7
                        Hm))))).
Defined.


Lemma pattern_reads_in_bounds_witness :
  exists pattern : Z,
    positions example_module
      !! Z.to_nat (position (snd (fst (example_play 7)))) = Some pattern /\
    0 <= pattern < num_patterns example_module.
Proof.
  destruct (pattern_reads_in_bounds (fun _ => true) 2048 (fun q => q)
              example_blob 2112 example_module 7 0 example_blob_bytes
              example_loaded ltac:(simpl; lia) ltac:(vm_compute; reflexivity)
              ltac:(unfold NUM_CHANNELS; lia)) as (pattern & Hp & Hr & _).
  exists pattern. split; [exact Hp | exact Hr].
Defined.


Lemma pattern_break_witness :
  player_ok 2 player_start /\
  row (snd (start_of_tick (fun q => q) break_module channels_start
                           player_start)) = 63.
Proof.
  split; [apply player_start_ok|].
  refine (proj1 (pattern_break 2048 (fun q => q) break_module []
                   channels_start player_start
                   (RingBuffer.modplayer_init 2048)
                   (player_start_ok 2) eq_refl _)).
  exists 0%nat. split; [simpl; lia | reflexivity].
Defined.

Lemma playback_queue_witness :
  RingBuffer.ring_wf 2048 (snd (example_play 7)) /\
  RingBuffer.mod_read_pos (snd (example_play 7)) = 0.
Proof.
  destruct (playback_queue 2048 (fun q => q) example_module example_blob 7
              ltac:(lia)) as (Hwf & Hr & _).
  split; [exact Hwf | exact Hr].
Defined.

End Tracker.

(** ** The bouncing balls and their sounds (main.c) *)

Module Bounce.

Definition MAX_ACTIVE_SOUNDS : Z := 5.

(** [active_sound_t].  [sample_data] points to one of the five arrays of
    [bounce_samples], or is NULL as in the zero-initialised pool: the number
    of the array, or [None].  The two lengths are [uint32_t]. *)
Record active_sound_t : Type := ActiveSound {
  sample_data : option Z;
  sample_length : Z;
  playback_position : Z;
  active : bool;
  volume : Q
}.

(** [active_sounds] before [audio_task] starts: static storage, all zero. *)
Definition initial_sounds : list active_sound_t :=
  replicate (Z.to_nat MAX_ACTIVE_SOUNDS) (ActiveSound None 0 0 false 0).

(** What reaches the pool: the trigger flags found at the start of a pass of
    [audio_task], and one frame of the mixing loop, with the music sample
    taken from the ring buffer if one was queued. *)
Inductive event : Type :=
| Triggers (sound_trigger : list bool)
| Frame (mod_sample : option Z).

Section Sounds.

(** [bounce_samples] and [bounce_lengths], of [bounce_sounds.h]. *)
Variable bounce_samples : Z -> list Z.
Variable bounce_lengths : Z -> Z.

(** Rounding of an exact result to [float]. *)
Variable fl : Q -> Q.

(** [active_sounds[slot].sample_data == bounce_samples[i]] *)
Definition same_sound (s : active_sound_t) (i : Z) : bool :=
  match sample_data s with
  | Some j => j =? i
  | None => false
  end.

(** The slot loop of [audio_task] for trigger [i]: the first slot that is
    free or holds sound [i] is set up, the others are left alone. *)
Fixpoint trigger (i : Z) (sounds : list active_sound_t)
  : list active_sound_t :=
  match sounds with
  | [] => []
  | s :: rest =>
      if negb (active s) || same_sound s i
      then ActiveSound (Some i) (u32 (bounce_lengths i)) 0 true (fl (1 # 10))
             :: rest
      else s :: trigger i rest
  end.

(** Step 1 of [audio_task]: the five trigger flags in order.  (A flag the
    list does not have reads as not set.) *)
Definition check_triggers (sound_trigger : list bool)
    (sounds : list active_sound_t) : list active_sound_t :=
  fold_left
    (fun sounds i =>
       if default false (sound_trigger !! i)
       then trigger (Z.of_nat i) sounds else sounds)
    (seq 0 5) sounds.

(** The array a slot plays. *)
Definition samples_of (s : active_sound_t) : list Z :=
  match sample_data s with
  | Some i => bounce_samples i
  | None => []
  end.

(** The body of the accumulation loop for one slot: the running mix and the
    slot afterwards.  (0 stands for what a read outside the array gives.) *)
Definition mix_sound (mix : Q) (s : active_sound_t) : Q * active_sound_t :=
  if active s
  then
    let sample :=
      default 0 (samples_of s !! Z.to_nat (playback_position s)) in
    let sample_f := fl (fl (fl (inject_Z sample) / 32768) * volume s) in
    let pos := u32 (playback_position s + 1) in
    (fl (mix + sample_f),
     ActiveSound (sample_data s) (sample_length s) pos
                 (if sample_length s <=? pos then false else true)
                 (volume s))
  else (mix, s).

Fixpoint mix_sounds (mix : Q) (sounds : list active_sound_t)
  : Q * list active_sound_t :=
  match sounds with
  | [] => (mix, [])
  | s :: rest =>
      let (mix1, s1) := mix_sound mix s in
      let (mix2, rest2) := mix_sounds mix1 rest in
      (mix2, s1 :: rest2)
  end.

(** One frame of [audio_task]: the output sample (the same on both
    channels) and the pool afterwards. *)
Definition mix_frame (mod_sample : option Z) (sounds : list active_sound_t)
  : Z * list active_sound_t :=
  let mix :=
    match mod_sample with
    | Some m => fl (0 + fl (fl (inject_Z m) / 32768))
    | None => 0%Q
    end in
  let (mix, sounds) := mix_sounds mix sounds in
  (Keyboard.output_sample fl mix, sounds).

Definition step (e : event) (sounds : list active_sound_t)
  : list active_sound_t :=
  match e with
  | Triggers sound_trigger => check_triggers sound_trigger sounds
  | Frame mod_sample => snd (mix_frame mod_sample sounds)
  end.

(** The pool after a sequence of events, from the zero-initialised one. *)
Definition run (events : list event) : list active_sound_t :=
  fold_left (fun sounds e => step e sounds) events initial_sounds.

(** What a slot that plays is: it plays one of the five sounds, knows its
    length, and has not reached its end. *)
Definition sound_ok (s : active_sound_t) : Prop :=
  active s = true ->
  exists i : Z,
    0 <= i < 5 /\ sample_data s = Some i /\
    sample_length s = bounce_lengths i /\
    0 <= playback_position s < sample_length s /\
    volume s = fl (1 # 10).

(** *** Properties of the sound pool *)

(** The slot part of a frame does not depend on the mix. *)
Lemma mix_sounds_pool (mix : Q) (sounds : list active_sound_t) :
  snd (mix_sounds mix sounds) = map (fun s => snd (mix_sound 0 s)) sounds.
Proof.
  revert mix. induction sounds as [|s rest IH]; intros mix; [reflexivity|].
  simpl. specialize (IH (fst (mix_sound mix s))).
  destruct (mix_sound mix s) as [mix1 s1] eqn:E1.
  destruct (mix_sounds mix1 rest) as [mix2 rest2] eqn:E2. simpl in *.
  rewrite <- IH, E2. simpl. f_equal.
  unfold mix_sound in *. destruct (active s); inversion E1; reflexivity.
Qed.

Lemma mix_frame_pool (mod_sample : option Z) (sounds : list active_sound_t) :
  snd (mix_frame mod_sample sounds)
  = map (fun s => snd (mix_sound 0 s)) sounds.
Proof.
  unfold mix_frame.
  set (mix := match mod_sample with Some _ => _ | None => _ end).
  rewrite <- (mix_sounds_pool mix sounds).
  destruct (mix_sounds mix sounds). reflexivity.
Qed.

Section Lengths.

(** Every sound has at least one sample, and [bounce_lengths] tells the
    size of its array. *)
Hypothesis lengths_ok :
  forall i : Z, 0 <= i < 5 ->
  0 < bounce_lengths i < 2 ^ 32 /\
  Z.of_nat (length (bounce_samples i)) = bounce_lengths i.

Lemma trigger_ok (i : Z) (sounds : list active_sound_t) :
  0 <= i < 5 ->
  Forall sound_ok sounds -> Forall sound_ok (trigger i sounds).
Proof.
  intros Hi H. induction H as [|s rest Hs Hrest IH]; simpl; [constructor|].
  destruct (negb (active s) || same_sound s i).
  - constructor; [|exact Hrest].
    intros _. exists i. simpl.
    destruct (lengths_ok i Hi) as [Hl _].
    rewrite u32_small by lia. repeat split; try lia.
  - constructor; assumption.
Qed.

Lemma trigger_length (i : Z) (sounds : list active_sound_t) :
  length (trigger i sounds) = length sounds.
Proof.
  induction sounds as [|s rest IH]; simpl; [reflexivity|].
  destruct (negb (active s) || same_sound s i); simpl; congruence.
Qed.

Lemma check_triggers_ok (sound_trigger : list bool)
    (sounds : list active_sound_t) :
  Forall sound_ok sounds ->
  Forall sound_ok (check_triggers sound_trigger sounds) /\
  length (check_triggers sound_trigger sounds) = length sounds.
Proof.
  unfold check_triggers.
  assert (Hseq : Forall (fun i => (i < 5)%nat) (seq 0 5))
    by (repeat constructor).
  revert Hseq sounds. generalize (seq 0 5).
  induction l as [|i l IH]; intros Hl sounds H; simpl; [now split|].
  inversion Hl as [|? ? Hi Hl']; subst.
  destruct (default false (sound_trigger !! i)).
  - destruct (IH Hl' (trigger (Z.of_nat i) sounds)) as [H1 H2].
    + apply trigger_ok; [lia | exact H].
    + split; [exact H1|]. rewrite H2. apply trigger_length.
  - now apply IH.
Qed.

Lemma mix_sound_ok (s : active_sound_t) :
  sound_ok s -> sound_ok (snd (mix_sound 0 s)).
Proof.
  intros H. unfold mix_sound. destruct (active s) eqn:Ha; [|exact H].
  destruct (H Ha) as (i & Hi & Hd & Hl & Hp & Hv).
  destruct (lengths_ok i Hi) as [Hr _].
  simpl. intros Hact.
  rewrite u32_small in * by lia.
  destruct (Z.leb_spec (sample_length s) (playback_position s + 1));
    [discriminate|].
  exists i. simpl. repeat split; try assumption; lia.
Qed.

Lemma run_ok (events : list event) :
  Forall sound_ok (run events) /\
  length (run events) = Z.to_nat MAX_ACTIVE_SOUNDS.
Proof.
  unfold run.
  assert (H0 : Forall sound_ok initial_sounds /\
               length initial_sounds = Z.to_nat MAX_ACTIVE_SOUNDS).
  { split; [|apply length_replicate].
    apply Forall_replicate. intros Ha. discriminate. }
  revert H0. generalize initial_sounds.
  induction events as [|e events IH]; intros sounds H; simpl; [exact H|].
  apply IH. destruct H as [H Hlen]. destruct e as [t | m]; simpl.
  - destruct (check_triggers_ok t sounds H) as [H1 H2].
    split; [exact H1 | congruence].
  - rewrite mix_frame_pool. split.
    + apply Forall_fmap. eapply Forall_impl; [exact H|].
      intros s Hs. apply mix_sound_ok, Hs.
    + now rewrite length_map.
Qed.

(** A playing slot reads inside its sound.  The pool always has its five
    slots, and in every pool reached from the initial one, whatever triggers
    and frames arrive, a slot that is active plays one of the five sounds at
    a position below the sound's length: the sample the next frame reads
    exists. *)
Theorem sound_reads_in_bounds (events : list event) :
  length (run events) = Z.to_nat MAX_ACTIVE_SOUNDS /\
  forall (k : nat) (s : active_sound_t),
    run events !! k = Some s -> active s = true ->
    exists i : Z,
      0 <= i < 5 /\ sample_data s = Some i /\
      sample_length s = bounce_lengths i /\
      0 <= playback_position s < bounce_lengths i /\
      is_Some (bounce_samples i !! Z.to_nat (playback_position s)).
Proof.
  destruct (run_ok events) as [Hall Hlen]. split; [exact Hlen|].
  intros k s Hk Ha.
  destruct (Forall_lookup_1 _ _ _ _ Hall Hk Ha) as (i & Hi & Hd & Hl & Hp & _).
  exists i. split; [exact Hi|]. split; [exact Hd|]. split; [exact Hl|].
  split; [lia|].
  apply lookup_lt_is_Some. destruct (lengths_ok i Hi) as [_ Hn]. lia.
Qed.

End Lengths.

(** A sound is played once, sample by sample.  A slot set up for a sound of
    [len] samples, from 1 to 2^32 - 1, and not triggered again adds in frame
    [n], for [n] below [len], the sample at index [n] of its array, scaled by
    1/32768 and by the slot's volume, to the mix; after [len] frames it is
    inactive, and from then on it adds nothing and does not change. *)
Theorem sound_plays_once (i len : Z) (v : Q) :
  0 < len < 2 ^ 32 ->
  let frames n :=
    Nat.iter n (fun s => snd (mix_sound 0 s))
             (ActiveSound (Some i) len 0 true v) in
  (forall (n : nat) (mix : Q),
     Z.of_nat n < len ->
     frames n = ActiveSound (Some i) len (Z.of_nat n) true v /\
     fst (mix_sound mix (frames n))
       = fl (mix + fl (fl (fl (inject_Z
                                 (default 0 (bounce_samples i !! n))) / 32768)
                       * v))) /\
  (forall (n : nat) (mix : Q),
     len <= Z.of_nat n ->
     frames n = ActiveSound (Some i) len len false v /\
     mix_sound mix (frames n) = (mix, frames n)).
Proof.
  intros Hlen frames.
  assert (Hplay : forall n : nat, Z.of_nat n < len ->
            frames n = ActiveSound (Some i) len (Z.of_nat n) true v).
  { induction n as [|n IH]; intros Hn; [reflexivity|].
    unfold frames in *. simpl Nat.iter. rewrite IH by lia.
    unfold mix_sound. simpl.
    rewrite u32_small by lia.
    destruct (Z.leb_spec len (Z.of_nat n + 1)); [lia|].
    do 2 f_equal. lia. }
  assert (Hend : frames (Z.to_nat len)
                 = ActiveSound (Some i) len len false v).
  { replace (Z.to_nat len) with (S (Z.to_nat (len - 1))) by lia.
    unfold frames in *. simpl Nat.iter. rewrite Hplay by lia.
    unfold mix_sound. simpl.
    rewrite u32_small by lia.
    destruct (Z.leb_spec len (Z.of_nat (Z.to_nat (len - 1)) + 1)); [|lia].
    f_equal. lia. }
  assert (Hstop : forall k : nat,
            frames (k + Z.to_nat len)%nat
            = ActiveSound (Some i) len len false v).
  { induction k as [|k IH]; [exact Hend|].
    unfold frames in *. simpl Nat.iter. rewrite IH. reflexivity. }
  split.
  - intros n mix Hn. split; [exact (Hplay n Hn)|].
    rewrite (Hplay n Hn). unfold mix_sound. simpl.
    rewrite Nat2Z.id. reflexivity.
  - intros n mix Hn.
    replace n with ((n - Z.to_nat len) + Z.to_nat len)%nat by lia.
    rewrite Hstop. split; reflexivity.
Qed.

End Sounds.

(** *** The balls, the backlight and the LEDs ([app_main], lines 283-358) *)

(** The arrays and variables of the main loop; [xoffs], [yoffs], [xspeed]
    and [yspeed] are [int32_t], [bright] and the bytes of [led_data] are
    [uint8_t]. *)
Record world : Type := World {
  xoffs : list Z;
  yoffs : list Z;
  xspeed : list Z;
  yspeed : list Z;
  bounce : list bool;
  bright : Z;
  led_data : list Z;
  sound_trigger : list bool
}.

Definition initial_xspeed : list Z := [2; 1; -1; 3; -2].
Definition initial_yspeed : list Z := [1; -1; 2; -2; 3].

Definition led_offs : list Z := [0 * 3; 1 * 3; 2 * 3; 4 * 3; 5 * 3].

Definition led_colormap : list Z :=
  [0xFF; 0x00; 0x00; 0x00; 0xFF; 0x00; 0xFF; 0x00; 0xFF; 0x00; 0xFF; 0xFF;
   0xFF; 0xFF; 0x00].

(** The state in which the main loop is entered. *)
Definition initial_world : world :=
  World [100; 130; 170; 230; 335] [100; 107; 209; 305; 227]
        initial_xspeed initial_yspeed
        (replicate 5 false) 100 (replicate 18 0) (replicate 5 false).

(** [l[i]]; 0 stands for what a read outside the array gives. *)
Definition at_index (l : list Z) (i : nat) : Z := default 0 (l !! i).

Section Balls.

(** [display_h_res] and [display_v_res], two [size_t] (32 bits on the
    target) set by [bsp_display_get_parameters]. *)
Variable display_h_res : Z.
Variable display_v_res : Z.

(** [off < 1 || off > res - 50]: the second comparison is between an
    [int32_t] and a [size_t] and is therefore unsigned. *)
Definition outside (off res : Z) : bool :=
  (off <? 1) || (u32 (res - 50) <? u32 off).

(** The body of the loop over the balls for ball [i].  The additions on
    [int32_t] are those of [Z]: C leaves an overflow undefined. *)
Definition move_ball (i : nat) (w : world) : world :=
  let bounce0 := <[i := false]> (bounce w) in
  let xoffs1 :=
    <[i := at_index (xoffs w) i + at_index (xspeed w) i]> (xoffs w) in
  let hit_x := outside (at_index xoffs1 i) display_h_res in
  let xspeed2 :=
    if hit_x then <[i := at_index (xspeed w) i * -1]> (xspeed w)
    else xspeed w in
  let xoffs2 :=
    if hit_x then <[i := at_index xoffs1 i + at_index xspeed2 i]> xoffs1
    else xoffs1 in
  let bright2 := if hit_x then 100 else bright w in
  let bounce2 := if hit_x then <[i := true]> bounce0 else bounce0 in
  let yoffs1 :=
    <[i := at_index (yoffs w) i + at_index (yspeed w) i]> (yoffs w) in
  let hit_y := outside (at_index yoffs1 i) display_v_res in
  let yspeed2 :=
    if hit_y then <[i := at_index (yspeed w) i * -1]> (yspeed w)
    else yspeed w in
  let yoffs2 :=
    if hit_y then <[i := at_index yoffs1 i + at_index yspeed2 i]> yoffs1
    else yoffs1 in
  let bright3 := if hit_y then 100 else bright2 in
  let bounce3 := if hit_y then <[i := true]> bounce2 else bounce2 in
  if default false (bounce3 !! i)
  then
    let ledoffs := Z.to_nat (at_index led_offs i) in
    World xoffs2 yoffs2 xspeed2 yspeed2 bounce3 bright3
      (<[(ledoffs + 2)%nat := at_index led_colormap (i * 3 + 2)]>
         (<[(ledoffs + 1)%nat := at_index led_colormap (i * 3 + 0)]>
            (<[(ledoffs + 0)%nat := at_index led_colormap (i * 3 + 1)]>
               (led_data w))))
      (<[i := true]> (sound_trigger w))
  else
    World xoffs2 yoffs2 xspeed2 yspeed2 bounce3 bright3
      (led_data w) (sound_trigger w).

(** The start of an iteration: the LEDs are cleared and the power LED is
    switched on. *)
Definition clear_leds (w : world) : world :=
  World (xoffs w) (yoffs w) (xspeed w) (yspeed w) (bounce w) (bright w)
    (<[(3 * 3 + 1)%nat := 0xFF]>
       (<[(3 * 3 + 0)%nat := 0xFF]>
          (replicate 18 0 ++ drop 18 (led_data w))))
    (sound_trigger w).

(** The iteration up to the call of [bsp_input_set_backlight_brightness]:
    its [bright] is the brightness shown. *)
Definition move_balls (w : world) : world :=
  fold_left (fun w i => move_ball i w) (seq 0 5) (clear_leds w).

(** One iteration of the main loop, as far as these variables go: the
    drawing, the check of the input queue and the writes to the backlight
    and the LEDs read them and change none of them. *)
Definition frame_step (w : world) : world :=
  let w := move_balls w in
  World (xoffs w) (yoffs w) (xspeed w) (yspeed w) (bounce w)
    (if 0 <? bright w then u8 (bright w - 25) else bright w)
    (led_data w) (sound_trigger w).

(** The three bytes of the LED of ball [i]. *)
Definition led_of (w : world) (i : nat) : list Z :=
  let ledoffs := Z.to_nat (at_index led_offs i) in
  [at_index (led_data w) ledoffs; at_index (led_data w) (ledoffs + 1);
   at_index (led_data w) (ledoffs + 2)].

(** The colour of ball [i] in the byte order of the LEDs. *)
Definition led_colour (i : nat) : list Z :=
  [at_index led_colormap (i * 3 + 1); at_index led_colormap (i * 3 + 0);
   at_index led_colormap (i * 3 + 2)].

(** What holds of the arrays all along. *)
Definition on_screen (w : world) : Prop :=
  length (xoffs w) = 5%nat /\ length (yoffs w) = 5%nat /\
  Forall (fun x => 1 <= x <= display_h_res - 50) (xoffs w) /\
  Forall (fun y => 1 <= y <= display_v_res - 50) (yoffs w) /\
  Forall2 (fun s s0 => s = s0 \/ s = - s0) (xspeed w) initial_xspeed /\
  Forall2 (fun s s0 => s = s0 \/ s = - s0) (yspeed w) initial_yspeed.

Definition bright_ok (w : world) : Prop :=
  exists k : Z, 0 <= k <= 4 /\ bright w = 25 * k.

(** What holds of the LEDs once the balls below [k] have moved. *)
Definition leds_ok (k : nat) (w : world) : Prop :=
  length (bounce w) = 5%nat /\ length (sound_trigger w) = 5%nat /\
  length (led_data w) = 18%nat /\
  (led_data w !! 9%nat = Some 255 /\ led_data w !! 10%nat = Some 255 /\
   led_data w !! 11%nat = Some 0) /\
  forall i : nat, (i < 5)%nat ->
    ((i < k)%nat ->
     (bounce w !! i = Some true /\ led_of w i = led_colour i /\
      sound_trigger w !! i = Some true /\ bright w = 100) \/
     (bounce w !! i = Some false /\ led_of w i = [0; 0; 0])) /\
    ((k <= i)%nat -> led_of w i = [0; 0; 0]).

(** *** Properties of the main loop *)

(** The display is at least as large as the starting positions need, and
    its sizes fit an [int32_t]. *)
Hypothesis display_range :
  385 <= display_h_res < 2 ^ 31 /\ 355 <= display_v_res < 2 ^ 31.

Ltac explode l H :=
  simpl in H;
  repeat (let a := fresh "a" in
          destruct l as [|a l]; [discriminate H|];
          simpl in H; apply Nat.succ_inj in H);
  destruct l; [|discriminate H]; clear H.

Lemma outside_spec (off res : Z) :
  -3 <= off < 2 ^ 31 + 3 -> 50 <= res < 2 ^ 31 ->
  (outside off res = true -> off < 1 \/ res - 50 < off) /\
  (outside off res = false -> 1 <= off <= res - 50).
Proof.
  intros Ho Hr. unfold outside.
  destruct (Z.ltb_spec off 1) as [H1 | H1]; simpl.
  - split; [lia | discriminate].
  - rewrite !u32_small by lia.
    destruct (Z.ltb_spec (res - 50) off); split; intros; try discriminate;
      lia.
Qed.

Ltac conj_solve :=
  first [assumption
        |match goal with
         | |- Forall _ [] => constructor
         | |- Forall2 _ [] [] => constructor
         | |- Forall _ (_ :: _) => constructor; conj_solve
         | |- Forall2 _ (_ :: _) (_ :: _) => constructor; conj_solve
         | |- _ /\ _ => split; conj_solve
         end].

Ltac decide_nat H :=
  first [specialize (H ltac:(apply Nat.ltb_lt; reflexivity))
        |specialize (H ltac:(apply Nat.leb_le; reflexivity))
        |clear H].

Ltac absurd_nat H :=
  exfalso;
  first [apply Nat.ltb_lt in H; discriminate H
        |apply Nat.leb_le in H; discriminate H].

(** One coordinate of one ball. *)
Lemma coordinate_ok (off speed s0 res : Z) :
  1 <= off <= res - 50 -> speed = s0 \/ speed = - s0 ->
  -3 <= s0 <= 3 -> 53 <= res < 2 ^ 31 ->
  (outside (off + speed) res = true ->
   1 <= off + speed + speed * -1 <= res - 50 /\
   (speed * -1 = s0 \/ speed * -1 = - s0)) /\
  (outside (off + speed) res = false -> 1 <= off + speed <= res - 50).
Proof.
  intros Ho Hs Hs0 Hr.
  destruct (outside_spec (off + speed) res ltac:(lia) ltac:(lia)) as [T F].
  split; [intros _; lia | exact F].
Qed.

Lemma move_ball_ok (k : nat) (w : world) :
  (k < 5)%nat ->
  on_screen w -> bright_ok w -> leds_ok k w ->
  on_screen (move_ball k w) /\ bright_ok (move_ball k w) /\
  leds_ok (S k) (move_ball k w).
Proof.
  intros Hk (Hlx & Hly & Hx & Hy & Hsx & Hsy) Hb (Hlb & Hlt & Hll & Hp & Hled).
  destruct display_range as [Hh Hv].
  assert (Hh' : 53 <= display_h_res < 2 ^ 31) by lia.
  assert (Hv' : 53 <= display_v_res < 2 ^ 31) by lia.
  clear Hh Hv.
  destruct w as [xs ys sx sy bs br led tr]. simpl in *.
  pose proof (Forall2_length _ _ _ Hsx) as Hlsx.
  pose proof (Forall2_length _ _ _ Hsy) as Hlsy.
  explode xs Hlx. explode ys Hly. explode sx Hlsx. explode sy Hlsy.
  explode bs Hlb. explode tr Hlt. explode led Hll.
  unfold initial_xspeed, initial_yspeed in *.
  rewrite ?Forall_cons, ?Forall2_cons in *.
  destruct Hx as (X0 & X1 & X2 & X3 & X4 & _).
  destruct Hy as (Y0 & Y1 & Y2 & Y3 & Y4 & _).
  destruct Hsx as (SX0 & SX1 & SX2 & SX3 & SX4 & _).
  destruct Hsy as (SY0 & SY1 & SY2 & SY3 & SY4 & _).
  pose proof (Hled 0%nat ltac:(repeat constructor)) as [L0 M0].
  pose proof (Hled 1%nat ltac:(repeat constructor)) as [L1 M1].
  pose proof (Hled 2%nat ltac:(repeat constructor)) as [L2 M2].
  pose proof (Hled 3%nat ltac:(repeat constructor)) as [L3 M3].
  pose proof (Hled 4%nat ltac:(repeat constructor)) as [L4 M4].
  clear Hled.
  unfold bright_ok in *. simpl in Hb.
  destruct Hp as (P9 & P10 & P11).
  injection P9 as ->. injection P10 as ->. injection P11 as ->.
  unfold led_of, led_colour, at_index, led_offs, led_colormap in *.
  simpl in L0, L1, L2, L3, L4, M0, M1, M2, M3, M4.
  destruct k as [|[|[|[|[|k]]]]]; [| | | | |exfalso; clear - Hk; lia].
  all: decide_nat L0; decide_nat L1; decide_nat L2; decide_nat L3;
    decide_nat L4; decide_nat M0; decide_nat M1; decide_nat M2;
    decide_nat M3; decide_nat M4.
  all: unfold move_ball, on_screen, leds_ok, at_index, led_offs, led_colormap;
    cbv zeta; simpl.
  all: match goal with
       | Ho : 1 <= ?o <= display_h_res - 50, Hs : ?s = ?s0 \/ ?s = - ?s0
         |- context [outside (?o + ?s) display_h_res] =>
           destruct (coordinate_ok o s s0 display_h_res Ho Hs
                       ltac:(clear; lia) Hh') as [Tx Fx];
           destruct (outside (o + s) display_h_res);
           [destruct (Tx eq_refl) as [Tx1 Tx2]; clear Fx Tx
           |specialize (Fx eq_refl); clear Tx]
       end.
  all: match goal with
       | Ho : 1 <= ?o <= display_v_res - 50, Hs : ?s = ?s0 \/ ?s = - ?s0
         |- context [outside (?o + ?s) display_v_res] =>
           destruct (coordinate_ok o s s0 display_v_res Ho Hs
                       ltac:(clear; lia) Hv') as [Ty Fy];
           destruct (outside (o + s) display_v_res);
           [destruct (Ty eq_refl) as [Ty1 Ty2]; clear Fy Ty
           |specialize (Fy eq_refl); clear Ty]
       end.
  all: simpl.
  all: split;
    [split; [reflexivity|]; split; [reflexivity|];
     unfold initial_xspeed, initial_yspeed; conj_solve|].
  all: split; [first [exact Hb | exists 4; clear; lia]|].
  all: split; [reflexivity|]; split; [reflexivity|]; split; [reflexivity|].
  all: split; [repeat split; reflexivity|].
  all: intros i Hi;
    destruct i as [|[|[|[|[|i]]]]]; [| | | | |exfalso; clear - Hi; lia].
  all: unfold led_of, led_colour, at_index, led_offs, led_colormap; simpl.
  all: split; intros Hik; try (absurd_nat Hik).
  all: first [assumption
             | left; repeat split; reflexivity
             | right; split; [reflexivity | assumption]
             | match goal with
               | H : (_ /\ _) \/ _ |- _ =>
                   destruct H as [(A & B & C & D) | (A & B)];
                   [left | right]; repeat split;
                   first [assumption | reflexivity]
               end].
Qed.

Lemma clear_leds_ok (w : world) :
  length (bounce w) = 5%nat -> length (sound_trigger w) = 5%nat ->
  length (led_data w) = 18%nat ->
  leds_ok 0 (clear_leds w).
Proof.
  intros Hlb Hlt Hll. unfold leds_ok, clear_leds. simpl.
  rewrite drop_ge by lia. simpl.
  split; [exact Hlb|]. split; [exact Hlt|]. split; [reflexivity|].
  split; [repeat split; reflexivity|].
  intros i Hi. split; intros Hik; [lia|].
  destruct i as [|[|[|[|[|i]]]]]; [| | | | |lia]; reflexivity.
Qed.

(** What an iteration is entered with and left with. *)
Definition world_ok (w : world) : Prop :=
  on_screen w /\ bright_ok w /\
  length (bounce w) = 5%nat /\ length (sound_trigger w) = 5%nat /\
  length (led_data w) = 18%nat.

Lemma move_balls_ok (w : world) :
  world_ok w ->
  on_screen (move_balls w) /\ bright_ok (move_balls w) /\
  leds_ok 5 (move_balls w).
Proof.
  intros (Hs & Hb & Hlb & Hlt & Hll).
  pose proof (clear_leds_ok w Hlb Hlt Hll) as H0.
  assert (Hs0 : on_screen (clear_leds w)) by exact Hs.
  assert (Hb0 : bright_ok (clear_leds w)) by exact Hb.
  unfold move_balls. simpl fold_left.
  destruct (move_ball_ok 0 _ ltac:(lia) Hs0 Hb0 H0) as (Hs1 & Hb1 & H1).
  destruct (move_ball_ok 1 _ ltac:(lia) Hs1 Hb1 H1) as (Hs2 & Hb2 & H2).
  destruct (move_ball_ok 2 _ ltac:(lia) Hs2 Hb2 H2) as (Hs3 & Hb3 & H3).
  destruct (move_ball_ok 3 _ ltac:(lia) Hs3 Hb3 H3) as (Hs4 & Hb4 & H4).
  exact (move_ball_ok 4 _ ltac:(lia) Hs4 Hb4 H4).
Qed.

Lemma frame_step_ok (w : world) : world_ok w -> world_ok (frame_step w).
Proof.
  intros H. destruct (move_balls_ok w H) as (Hs & Hb & Hl).
  unfold world_ok, frame_step. revert Hs Hb Hl.
  generalize (move_balls w). intros w' Hs Hb Hl. simpl.
  split; [exact Hs|]. split.
  - destruct Hb as (k & Hk & Eb). unfold bright_ok. simpl. rewrite Eb.
    destruct (Z.ltb_spec 0 (25 * k)).
    + exists (k - 1). unfold u8. rewrite Z.mod_small; lia.
    + exists k. lia.
  - destruct Hl as (Hlb & Hlt & Hll & _). now repeat split.
Qed.

Lemma initial_world_ok : world_ok initial_world.
Proof.
  destruct display_range as [Hh Hv].
  unfold world_ok, on_screen, bright_ok, initial_world. simpl.
  split.
  - split; [reflexivity|]. split; [reflexivity|].
    split; [repeat constructor; lia|]. split; [repeat constructor; lia|].
    unfold initial_xspeed, initial_yspeed.
    split; repeat constructor; left; reflexivity.
  - split; [exists 4; lia|]. now repeat split.
Qed.

Lemma frames_ok (n : nat) : world_ok (Nat.iter n frame_step initial_world).
Proof.
  induction n as [|n IH]; [exact initial_world_ok|].
  simpl. apply frame_step_ok, IH.
Qed.

(** The balls stay on the screen.  On a display of at least 385 by 355
    pixels, after any number of iterations of the main loop every ball has
    its x offset between 1 and [display_h_res - 50] and its y offset between
    1 and [display_v_res - 50], and each speed is the initial one or its
    opposite: a ball never leaves the range and never changes pace. *)
Theorem balls_stay_on_screen (n : nat) :
  let w := Nat.iter n frame_step initial_world in
  (forall (i : nat) (x y : Z),
     xoffs w !! i = Some x -> yoffs w !! i = Some y ->
     1 <= x <= display_h_res - 50 /\ 1 <= y <= display_v_res - 50) /\
  (length (xoffs w) = 5%nat /\ length (yoffs w) = 5%nat) /\
  (forall (i : nat) (s : Z),
     xspeed w !! i = Some s ->
     Z.abs s = Z.abs (at_index initial_xspeed i)) /\
  (forall (i : nat) (s : Z),
     yspeed w !! i = Some s ->
     Z.abs s = Z.abs (at_index initial_yspeed i)).
Proof.
  intros w. destruct (frames_ok n) as ((Hlx & Hly & Hx & Hy & Hsx & Hsy) & _).
  fold w in Hlx, Hly, Hx, Hy, Hsx, Hsy.
  split; [|split; [now split|split]].
  - intros i x y Hi Hj. split.
    + exact (Forall_lookup_1 _ _ _ _ Hx Hi).
    + exact (Forall_lookup_1 _ _ _ _ Hy Hj).
  - intros i s Hi.
    destruct (Forall2_lookup_l _ _ _ _ _ Hsx Hi) as (s0 & Hs0 & Hs).
    unfold at_index. rewrite Hs0. simpl. lia.
  - intros i s Hi.
    destruct (Forall2_lookup_l _ _ _ _ _ Hsy Hi) as (s0 & Hs0 & Hs).
    unfold at_index. rewrite Hs0. simpl. lia.
Qed.


End Balls.

(** *** Examples: three-sample sounds and the 480 by 800 display *)

Definition example_samples (i : Z) : list Z := [100 * (i + 1); -200; 300].

Definition example_lengths (i : Z) : Z := 3.

Definition example_run : list event -> list active_sound_t :=
  run example_samples example_lengths (fun q => q).

Lemma example_lengths_ok (i : Z) :
  0 <= i < 5 ->
  0 < example_lengths i < 2 ^ 32 /\
  Z.of_nat (length (example_samples i)) = example_lengths i.
Proof. intros _. split; [split; reflexivity | reflexivity]. Qed.

Lemma sound_reads_in_bounds_witness :
  exists s : active_sound_t,
    example_run [Triggers [false; true; false; true; false];
                 Frame None; Frame (Some 5)] !! 1%nat = Some s /\
    active s = true /\
    exists i : Z,
      0 <= i < 5 /\ sample_data s = Some i /\
      sample_length s = example_lengths i /\
      0 <= playback_position s < example_lengths i /\
      is_Some (example_samples i !! Z.to_nat (playback_position s)).
Proof.
  eexists. split; [vm_compute; reflexivity|]. split; [reflexivity|].
  apply (proj2 (sound_reads_in_bounds example_samples example_lengths
                  (fun q => q) example_lengths_ok
                  [Triggers [false; true; false; true; false];
                   Frame None; Frame (Some 5)]) 1%nat);
    reflexivity.
Defined.

Lemma sound_plays_once_witness :
  let frames n :=
    Nat.iter n (fun s => snd (mix_sound example_samples (fun q => q) 0 s))
             (ActiveSound (Some 2) 3 0 true (1 # 10)) in
  0 < 3 < 2 ^ 32 /\
  frames 2%nat = ActiveSound (Some 2) 3 2 true (1 # 10) /\
  frames 3%nat = ActiveSound (Some 2) 3 3 false (1 # 10) /\
  frames 7%nat = ActiveSound (Some 2) 3 3 false (1 # 10).
Proof.
  intros frames.
  assert (Hlen : 0 < 3 < 2 ^ 32) by (split; reflexivity).
  destruct (sound_plays_once example_samples (fun q => q) 2 3 (1 # 10) Hlen)
    as [Hplay Hstop].
  split; [exact Hlen|].
  split; [exact (proj1 (Hplay 2%nat 0%Q ltac:(reflexivity)))|].
  split; [exact (proj1 (Hstop 3%nat 0%Q ltac:(discriminate)))
         |exact (proj1 (Hstop 7%nat 0%Q ltac:(discriminate)))].
Defined.

Lemma display_480_800 : 385 <= 480 < 2 ^ 31 /\ 355 <= 800 < 2 ^ 31.
Proof. split; split; (discriminate || reflexivity). Qed.

Lemma balls_stay_on_screen_witness :
  let w := Nat.iter 1000 (frame_step 480 800) initial_world in
  Forall (fun x => 1 <= x <= 480 - 50) (xoffs w) /\
  Forall (fun y => 1 <= y <= 800 - 50) (yoffs w).
Proof.
  intros w.
  destruct (balls_stay_on_screen 480 800 display_480_800 1000)
    as (Hpos & (Hlx & Hly) & _).
  fold w in Hpos, Hlx, Hly.
  split; apply Forall_lookup_2.
  - intros i x Hi.
    assert (Hy : is_Some (yoffs w !! i)).
    { apply lookup_lt_is_Some. rewrite Hly, <- Hlx.
      apply lookup_lt_is_Some. now exists x. }
    destruct Hy as [y Hy]. exact (proj1 (Hpos i x y Hi Hy)).
  - intros i y Hi.
    assert (Hx : is_Some (xoffs w !! i)).
    { apply lookup_lt_is_Some. rewrite Hlx, <- Hly.
      apply lookup_lt_is_Some. now exists y. }
    destruct Hx as [x Hx]. exact (proj2 (Hpos i x y Hx Hi)).
Defined.


End Bounce.
